(** * Phantom material designer: a shallow embedding of
    [src/app/inverse_design_app.py] (and the label decoding of
    [src/scripts/plot_elastic_modulus_vs_thinner_concentration.py]).

    Floats are modelled as exact rationals [Q]: comparisons of finite
    floats agree with those of rationals; rounding is not modelled.
    Python exceptions are the [Err] branch of a small error monad; the
    NaN a scipy interpolant returns outside its breakpoints is the [NaN]
    constructor of [fval]. *)

From Stdlib Require Import PeanoNat QArith Qabs Qminmax Lqa Lia List Permutation Sorted String Ascii Bool.
Import ListNotations.
Open Scope Q_scope.

(* ------------------------------------------------------------------ *)
(** ** Python exceptions and an error monad *)

Inductive exn :=
| ValueError (msg : string)
| RuntimeError (msg : string)
| IndexError (msg : string).

Inductive result (A : Type) :=
| Ok (a : A)
| Err (e : exn).
Arguments Ok {A} a.
Arguments Err {A} e.

Definition bind {A B} (r : result A) (k : A -> result B) : result B :=
  match r with Ok a => k a | Err e => Err e end.

Notation "x <- r ;; k" := (bind r (fun x => k))
  (at level 61, r at next level, right associativity).

(** Float [<] on finite values. *)
Definition Qlt_bool (a b : Q) : bool := negb (Qle_bool b a).


(** A float as numpy returns it from an interpolant: a number or NaN. *)
Inductive fval := Num (q : Q) | NaN.

(* ------------------------------------------------------------------ *)
(** ** Strings: [str.split], [str.replace], [str.strip], [float] *)

Module PyStr.

(** [s.split(sep, 1)] for a one-character separator. *)
Fixpoint split1 (sep : ascii) (s : string) : list string :=
  match s with
  | EmptyString => [EmptyString]
  | String c rest =>
      if Ascii.eqb c sep then [EmptyString; rest]
      else match split1 sep rest with
           | [] => [String c EmptyString]
           | h :: t => String c h :: t
           end
  end.

(** [s.split(sep)] for a one-character separator. *)
Fixpoint split (sep : ascii) (s : string) : list string :=
  match s with
  | EmptyString => [EmptyString]
  | String c rest =>
      let parts := split sep rest in
      if Ascii.eqb c sep then EmptyString :: parts
      else match parts with
           | [] => [String c EmptyString]
           | h :: t => String c h :: t
           end
  end.

(** [s.replace(old, new)] for a one-character [old]. *)
Fixpoint replace (old : ascii) (new : string) (s : string) : string :=
  match s with
  | EmptyString => EmptyString
  | String c rest =>
      if Ascii.eqb c old then new ++ replace old new rest
      else String c (replace old new rest)
  end.

Definition is_space (c : ascii) : bool :=
  existsb (Nat.eqb (nat_of_ascii c)) [32; 9; 10; 11; 12; 13]%nat.

Fixpoint lstrip (s : string) : string :=
  match s with
  | String c rest => if is_space c then lstrip rest else s
  | EmptyString => EmptyString
  end.

Fixpoint rev_str (s acc : string) : string :=
  match s with
  | EmptyString => acc
  | String c rest => rev_str rest (String c acc)
  end.

(** [s.strip()] (ASCII whitespace). *)
Definition strip (s : string) : string :=
  rev_str (lstrip (rev_str (lstrip s) EmptyString)) EmptyString.

(** Python [lst[i]] on a list of strings. *)
Definition index (l : list string) (i : nat) : result string :=
  match nth_error l i with
  | Some x => Ok x
  | None => Err (IndexError "list index out of range")
  end.

Definition digit (c : ascii) : option Z :=
  let n := nat_of_ascii c in
  if Nat.leb 48 n && Nat.leb n 57 then Some (Z.of_nat (n - 48)) else None.

(** Digits after the decimal point: accumulated numerator and scale. *)
Fixpoint frac_digits (s : string) (num : Z) (scale : positive)
  : option (Z * positive) :=
  match s with
  | EmptyString => Some (num, scale)
  | String c rest =>
      match digit c with
      | Some d => frac_digits rest (num * 10 + d)%Z (scale * 10)
      | None => None
      end
  end.

(** Digits before the decimal point, then an optional fractional part. *)
Fixpoint int_digits (s : string) (num : Z) (seen : bool) : option Q :=
  match s with
  | EmptyString => if seen then Some (inject_Z num) else None
  | String c rest =>
      if Ascii.eqb c "." then
        match frac_digits rest num 1 with
        | Some (n, sc) =>
            if seen || negb (String.eqb rest EmptyString)
            then Some (n # sc) else None
        | None => None
        end
      else match digit c with
           | Some d => int_digits rest (num * 10 + d)%Z true
           | None => None
           end
  end.

(** [float(s)] on plain decimal literals [digits[.digits]] (optionally
    signed and surrounded by whitespace); the other spellings Python
    accepts (exponents, [inf], [nan], digit underscores) are not
    modelled and raise here. *)
Definition float (s : string) : result Q :=
  let s := strip s in
  let r := match s with
           | String "-" rest => option_map Qopp (int_digits rest 0 false)
           | String "+" rest => int_digits rest 0 false
           | _ => int_digits s 0 false
           end in
  match r with
  | Some q => Ok q
  | None => Err (ValueError "could not convert string to float")
  end.

End PyStr.

(* ------------------------------------------------------------------ *)
(** ** Label decoding *)

(** [parse_thinner_from_label] (app, lines 21-24). *)
Definition parse_thinner_from_label (label : string) : result Q :=
  part <- PyStr.index (PyStr.split1 "_" label) 1 ;;
  let t_part := PyStr.replace "_" "." (PyStr.replace "T" "" part) in
  PyStr.float t_part.

(** The family of a label as [load_phantoms] computes it
    ([label.split("_", 1)[0].strip()], line 38). *)
Definition family_of_label (label : string) : result string :=
  fam <- PyStr.index (PyStr.split1 "_" label) 0 ;;
  Ok (PyStr.strip fam).

(** The decomposition [load_phantoms] performs on a (stripped) label. *)
Definition decompose_label (label : string) : result (string * Q) :=
  let label := PyStr.strip label in
  fam <- family_of_label label ;;
  t <- parse_thinner_from_label label ;;
  Ok (fam, t).

(** The plotting script's decomposition (script, lines 20-25):
    [family = label.split("_")[0]] and
    [float(label.split("_")[1].replace("T", "").replace("_", "."))]. *)
Definition script_decompose_label (label : string) : result (string * Q) :=
  let label := PyStr.strip label in
  fam <- PyStr.index (PyStr.split "_" label) 0 ;;
  part <- PyStr.index (PyStr.split "_" label) 1 ;;
  let thinner_str := PyStr.replace "_" "." (PyStr.replace "T" "" part) in
  t <- PyStr.float thinner_str ;;
  Ok (fam, t).



(* ------------------------------------------------------------------ *)
(** ** scipy's [PchipInterpolator(x, y, extrapolate=False)]

    The interpolant is a [PPoly]: breakpoints [pp_x] and one cubic per
    interval, [c0 s^3 + c1 s^2 + c2 s + c3] with [s = x - x_i]. *)

Module Pchip.

Definition coeffs := (Q * Q * Q * Q)%type.

Record ppoly := { pp_x : list Q; pp_c : list coeffs }.

(** [np.diff] *)
Fixpoint diff (l : list Q) : list Q :=
  match l with
  | a :: ((b :: _) as rest) => (b - a) :: diff rest
  | _ => []
  end.

(** [np.sign] *)
Definition sign (q : Q) : Z :=
  if Qlt_bool 0 q then 1%Z else if Qlt_bool q 0 then (-1)%Z else 0%Z.

(** [PchipInterpolator._edge_case]: one-sided three-point estimate of
    the end derivative, then the shape-preserving clamps. *)
Definition edge_case (h0 h1 m0 m1 : Q) : Q :=
  let d := ((2 * h0 + h1) * m0 - h0 * m1) / (h0 + h1) in
  let mask := negb (Z.eqb (sign d) (sign m0)) in
  let mask2 := negb (Z.eqb (sign m0) (sign m1)) && Qlt_bool (3 * Qabs m0) (Qabs d) in
  if mask then 0
  else if mask2 then 3 * m0
  else d.

(** The interior derivative of [_find_derivatives] at a knot with left
    spacing/slope [h0]/[m0] and right spacing/slope [h1]/[m1]: zero when
    the slopes differ in sign or one of them is zero, otherwise the
    weighted harmonic mean [1 / whmean]. *)
Definition interior_deriv (h0 h1 m0 m1 : Q) : Q :=
  let condition :=
    negb (Z.eqb (sign m1) (sign m0)) || Qeq_bool m1 0 || Qeq_bool m0 0 in
  let w1 := 2 * h1 + h0 in
  let w2 := h1 + 2 * h0 in
  let whmean := (w1 / m0 + w2 / m1) / (w1 + w2) in
  if condition then 0 else 1 / whmean.

Fixpoint interior_derivs (hk mk : list Q) : list Q :=
  match hk, mk with
  | h0 :: ((h1 :: _) as hk'), m0 :: ((m1 :: _) as mk') =>
      interior_deriv h0 h1 m0 m1 :: interior_derivs hk' mk'
  | _, _ => []
  end.

(** [PchipInterpolator._find_derivatives(x, y)] *)
Definition find_derivatives (x y : list Q) : list Q :=
  let hk := diff x in
  let mk := map (fun '(dy, h) => dy / h) (combine (diff y) hk) in
  match hk, mk with
  | [h0], [m0] => [m0; m0]
  | h0 :: h1 :: _, m0 :: m1 :: _ =>
      let dlast :=
        match rev hk, rev mk with
        | hl :: hl2 :: _, ml :: ml2 :: _ => edge_case hl hl2 ml ml2
        | _, _ => 0
        end in
      edge_case h0 h1 m0 m1 :: interior_derivs hk mk ++ [dlast]
  | _, _ => []
  end.

(** The coefficients [CubicHermiteSpline.__init__] stores. *)
Definition hermite_piece (x0 x1 y0 y1 d0 d1 : Q) : coeffs :=
  let dx := x1 - x0 in
  let slope := (y1 - y0) / dx in
  let t := (d0 + d1 - 2 * slope) / dx in
  (t / dx, (slope - d0) / dx - t, d0, y0).

Fixpoint hermite_coeffs (x y dydx : list Q) : list coeffs :=
  match x, y, dydx with
  | x0 :: ((x1 :: _) as x'), y0 :: ((y1 :: _) as y'), d0 :: ((d1 :: _) as d') =>
      hermite_piece x0 x1 y0 y1 d0 d1 :: hermite_coeffs x' y' d'
  | _, _, _ => []
  end.

Fixpoint strictly_increasing (l : list Q) : bool :=
  match l with
  | a :: ((b :: _) as rest) => Qlt_bool a b && strictly_increasing rest
  | _ => true
  end.

(** The constructor, with the input checks of scipy's [prepare_input]. *)
Definition PchipInterpolator (x y : list Q) : result ppoly :=
  if Nat.ltb (List.length x) 2 then Err (ValueError "`x` must contain at least 2 elements.")
  else if negb (Nat.eqb (List.length x) (List.length y)) then
    Err (ValueError "`x` and `y` must be of the same length.")
  else if negb (strictly_increasing x) then
    Err (ValueError "`x` must be strictly increasing sequence.")
  else Ok {| pp_x := x; pp_c := hermite_coeffs x y (find_derivatives x y) |}.

(** [find_interval] of scipy's [_ppoly] for [extrapolate=False]: [None]
    outside [[x_0, x_{n-1}]], the last interval at [x_{n-1}], otherwise
    the [i] with [x_i <= xval < x_{i+1}].  scipy finds that [i] by a
    bisection; since the breakpoints are strictly increasing it is
    unique, and a left-to-right scan finds the same one. *)
Fixpoint scan (xval : Q) (xs : list Q) (i : nat) : nat :=
  match xs with
  | _ :: ((x1 :: _ :: _) as rest) =>
      if Qlt_bool xval x1 then i else scan xval rest (S i)
  | _ => i
  end.

Definition find_interval (xs : list Q) (xval : Q) : option nat :=
  match xs with
  | [] => None
  | a :: _ =>
      let b := last xs a in
      if negb (Qle_bool a xval && Qle_bool xval b) then None
      else if Qeq_bool xval b then Some (List.length xs - 2)%nat
      else Some (scan xval xs 0)
  end.

(** [evaluate_poly1]: [res += c[k] * z; z *= s] from the constant term up. *)
Definition evaluate_poly1 (s : Q) (c : coeffs) : Q :=
  let '(c0, c1, c2, c3) := c in
  c3 + c2 * s + c1 * (s * s) + c0 * (s * s * s).

(** [PPoly.__call__] on a scalar. *)
Definition call (p : ppoly) (xval : Q) : fval :=
  match find_interval (pp_x p) xval with
  | None => NaN
  | Some i => Num (evaluate_poly1 (xval - nth i (pp_x p) 0) (nth i (pp_c p) (0, 0, 0, 0)))
  end.

End Pchip.

(* ------------------------------------------------------------------ *)
(** ** [build_family_models] (app, lines 45-68) *)

(** A row of [load_phantoms]: [(label, family, thinner_pct, E_mean)]. *)
Definition phantom := (string * string * Q * Q)%type.

(** The per-family dict [{"t": [...], "E": [...], "labels": [...]}]
    before the models are attached. *)
Record group := { g_t : list Q; g_E : list Q; g_labels : list string }.

(** The per-family dict after the loop body of lines 53-66 ran. *)
Record family_model := {
  fm_t : list Q; fm_E : list Q; fm_labels : list string;
  fm_interp : Pchip.ppoly;
  fm_tmin : Q; fm_tmax : Q; fm_Emin : Q; fm_Emax : Q }.

(** [families.setdefault(fam, ...)] followed by the three appends; the
    dict is an association list in insertion order. *)
Fixpoint add_to_family (fam : string) (t E : Q) (label : string)
    (fs : list (string * group)) : list (string * group) :=
  match fs with
  | [] => [(fam, {| g_t := [t]; g_E := [E]; g_labels := [label] |})]
  | (f, d) :: rest =>
      if String.eqb f fam
      then (f, {| g_t := g_t d ++ [t]; g_E := g_E d ++ [E];
                  g_labels := g_labels d ++ [label] |}) :: rest
      else (f, d) :: add_to_family fam t E label rest
  end.

Definition group_phantoms (phantoms : list phantom) : list (string * group) :=
  fold_left (fun fs '(label, fam, t, E) => add_to_family fam t E label fs)
    phantoms [].

(** [np.argsort(t)] applied to [t], [E] and [labels]: the rows sorted by
    concentration.  numpy's default sort is not stable; rows with equal
    concentrations make the interpolant's constructor raise anyway. *)
Fixpoint insert_by_t (r : Q * (Q * string)) (l : list (Q * (Q * string))) :=
  match l with
  | [] => [r]
  | r' :: l' => if Qle_bool (fst r) (fst r') then r :: l else r' :: insert_by_t r l'
  end.

Definition sort_by_t (l : list (Q * (Q * string))) : list (Q * (Q * string)) :=
  fold_right insert_by_t [] l.

(** [arr.min()] and [arr.max()] on a non-empty array. *)
Definition list_min (l : list Q) : Q :=
  match l with [] => 0 | a :: r => fold_left Qmin r a end.
Definition list_max (l : list Q) : Q :=
  match l with [] => 0 | a :: r => fold_left Qmax r a end.

(** The loop body of lines 54-66 for one family. *)
Definition build_family (d : group) : result family_model :=
  let rows := sort_by_t (combine (g_t d) (combine (g_E d) (g_labels d))) in
  let t := map fst rows in
  let E := map (fun r => fst (snd r)) rows in
  let labels := map (fun r => snd (snd r)) rows in
  interp <- Pchip.PchipInterpolator t E ;;
  Ok {| fm_t := t; fm_E := E; fm_labels := labels; fm_interp := interp;
        fm_tmin := list_min t; fm_tmax := list_max t;
        fm_Emin := list_min E; fm_Emax := list_max E |}.

(** The rows [(t, (E, label))] of a family before sorting. *)
Definition rows_of (g : group) : list (Q * (Q * string)) :=
  combine (g_t g) (combine (g_E g) (g_labels g)).

(** The loop over [families.items()]: the first family whose
    interpolant cannot be built raises out of the whole function. *)
Fixpoint build_all (fs : list (string * group))
    : result (list (string * family_model)) :=
  match fs with
  | [] => Ok []
  | (fam, d) :: rest =>
      m <- build_family d ;;
      ms <- build_all rest ;;
      Ok ((fam, m) :: ms)
  end.

Definition build_family_models (phantoms : list phantom)
    : result (list (string * family_model)) :=
  build_all (group_phantoms phantoms).

(* ------------------------------------------------------------------ *)
(** ** [load_phantoms] (app, lines 27-42), after the file check

    A csv row as [csv.DictReader] yields it, restricted to the two
    columns the loop reads. *)
Record csv_row := { sample_label : string; elastic_modulus_mean_kPa : string }.

(** The loop body of lines 37-41. *)
Definition load_row (row : csv_row) : result phantom :=
  let label := PyStr.strip (sample_label row) in
  family <- family_of_label label ;;
  thinner_pct <- parse_thinner_from_label label ;;
  E_mean <- PyStr.float (elastic_modulus_mean_kPa row) ;;
  Ok (label, family, thinner_pct, E_mean).

(** The loop over the rows: the first row that raises aborts the load. *)
Fixpoint load_rows (rows : list csv_row) : result (list phantom) :=
  match rows with
  | [] => Ok []
  | row :: rest =>
      p <- load_row row ;;
      ps <- load_rows rest ;;
      Ok (p :: ps)
  end.

(* ------------------------------------------------------------------ *)
(** ** Views of the phantom table used in the proofs *)

Definition ph_fam (p : phantom) : string := let '(_, fam, _, _) := p in fam.
Definition ph_t (p : phantom) : Q := let '(_, _, t, _) := p in t.

(** The rows [(t, (E, label))] of the phantoms of family [fam], in table
    order. *)
Definition fam_rows (ps : list phantom) (fam : string) : list (Q * (Q * string)) :=
  map (fun '(l, _, t, e) => (t, (e, l))) (filter (fun p => String.eqb (ph_fam p) fam) ps).

(** The concentrations measured for family [fam]. *)
Definition fam_ts (ps : list phantom) (fam : string) : list Q :=
  map ph_t (filter (fun p => String.eqb (ph_fam p) fam) ps).

(** No two elements are equal as numbers ([Qred] is the reduced form). *)
Definition distinct_Q (l : list Q) : Prop := NoDup (map Qred l).

(** The points of a model, [(t, (E, label))], in the order stored. *)
Definition model_rows (d : family_model) : list (Q * (Q * string)) :=
  combine (fm_t d) (combine (fm_E d) (fm_labels d)).

Definition appended (g : group) (t E : Q) (label : string) : group :=
  {| g_t := g_t g ++ [t]; g_E := g_E g ++ [E]; g_labels := g_labels g ++ [label] |}.

Definition singleton (t E : Q) (label : string) : group :=
  {| g_t := [t]; g_E := [E]; g_labels := [label] |}.

(** The invariant of the grouping loop, after the phantoms [done_] were
    processed into the dict [fs]. *)
Definition group_inv (done_ : list phantom) (fs : list (string * group)) : Prop :=
  NoDup (map fst fs)
  /\ (forall k g, In (k, g) fs ->
        List.length (g_E g) = List.length (g_t g)
        /\ List.length (g_labels g) = List.length (g_t g)
        /\ forall t e l, In (t, (e, l)) (rows_of g) <-> In (l, k, t, e) done_)
  /\ (forall l k t e, In (l, k, t, e) done_ -> In k (map fst fs)).

(* ------------------------------------------------------------------ *)
(** ** [feasible] (app, lines 175-178) *)

Definition feasible (families : list (string * family_model)) (E_target : Q)
    : list string :=
  map fst (filter (fun '(fam, d) =>
                     Qle_bool (fm_Emin d) E_target && Qle_bool E_target (fm_Emax d))
                  families).

(* ------------------------------------------------------------------ *)
(** ** [nearest_bounds] (app, lines 82-91) *)

(** An entry of [all_measured]: [(E, label, fam, t)]. *)
Definition measured := (Q * string * string * Q)%type.

Definition mE (m : measured) : Q := let '(E, _, _, _) := m in E.

Fixpoint nearest_bounds_loop (l : list measured) (E_target : Q)
    (lower upper : option measured) : option measured * option measured :=
  match l with
  | [] => (lower, upper)
  | m :: rest =>
      let lower := if Qle_bool (mE m) E_target then Some m else lower in
      let upper :=
        match upper with
        | None => if Qle_bool E_target (mE m) then Some m else None
        | Some u => Some u
        end in
      nearest_bounds_loop rest E_target lower upper
  end.

Definition nearest_bounds (all_measured : list measured) (E_target : Q)
    : option measured * option measured :=
  nearest_bounds_loop all_measured E_target None None.

Fixpoint sorted_by_E (l : list measured) : Prop :=
  match l with
  | a :: ((b :: _) as rest) => mE a <= mE b /\ sorted_by_E rest
  | _ => True
  end.

(** What the two accumulators of the loop end up holding: the last entry
    with [E <= E_target] and the first with [E >= E_target]. *)
Fixpoint last_le (E_target : Q) (l : list measured) : option measured :=
  match l with
  | [] => None
  | m :: rest =>
      match last_le E_target rest with
      | Some x => Some x
      | None => if Qle_bool (mE m) E_target then Some m else None
      end
  end.

Fixpoint first_ge (E_target : Q) (l : list measured) : option measured :=
  match l with
  | [] => None
  | m :: rest => if Qle_bool E_target (mE m) then Some m else first_ge E_target rest
  end.

(** Two measurements with the same modulus 50, and a target of 50. *)
Definition tie_measured : list measured :=
  [(50, "A_0T"%string, "A"%string, 0); (50, "B_0T"%string, "B"%string, 0)].

(* ------------------------------------------------------------------ *)
(** ** scipy's [brentq] (the C routine [brentq.c] behind
    [scipy.optimize.brentq], with the [_wrap_nan_raise] guard) *)

Module Brent.

(** [signbit] of a rational ([-0.0] does not arise). *)
Definition signbit (q : Q) : bool := Qlt_bool q 0.

Inductive outcome :=
| Converged (x : Q)
| SignErr
| ConvErr (x : Q)
| NanAt (x : Q).

(** Defaults of [scipy.optimize.brentq]: [xtol=2e-12],
    [rtol=4*eps = 2^-50], [maxiter=100]. *)
Definition xtol : Q := 2 # 1000000000000.
Definition rtol : Q := 1 # (2 ^ 50).
Definition maxiter : nat := 100.

Section Brentq.
Variable f : Q -> fval.

(** The second half of the loop body: the convergence test, the choice
    between an interpolation step and bisection, and the new evaluation;
    [next] continues the loop. *)
Definition tail (next : Q -> Q -> Q -> Q -> Q -> Q -> Q -> Q -> outcome)
    (xpre xcur xblk fpre fcur fblk spre scur : Q) : outcome :=
  let delta := (xtol + rtol * Qabs xcur) / 2 in
  let sbis := (xblk - xcur) / 2 in
  if Qeq_bool fcur 0 || Qlt_bool (Qabs sbis) delta then Converged xcur
  else
    let '(spre, scur) :=
      if Qlt_bool delta (Qabs spre) && Qlt_bool (Qabs fcur) (Qabs fpre) then
        let stry :=
          if Qeq_bool xpre xblk then
            (* interpolate *)
            - fcur * (xcur - xpre) / (fcur - fpre)
          else
            (* extrapolate *)
            let dpre := (fpre - fcur) / (xpre - xcur) in
            let dblk := (fblk - fcur) / (xblk - xcur) in
            - fcur * (fblk * dblk - fpre * dpre) / (dblk * dpre * (fblk - fpre)) in
        if Qlt_bool (2 * Qabs stry) (Qmin (Qabs spre) (3 * Qabs sbis - delta))
        then (scur, stry)   (* good short step *)
        else (sbis, sbis)   (* bisect *)
      else (sbis, sbis) in
    let xpre := xcur in
    let fpre := fcur in
    let xcur :=
      if Qlt_bool delta (Qabs scur) then xcur + scur
      else xcur + (if Qlt_bool 0 sbis then delta else - delta) in
    match f xcur with
    | NaN => NanAt xcur
    | Num fc => next xpre xcur xblk fpre fc fblk spre scur
    end.

(** One pass of the [for (i = 0; i < iter; i++)] loop per unit of fuel:
    the bracket update and the swap, then [tail]. *)
Fixpoint loop (fuel : nat) (xpre xcur xblk fpre fcur fblk spre scur : Q)
    : outcome :=
  match fuel with
  | O => ConvErr xcur
  | S fuel' =>
      let bracket := negb (Qeq_bool fpre 0) && negb (Qeq_bool fcur 0)
                     && negb (Bool.eqb (signbit fpre) (signbit fcur)) in
      let xblk := if bracket then xpre else xblk in
      let fblk := if bracket then fpre else fblk in
      let spre := if bracket then xcur - xpre else spre in
      let scur := if bracket then xcur - xpre else scur in
      let swap := Qlt_bool (Qabs fblk) (Qabs fcur) in
      let xpre := if swap then xcur else xpre in
      let fpre := if swap then fcur else fpre in
      let xcur := if swap then xblk else xcur in
      let fcur := if swap then fblk else fcur in
      let xblk := if swap then xpre else xblk in
      let fblk := if swap then fpre else fblk in
      tail (loop fuel') xpre xcur xblk fpre fcur fblk spre scur
  end.

(** The point returned by a [CONVERGED] exit: a root of [f], or one end
    of a sign-change bracket of half-width below [delta]. *)
Definition accepted (x : Q) : Prop :=
  exists v, f x = Num v /\
    (v == 0 \/
     exists xb vb, f xb = Num vb /\ ~ vb == 0 /\ signbit v <> signbit vb
                   /\ Qabs ((xb - x) / 2) < (xtol + rtol * Qabs x) / 2).

Definition brentq_c (xa xb : Q) : outcome :=
  match f xa with
  | NaN => NanAt xa
  | Num fpre =>
      match f xb with
      | NaN => NanAt xb
      | Num fcur =>
          if Qeq_bool fpre 0 then Converged xa
          else if Qeq_bool fcur 0 then Converged xb
          else if Bool.eqb (signbit fpre) (signbit fcur) then SignErr
          else loop maxiter xa xb 0 fpre fcur 0 0 0
      end
  end.

(** [scipy.optimize.brentq(f, a, b)] with [disp=True]. *)
Definition brentq (a b : Q) : result Q :=
  match brentq_c a b with
  | Converged x => Ok x
  | SignErr => Err (ValueError "f(a) and f(b) must have different signs")
  | ConvErr _ => Err (RuntimeError "Failed to converge after 100 iterations")
  | NanAt _ => Err (ValueError "The function value is NaN; solver cannot continue.")
  end.

End Brentq.

End Brent.

(* ------------------------------------------------------------------ *)
(** ** [invert_family] (app, lines 71-79) *)

(** [g(t) = float(f(t) - E_target)] *)
Definition invert_g (f : Pchip.ppoly) (E_target t : Q) : fval :=
  match Pchip.call f t with
  | Num v => Num (v - E_target)
  | NaN => NaN
  end.

Definition invert_family (family_model : family_model) (E_target : Q)
    : result (Q * fval) :=
  let f := fm_interp family_model in
  t_star <- Brent.brentq (invert_g f E_target)
              (fm_tmin family_model) (fm_tmax family_model) ;;
  let E_pred := Pchip.call f t_star in
  Ok (t_star, E_pred).

(* ------------------------------------------------------------------ *)
(** ** [all_measured] (app, lines 146-149) *)

(** [(E, label, fam, t) for (label, fam, t, E) in phantoms] *)
Definition measured_of (p : phantom) : measured :=
  let '(label, fam, t, E) := p in (E, label, fam, t).

(** Python's [sorted(..., key=lambda x: x[0])] is stable: an insertion
    sort that puts a row before the first row with a key not smaller. *)
Fixpoint insert_by_E (m : measured) (l : list measured) : list measured :=
  match l with
  | [] => [m]
  | m' :: l' => if Qle_bool (mE m) (mE m') then m :: l else m' :: insert_by_E m l'
  end.

Definition all_measured (phantoms : list phantom) : list measured :=
  fold_right insert_by_E [] (map measured_of phantoms).

(* ------------------------------------------------------------------ *)
(** ** The result panel (app, lines 175-233) *)

Definition FAMILIES_ORDER : list string := ["EF50"; "EF30"; "EF10"]%string.

(** [families.get(fam)]: the dict in insertion order. *)
Fixpoint lookup (fam : string) (families : list (string * family_model))
    : option family_model :=
  match families with
  | [] => None
  | (f, d) :: rest => if String.eqb f fam then Some d else lookup fam rest
  end.

(** [[f for f in FAMILIES_ORDER if f in feasible]] *)
Definition feasible_sorted (feasible : list string) : list string :=
  filter (fun f => existsb (String.eqb f) feasible) FAMILIES_ORDER.

(** What the panel raises: [families[fam]] on a missing key, or an
    exception of [invert_family]. *)
Inductive ui_error := KeyError (key : string) | Raised (e : exn).

(** What the panel shows when nothing raises. *)
Inductive panel :=
  | Recipes (rs : list (string * (Q * fval)))
  | Recipe (fam : string) (t_star : Q) (E_pred : fval)
  | Not_covered (fam : option string) (lower upper : option measured).

(** The loop of lines 210-219: [families[fam]], then [invert_family]. *)
Fixpoint invert_all (families : list (string * family_model)) (fams : list string)
    (E_target : Q) : ui_error + list (string * (Q * fval)) :=
  match fams with
  | [] => inr []
  | fam :: rest =>
      match lookup fam families with
      | None => inl (KeyError fam)
      | Some d =>
          match invert_family d E_target with
          | Err e => inl (Raised e)
          | Ok r =>
              match invert_all families rest E_target with
              | inl e => inl e
              | inr rs => inr ((fam, r) :: rs)
              end
          end
      end
  end.

(** Auto-select mode (lines 207-233). *)
Definition auto_mode (families : list (string * family_model)) (all_measured : list measured)
    (E_target : Q) : ui_error + panel :=
  match feasible_sorted (feasible families E_target) with
  | [] => let '(lower, upper) := nearest_bounds all_measured E_target in
          inr (Not_covered None lower upper)
  | fs => match invert_all families fs E_target with
          | inl e => inl e
          | inr rs => inr (Recipes rs)
          end
  end.

(** Forced mode (lines 181-206). *)
Definition forced_mode (families : list (string * family_model)) (all_measured : list measured)
    (fam : string) (E_target : Q) : ui_error + panel :=
  match lookup fam families with
  | None => inl (KeyError fam)
  | Some d =>
      if Qle_bool (fm_Emin d) E_target && Qle_bool E_target (fm_Emax d) then
        match invert_family d E_target with
        | Ok (t_star, E_pred) => inr (Recipe fam t_star E_pred)
        | Err e => inl (Raised e)
        end
      else let '(lower, upper) := nearest_bounds all_measured E_target in
           inr (Not_covered (Some fam) lower upper)
  end.

(* ------------------------------------------------------------------ *)
(** ** The y-limits and curves of the plots *)

(** [E_meas.min()] on an empty array. *)
Definition empty_min_error : exn :=
  ValueError "zero-size array to reduction operation minimum which has no identity".

(** [make_plot], lines 101-103. *)
Definition app_ylim (E_meas : list Q) : result (Q * Q) :=
  match E_meas with
  | [] => Err empty_min_error
  | _ =>
      let ymin := list_min E_meas in
      let ymax := list_max E_meas in
      let pad := if Qlt_bool ymin ymax then (5 # 100) * (ymax - ymin) else 1 in
      Ok (ymin - pad, ymax + pad)
  end.

(** The script, lines 60-64. *)
Definition script_ylim (E_meas : list Q) : result (Q * Q) :=
  match E_meas with
  | [] => Err empty_min_error
  | _ =>
      let ymin := list_min E_meas in
      let ymax := list_max E_meas in
      let pad := (5 # 100) * (ymax - ymin) in
      Ok (ymin - pad, ymax + pad)
  end.

(** [make_plot], lines 117-122: the families that get a curve. *)
Definition app_plotted (families : list (string * family_model)) : list string :=
  filter (fun fam => match lookup fam families with
                     | Some d => negb (Nat.ltb (List.length (fm_t d)) 2)
                     | None => false
                     end) FAMILIES_ORDER.

(* ------------------------------------------------------------------ *)
(** ** Shapes of measured data *)

(** Measured values listed in the order of increasing concentration. *)
Fixpoint nondecreasing (l : list Q) : bool :=
  match l with
  | a :: ((b :: _) as rest) => Qle_bool a b && nondecreasing rest
  | _ => true
  end.

Fixpoint nonincreasing (l : list Q) : bool :=
  match l with
  | a :: ((b :: _) as rest) => Qle_bool b a && nonincreasing rest
  | _ => true
  end.

Fixpoint strictly_decreasing (l : list Q) : bool :=
  match l with
  | a :: ((b :: _) as rest) => Qlt_bool b a && strictly_decreasing rest
  | _ => true
  end.

(* ------------------------------------------------------------------ *)
(** ** Sample data *)

(** The secant slopes [mk] of [Pchip.find_derivatives]. *)
Definition slopes (x y : list Q) : list Q :=
  map (fun '(dy, h) => dy / h) (combine (Pchip.diff y) (Pchip.diff x)).

(** The family of the spec's scenario: [(0%, 100)] and [(50%, 20)]. *)
Definition phantoms_F : list phantom :=
  [("F_0T", "F", 0, 100); ("F_50T", "F", 50, 20)]%string.

Definition models_F := build_family_models phantoms_F.

Definition fams_F : list (string * family_model) :=
  match models_F with Ok fams => fams | Err _ => [] end.

(** Family F and a second family G measured at a single concentration. *)
Definition phantoms_FG : list phantom :=
  phantoms_F ++ [("G_10T", "G", 10, 30)]%string.

(** The same family as a single group, and its model. *)
Definition group_F : group :=
  {| g_t := [0; 50]; g_E := [100; 20]; g_labels := ["F_0T"%string; "F_50T"%string] |}.

Definition empty_model : family_model :=
  {| fm_t := []; fm_E := []; fm_labels := [];
     fm_interp := {| Pchip.pp_x := []; Pchip.pp_c := [] |};
     fm_tmin := 0; fm_tmax := 0; fm_Emin := 0; fm_Emax := 0 |}.

Definition model_of (g : group) : family_model :=
  match build_family g with Ok d => d | Err _ => empty_model end.

Definition model_F : family_model := model_of group_F.

(** A family whose values are monotone but not strictly: a plateau
    [50, 50] followed by a drop to [40]. *)
Definition group_plateau : group :=
  {| g_t := [0; 10; 20]; g_E := [50; 50; 40]; g_labels := ["P_0T"%string; "P_10T"%string; "P_20T"%string] |}.

Definition model_plateau : family_model := model_of group_plateau.

(** A family whose modulus rises and falls again: [50, 100, 50]. *)
Definition group_hump : group :=
  {| g_t := [0; 10; 20]; g_E := [50; 100; 50]; g_labels := ["H_0T"%string; "H_10T"%string; "H_20T"%string] |}.

Definition model_hump : family_model := model_of group_hump.

(** The scenario's family under the name EF10, which the app lists. *)
Definition phantoms_EF10 : list phantom :=
  [("EF10_0T", "EF10", 0, 100); ("EF10_50T", "EF10", 50, 20)]%string.

Definition fams_EF10 : list (string * family_model) :=
  match build_family_models phantoms_EF10 with Ok fams => fams | Err _ => [] end.

(** What auto mode shows for the target 60 on that table. *)
Definition recipes_EF10 : list (string * (Q * fval)) :=
  match auto_mode fams_EF10 (all_measured phantoms_EF10) 60 with
  | inr (Recipes rs) => rs
  | _ => []
  end.

(* ================================================================== *)
(** * Sanity checks on concrete inputs *)

Example decompose_ex1 : decompose_label "A10_12_5T" = Ok ("A10"%string, 125 # 10).
Proof. reflexivity. Qed.
Example decompose_ex2 : decompose_label "A10_12.5T" = Ok ("A10"%string, 125 # 10).
Proof. reflexivity. Qed.
Example script_ex1 : script_decompose_label "A10_12_5T" = Ok ("A10"%string, 12).
Proof. reflexivity. Qed.

Example models_F_call :
  match models_F with
  | Ok [(_, d)] =>
      match Pchip.call (fm_interp d) 25, invert_family d 60 with
      | Num v, Ok (t, Num e) => v == 60 /\ t == 25 /\ e == 60
      | _, _ => False
      end
  | _ => False
  end.
Proof. vm_compute. repeat split; reflexivity. Qed.

(* ================================================================== *)
(** * Facts *)

(** ** Booleans on rationals *)

Lemma Qlt_bool_iff (a b : Q) : Qlt_bool a b = true <-> a < b.
Proof.
  unfold Qlt_bool. rewrite negb_true_iff.
  split; intro H.
  - apply Qnot_le_lt. intro H'. apply Qle_bool_iff in H'. congruence.
  - destruct (Qle_bool b a) eqn:E; [|reflexivity].
    apply Qle_bool_iff in E. exfalso. apply (Qlt_not_le a b); assumption.
Qed.
Lemma sq_nonneg (a : Q) : 0 <= a * a.
Proof.
  destruct (Qlt_le_dec a 0) as [H|H].
  - setoid_replace (a * a) with ((-a) * (-a)) by ring.
    apply Qmult_le_0_compat; lra.
  - apply Qmult_le_0_compat; lra.
Qed.

Lemma mul_le_l (w x y : Q) : 0 <= w -> x <= y -> w * x <= w * y.
Proof.
  intros Hw Hxy. rewrite (Qmult_comm w x), (Qmult_comm w y).
  apply Qmult_le_compat_r; assumption.
Qed.

Lemma core_nonneg (h s t m a b : Q) :
  0 <= s -> s <= t -> t <= h ->
  0 <= a -> a <= 3 * m -> 0 <= b -> b <= 3 * m ->
  0 <= a * (h*h - 2*h*(s+t) + (t*t+t*s+s*s)) + b * ((t*t+t*s+s*s) - h*(s+t))
       + m * (3*h*(s+t) - 2*(t*t+t*s+s*s)).
Proof.
  intros Hs Hst Hth Ha Ham Hb Hbm.
  set (A := h*h - 2*h*(s+t) + (t*t+t*s+s*s)).
  set (B := (t*t+t*s+s*s) - h*(s+t)).
  set (C := 3*h*(s+t) - 2*(t*t+t*s+s*s)).
  assert (HC : 0 <= C).
  { unfold C. setoid_replace (3*h*(s+t) - 2*(t*t+t*s+s*s))
      with (2*t*(h-t) + 2*s*(h-s) + s*(h-t) + t*(h-s)) by ring. nra. }
  assert (HCA : 0 <= C + 3*A).
  { unfold C, A. setoid_replace (3*h*(s+t) - 2*(t*t+t*s+s*s) + 3*(h*h - 2*h*(s+t) + (t*t+t*s+s*s)))
      with ((h-s)*(h-s) + (h-s)*(h-t) + (h-t)*(h-t)) by ring. nra. }
  assert (HCB : 0 <= C + 3*B).
  { unfold C, B. setoid_replace (3*h*(s+t) - 2*(t*t+t*s+s*s) + 3*((t*t+t*s+s*s) - h*(s+t)))
      with (t*t+t*s+s*s) by ring. nra. }
  assert (HCAB : 0 <= C + 3*A + 3*B).
  { unfold C, A, B.
    setoid_replace (3*h*(s+t) - 2*(t*t+t*s+s*s) + 3*(h*h - 2*h*(s+t) + (t*t+t*s+s*s)) + 3*((t*t+t*s+s*s) - h*(s+t)))
      with (3*((h-(s+t))*(h-(s+t))) + (t-s)*(t-s)) by ring.
    assert (0 <= (h-(s+t))*(h-(s+t))) by apply sq_nonneg.
    assert (0 <= (t-s)*(t-s)) by apply sq_nonneg. lra. }
  assert (Hm : 0 <= m) by lra.
  destruct (Qeq_dec m 0) as [Hm0|Hm0].
  - assert (Ha0 : a == 0) by lra. assert (Hb0 : b == 0) by lra.
    rewrite Ha0, Hb0, Hm0. lra.
  - assert (Hmp : 0 < m) by (apply Qle_lteq in Hm; destruct Hm; [assumption| exfalso; apply Hm0; symmetry; assumption]).
    set (M := 3*m).
    assert (Hid : M*M*(a*A + b*B + m*C) ==
      m * ((M-a)*(M-b)*C + a*(M-b)*(C+3*A) + (M-a)*b*(C+3*B) + a*b*(C+3*A+3*B))).
    { unfold M. ring. }
    assert (HS : 0 <= (M-a)*(M-b)*C + a*(M-b)*(C+3*A) + (M-a)*b*(C+3*B) + a*b*(C+3*A+3*B)).
    { assert (0 <= M - a) by (unfold M; lra). assert (0 <= M - b) by (unfold M; lra).
      assert (0 <= (M-a)*(M-b)*C) by (repeat apply Qmult_le_0_compat; assumption).
      assert (0 <= a*(M-b)*(C+3*A)) by (repeat apply Qmult_le_0_compat; assumption).
      assert (0 <= (M-a)*b*(C+3*B)) by (repeat apply Qmult_le_0_compat; assumption).
      assert (0 <= a*b*(C+3*A+3*B)) by (repeat apply Qmult_le_0_compat; assumption).
      lra. }
    assert (HMM : 0 < M*M) by (unfold M; nra).
    nra.
Qed.

Lemma core_pos (h s t m a b : Q) :
  0 <= s -> s < t -> t <= h -> 0 < m ->
  0 <= a -> a <= 3 * m -> 0 <= b -> b <= 3 * m ->
  0 < a * (h*h - 2*h*(s+t) + (t*t+t*s+s*s)) + b * ((t*t+t*s+s*s) - h*(s+t))
       + m * (3*h*(s+t) - 2*(t*t+t*s+s*s)).
Proof.
  intros Hs Hst Hth Hm Ha Ham Hb Hbm.
  set (A := h*h - 2*h*(s+t) + (t*t+t*s+s*s)).
  set (B := (t*t+t*s+s*s) - h*(s+t)).
  set (C := 3*h*(s+t) - 2*(t*t+t*s+s*s)).
  assert (HC : 0 < C).
  { unfold C. setoid_replace (3*h*(s+t) - 2*(t*t+t*s+s*s))
      with (2*t*(h-t) + 2*s*(h-s) + s*(h-t) + t*(h-s)) by ring.
    assert (0 < t*(h-s)) by (apply Qmult_lt_0_compat; lra).
    assert (0 <= 2*t*(h-t)) by (repeat apply Qmult_le_0_compat; lra).
    assert (0 <= 2*s*(h-s)) by (repeat apply Qmult_le_0_compat; lra).
    assert (0 <= s*(h-t)) by (repeat apply Qmult_le_0_compat; lra).
    lra. }
  assert (HCA : 0 < C + 3*A).
  { unfold C, A. setoid_replace (3*h*(s+t) - 2*(t*t+t*s+s*s) + 3*(h*h - 2*h*(s+t) + (t*t+t*s+s*s)))
      with ((h-s)*(h-s) + (h-s)*(h-t) + (h-t)*(h-t)) by ring.
    assert (0 < (h-s)*(h-s)) by (apply Qmult_lt_0_compat; lra).
    assert (0 <= (h-s)*(h-t)) by (apply Qmult_le_0_compat; lra).
    assert (0 <= (h-t)*(h-t)) by apply sq_nonneg.
    lra. }
  assert (HCB : 0 < C + 3*B).
  { unfold C, B. setoid_replace (3*h*(s+t) - 2*(t*t+t*s+s*s) + 3*((t*t+t*s+s*s) - h*(s+t)))
      with (t*t+t*s+s*s) by ring.
    assert (0 < t*t) by (apply Qmult_lt_0_compat; lra).
    assert (0 <= t*s) by (apply Qmult_le_0_compat; lra).
    assert (0 <= s*s) by apply sq_nonneg.
    lra. }
  assert (HCAB : 0 < C + 3*A + 3*B).
  { unfold C, A, B.
    setoid_replace (3*h*(s+t) - 2*(t*t+t*s+s*s) + 3*(h*h - 2*h*(s+t) + (t*t+t*s+s*s)) + 3*((t*t+t*s+s*s) - h*(s+t)))
      with (3*((h-(s+t))*(h-(s+t))) + (t-s)*(t-s)) by ring.
    assert (0 <= (h-(s+t))*(h-(s+t))) by apply sq_nonneg.
    assert (0 < (t-s)*(t-s)) by (apply Qmult_lt_0_compat; lra). lra. }
  set (M := 3*m).
  set (k := Qmin (Qmin C (C+3*A)) (Qmin (C+3*B) (C+3*A+3*B))).
  assert (Hk : 0 < k).
  { unfold k. repeat apply Q.min_glb_lt; assumption. }
  assert (Hk1 : k <= C) by (unfold k; eapply Qle_trans; [apply Q.le_min_l | apply Q.le_min_l]).
  assert (Hk2 : k <= C + 3*A) by (unfold k; eapply Qle_trans; [apply Q.le_min_l | apply Q.le_min_r]).
  assert (Hk3 : k <= C + 3*B) by (unfold k; eapply Qle_trans; [apply Q.le_min_r | apply Q.le_min_l]).
  assert (Hk4 : k <= C + 3*A + 3*B) by (unfold k; eapply Qle_trans; [apply Q.le_min_r | apply Q.le_min_r]).
  assert (HMa : 0 <= M - a) by (unfold M; lra).
  assert (HMb : 0 <= M - b) by (unfold M; lra).
  assert (T1 : (M-a)*(M-b)*k <= (M-a)*(M-b)*C)
    by (apply mul_le_l; [apply Qmult_le_0_compat; assumption | assumption]).
  assert (T2 : a*(M-b)*k <= a*(M-b)*(C+3*A))
    by (apply mul_le_l; [apply Qmult_le_0_compat; assumption | assumption]).
  assert (T3 : (M-a)*b*k <= (M-a)*b*(C+3*B))
    by (apply mul_le_l; [apply Qmult_le_0_compat; assumption | assumption]).
  assert (T4 : a*b*k <= a*b*(C+3*A+3*B))
    by (apply mul_le_l; [apply Qmult_le_0_compat; assumption | assumption]).
  assert (Hsum : (M-a)*(M-b)*k + a*(M-b)*k + (M-a)*b*k + a*b*k == M*M*k) by ring.
  assert (HMM : 0 < M*M*k) by (unfold M; repeat apply Qmult_lt_0_compat; lra).
  assert (Hid : M*M*(a*A + b*B + m*C) ==
    m * ((M-a)*(M-b)*C + a*(M-b)*(C+3*A) + (M-a)*b*(C+3*B) + a*b*(C+3*A+3*B))).
  { unfold M. ring. }
  assert (HS : 0 < (M-a)*(M-b)*C + a*(M-b)*(C+3*A) + (M-a)*b*(C+3*B) + a*b*(C+3*A+3*B)) by lra.
  assert (HmS : 0 < m * ((M-a)*(M-b)*C + a*(M-b)*(C+3*A) + (M-a)*b*(C+3*B) + a*b*(C+3*A+3*B)))
    by (apply Qmult_lt_0_compat; assumption).
  assert (HM2 : 0 < M*M) by (unfold M; apply Qmult_lt_0_compat; lra).
  nra.
Qed.

Lemma piece_diff (x0 x1 y0 y1 d0 d1 s t : Q) : x0 < x1 ->
  let h := x1 - x0 in let m := (y1 - y0) / h in
  Pchip.evaluate_poly1 t (Pchip.hermite_piece x0 x1 y0 y1 d0 d1)
  - Pchip.evaluate_poly1 s (Pchip.hermite_piece x0 x1 y0 y1 d0 d1)
  == (t - s) * (d0 * (h*h - 2*h*(s+t) + (t*t+t*s+s*s)) + d1 * ((t*t+t*s+s*s) - h*(s+t))
       + m * (3*h*(s+t) - 2*(t*t+t*s+s*s))) / (h*h).
Proof.
  intros Hx h m. unfold Pchip.evaluate_poly1, Pchip.hermite_piece, m, h.
  field. intro H. lra.
Qed.

(** A Hermite piece whose end derivatives lie in [[0, 3m]], [m] the
    secant slope, is non-decreasing on its interval. *)
Lemma piece_mono_inc (x0 x1 y0 y1 d0 d1 s t : Q) :
  x0 < x1 ->
  0 <= d0 -> d0 <= 3 * ((y1 - y0) / (x1 - x0)) ->
  0 <= d1 -> d1 <= 3 * ((y1 - y0) / (x1 - x0)) ->
  0 <= s -> s <= t -> t <= x1 - x0 ->
  Pchip.evaluate_poly1 s (Pchip.hermite_piece x0 x1 y0 y1 d0 d1)
  <= Pchip.evaluate_poly1 t (Pchip.hermite_piece x0 x1 y0 y1 d0 d1).
Proof.
  intros Hx Ha Ham Hb Hbm Hs Hst Ht.
  pose proof (piece_diff x0 x1 y0 y1 d0 d1 s t Hx) as Hd. cbv zeta in Hd.
  pose proof (core_nonneg (x1 - x0) s t ((y1 - y0) / (x1 - x0)) d0 d1
                Hs Hst Ht Ha Ham Hb Hbm) as HE.
  assert (Hh : 0 < (x1 - x0) * (x1 - x0)) by (apply Qmult_lt_0_compat; lra).
  assert (0 <= (t - s) * (d0 * ((x1 - x0) * (x1 - x0) - 2 * (x1 - x0) * (s + t) + (t * t + t * s + s * s)) +
      d1 * (t * t + t * s + s * s - (x1 - x0) * (s + t)) +
      (y1 - y0) / (x1 - x0) * (3 * (x1 - x0) * (s + t) - 2 * (t * t + t * s + s * s))) / ((x1 - x0) * (x1 - x0))).
  { apply Qle_shift_div_l; [assumption|]. rewrite Qmult_0_l.
    apply Qmult_le_0_compat; lra. }
  lra.
Qed.

(** ... and increasing when the secant slope is positive. *)
Lemma piece_strict_inc (x0 x1 y0 y1 d0 d1 s t : Q) :
  x0 < x1 -> 0 < (y1 - y0) / (x1 - x0) ->
  0 <= d0 -> d0 <= 3 * ((y1 - y0) / (x1 - x0)) ->
  0 <= d1 -> d1 <= 3 * ((y1 - y0) / (x1 - x0)) ->
  0 <= s -> s < t -> t <= x1 - x0 ->
  Pchip.evaluate_poly1 s (Pchip.hermite_piece x0 x1 y0 y1 d0 d1)
  < Pchip.evaluate_poly1 t (Pchip.hermite_piece x0 x1 y0 y1 d0 d1).
Proof.
  intros Hx Hm Ha Ham Hb Hbm Hs Hst Ht.
  pose proof (piece_diff x0 x1 y0 y1 d0 d1 s t Hx) as Hd. cbv zeta in Hd.
  pose proof (core_pos (x1 - x0) s t ((y1 - y0) / (x1 - x0)) d0 d1
                Hs Hst Ht Hm Ha Ham Hb Hbm) as HE.
  assert (Hh : 0 < (x1 - x0) * (x1 - x0)) by (apply Qmult_lt_0_compat; lra).
  assert (0 < (t - s) * (d0 * ((x1 - x0) * (x1 - x0) - 2 * (x1 - x0) * (s + t) + (t * t + t * s + s * s)) +
      d1 * (t * t + t * s + s * s - (x1 - x0) * (s + t)) +
      (y1 - y0) / (x1 - x0) * (3 * (x1 - x0) * (s + t) - 2 * (t * t + t * s + s * s))) / ((x1 - x0) * (x1 - x0))).
  { apply Qlt_shift_div_l; [assumption|]. rewrite Qmult_0_l.
    apply Qmult_lt_0_compat; lra. }
  lra.
Qed.

Lemma piece_neg (x0 x1 y0 y1 d0 d1 s : Q) : x0 < x1 ->
  Pchip.evaluate_poly1 s (Pchip.hermite_piece x0 x1 (- y0) (- y1) (- d0) (- d1))
  == - Pchip.evaluate_poly1 s (Pchip.hermite_piece x0 x1 y0 y1 d0 d1).
Proof.
  intros Hx. unfold Pchip.evaluate_poly1, Pchip.hermite_piece. field. lra.
Qed.

Lemma slope_neg (x0 x1 y0 y1 : Q) : x0 < x1 ->
  (- y1 - - y0) / (x1 - x0) == - ((y1 - y0) / (x1 - x0)).
Proof. intros Hx. field. lra. Qed.

(** Mirror images for pieces with end derivatives in [[3m, 0]]. *)
Lemma piece_mono_dec (x0 x1 y0 y1 d0 d1 s t : Q) :
  x0 < x1 ->
  d0 <= 0 -> 3 * ((y1 - y0) / (x1 - x0)) <= d0 ->
  d1 <= 0 -> 3 * ((y1 - y0) / (x1 - x0)) <= d1 ->
  0 <= s -> s <= t -> t <= x1 - x0 ->
  Pchip.evaluate_poly1 t (Pchip.hermite_piece x0 x1 y0 y1 d0 d1)
  <= Pchip.evaluate_poly1 s (Pchip.hermite_piece x0 x1 y0 y1 d0 d1).
Proof.
  intros Hx Ha Ham Hb Hbm Hs Hst Ht.
  pose proof (slope_neg x0 x1 y0 y1 Hx) as Hsl.
  pose proof (piece_mono_inc x0 x1 (- y0) (- y1) (- d0) (- d1) s t Hx) as H.
  rewrite !piece_neg in H by assumption. rewrite Hsl in H.
  assert (- Pchip.evaluate_poly1 s (Pchip.hermite_piece x0 x1 y0 y1 d0 d1) <=
          - Pchip.evaluate_poly1 t (Pchip.hermite_piece x0 x1 y0 y1 d0 d1))
    by (apply H; lra).
  lra.
Qed.

Lemma piece_strict_dec (x0 x1 y0 y1 d0 d1 s t : Q) :
  x0 < x1 -> (y1 - y0) / (x1 - x0) < 0 ->
  d0 <= 0 -> 3 * ((y1 - y0) / (x1 - x0)) <= d0 ->
  d1 <= 0 -> 3 * ((y1 - y0) / (x1 - x0)) <= d1 ->
  0 <= s -> s < t -> t <= x1 - x0 ->
  Pchip.evaluate_poly1 t (Pchip.hermite_piece x0 x1 y0 y1 d0 d1)
  < Pchip.evaluate_poly1 s (Pchip.hermite_piece x0 x1 y0 y1 d0 d1).
Proof.
  intros Hx Hm Ha Ham Hb Hbm Hs Hst Ht.
  pose proof (slope_neg x0 x1 y0 y1 Hx) as Hsl.
  pose proof (piece_strict_inc x0 x1 (- y0) (- y1) (- d0) (- d1) s t Hx) as H.
  rewrite !piece_neg in H by assumption. rewrite Hsl in H.
  assert (- Pchip.evaluate_poly1 s (Pchip.hermite_piece x0 x1 y0 y1 d0 d1) <
          - Pchip.evaluate_poly1 t (Pchip.hermite_piece x0 x1 y0 y1 d0 d1))
    by (apply H; lra).
  lra.
Qed.

(** ** PCHIP derivative bounds *)

Lemma sign_pos (q : Q) : 0 < q -> Pchip.sign q = 1%Z.
Proof.
  intros H. unfold Pchip.sign. apply Qlt_bool_iff in H. rewrite H. reflexivity.
Qed.

Lemma sign_neg (q : Q) : q < 0 -> Pchip.sign q = (-1)%Z.
Proof.
  intros H. unfold Pchip.sign.
  destruct (Qlt_bool 0 q) eqn:E.
  - apply Qlt_bool_iff in E. lra.
  - apply Qlt_bool_iff in H. rewrite H. reflexivity.
Qed.

Lemma sign_zero (q : Q) : q == 0 -> Pchip.sign q = 0%Z.
Proof.
  intros H. unfold Pchip.sign.
  destruct (Qlt_bool 0 q) eqn:E; [apply Qlt_bool_iff in E; lra|].
  destruct (Qlt_bool q 0) eqn:E'; [apply Qlt_bool_iff in E'; lra|].
  reflexivity.
Qed.

Lemma sign_cases (q : Q) :
  (0 < q /\ Pchip.sign q = 1%Z) \/ (q < 0 /\ Pchip.sign q = (-1)%Z)
  \/ (q == 0 /\ Pchip.sign q = 0%Z).
Proof.
  destruct (Q_dec 0 q) as [[H|H]|H].
  - left. split; [assumption|]. apply sign_pos; assumption.
  - right; left. split; [assumption|]. apply sign_neg; assumption.
  - right; right. split; [lra|]. apply sign_zero. lra.
Qed.

Lemma Qeq_bool_false (a b : Q) : Qeq_bool a b = false -> ~ a == b.
Proof. intros H E. apply Qeq_bool_iff in E. congruence. Qed.

Ltac sign_case q :=
  let H := fresh "Hs" in
  let E := fresh "Es" in
  destruct (sign_cases q) as [[H E]|[[H E]|[H E]]]; rewrite ?E.

(** [_edge_case] for non-decreasing slopes stays in [[0, 3 m0]]. *)
Lemma edge_case_inc (h0 h1 m0 m1 : Q) :
  0 < h0 -> 0 < h1 -> 0 <= m0 -> 0 <= m1 ->
  0 <= Pchip.edge_case h0 h1 m0 m1 /\ Pchip.edge_case h0 h1 m0 m1 <= 3 * m0.
Proof.
  intros H0 H1 Hm0 Hm1. unfold Pchip.edge_case.
  set (d := ((2 * h0 + h1) * m0 - h0 * m1) / (h0 + h1)).
  assert (Hd : d <= 2 * m0).
  { unfold d. apply Qle_shift_div_r; [lra|].
    assert (0 <= h0 * m1) by (apply Qmult_le_0_compat; lra).
    assert (0 <= h1 * m0) by (apply Qmult_le_0_compat; lra). nra. }
  sign_case d; sign_case m0; simpl; try lra;
    destruct (_ && _); lra.
Qed.

(** ... and for non-increasing slopes in [[3 m0, 0]]. *)
Lemma edge_case_dec (h0 h1 m0 m1 : Q) :
  0 < h0 -> 0 < h1 -> m0 <= 0 -> m1 <= 0 ->
  Pchip.edge_case h0 h1 m0 m1 <= 0 /\ 3 * m0 <= Pchip.edge_case h0 h1 m0 m1.
Proof.
  intros H0 H1 Hm0 Hm1. unfold Pchip.edge_case.
  set (d := ((2 * h0 + h1) * m0 - h0 * m1) / (h0 + h1)).
  assert (Hd : 2 * m0 <= d).
  { unfold d. apply Qle_shift_div_l; [lra|].
    assert (0 <= h0 * (- m1)) by (apply Qmult_le_0_compat; lra).
    assert (0 <= h1 * (- m0)) by (apply Qmult_le_0_compat; lra). nra. }
  sign_case d; sign_case m0; simpl; try lra;
    destruct (_ && _); lra.
Qed.

Lemma whmean_eq (h0 h1 m0 m1 : Q) :
  0 < h0 -> 0 < h1 -> ~ m0 == 0 -> ~ m1 == 0 ->
  ~ (2 * h1 + h0) * m1 + (h1 + 2 * h0) * m0 == 0 ->
  1 / (((2 * h1 + h0) / m0 + (h1 + 2 * h0) / m1) / ((2 * h1 + h0) + (h1 + 2 * h0)))
  == ((2 * h1 + h0) + (h1 + 2 * h0)) * m0 * m1
     / ((2 * h1 + h0) * m1 + (h1 + 2 * h0) * m0).
Proof.
  intros H0 H1 Hm0 Hm1 HD. field.
  repeat split; try assumption. lra.
Qed.

Lemma hm_bounds (h0 h1 m0 m1 : Q) :
  0 < h0 -> 0 < h1 -> 0 < m0 -> 0 < m1 ->
  let F := ((2 * h1 + h0) + (h1 + 2 * h0)) * m0 * m1
           / ((2 * h1 + h0) * m1 + (h1 + 2 * h0) * m0) in
  0 <= F /\ F <= 3 * m0 /\ F <= 3 * m1.
Proof.
  intros H0 H1 P0 P1 F. unfold F.
  assert (HD : 0 < (2 * h1 + h0) * m1 + (h1 + 2 * h0) * m0).
  { assert (0 < (2 * h1 + h0) * m1) by (apply Qmult_lt_0_compat; lra).
    assert (0 < (h1 + 2 * h0) * m0) by (apply Qmult_lt_0_compat; lra). lra. }
  assert (Hpp : 0 < m0 * m1) by (apply Qmult_lt_0_compat; assumption).
  repeat split.
  - apply Qle_shift_div_l; [assumption|]. rewrite Qmult_0_l.
    apply Qmult_le_0_compat; [apply Qmult_le_0_compat|]; lra.
  - apply Qle_shift_div_r; [assumption|].
    assert (0 <= h1 * m0 * m1) by (apply Qmult_le_0_compat; [apply Qmult_le_0_compat|]; lra).
    assert (0 <= h0 * m0 * m0) by (apply Qmult_le_0_compat; [apply Qmult_le_0_compat|]; lra).
    assert (0 <= h1 * m0 * m0) by (apply Qmult_le_0_compat; [apply Qmult_le_0_compat|]; lra).
    nra.
  - apply Qle_shift_div_r; [assumption|].
    assert (0 <= h0 * m0 * m1) by (apply Qmult_le_0_compat; [apply Qmult_le_0_compat|]; lra).
    assert (0 <= h0 * m1 * m1) by (apply Qmult_le_0_compat; [apply Qmult_le_0_compat|]; lra).
    assert (0 <= h1 * m1 * m1) by (apply Qmult_le_0_compat; [apply Qmult_le_0_compat|]; lra).
    nra.
Qed.

(** The interior harmonic-mean derivative between two non-negative
    slopes lies in [[0, 3 min(m0, m1)]]. *)
Lemma interior_deriv_inc (h0 h1 m0 m1 : Q) :
  0 < h0 -> 0 < h1 -> 0 <= m0 -> 0 <= m1 ->
  0 <= Pchip.interior_deriv h0 h1 m0 m1
  /\ Pchip.interior_deriv h0 h1 m0 m1 <= 3 * m0
  /\ Pchip.interior_deriv h0 h1 m0 m1 <= 3 * m1.
Proof.
  intros H0 H1 Hm0 Hm1. unfold Pchip.interior_deriv.
  destruct (Qeq_dec m0 0) as [E0|E0].
  { replace (Qeq_bool m0 0) with true by (symmetry; apply Qeq_bool_iff; assumption).
    rewrite !orb_true_r. lra. }
  destruct (Qeq_dec m1 0) as [E1|E1].
  { replace (Qeq_bool m1 0) with true by (symmetry; apply Qeq_bool_iff; assumption).
    rewrite orb_true_r. simpl. lra. }
  assert (P0 : 0 < m0) by (apply Qle_lteq in Hm0; destruct Hm0; [assumption|]; exfalso; apply E0; symmetry; assumption).
  assert (P1 : 0 < m1) by (apply Qle_lteq in Hm1; destruct Hm1; [assumption|]; exfalso; apply E1; symmetry; assumption).
  rewrite (sign_pos m0 P0), (sign_pos m1 P1).
  replace (Qeq_bool m0 0) with false by (symmetry; apply not_true_iff_false; intro E; apply Qeq_bool_iff in E; tauto).
  replace (Qeq_bool m1 0) with false by (symmetry; apply not_true_iff_false; intro E; apply Qeq_bool_iff in E; tauto).
  simpl.
  assert (HD : 0 < (2 * h1 + h0) * m1 + (h1 + 2 * h0) * m0).
  { assert (0 < (2 * h1 + h0) * m1) by (apply Qmult_lt_0_compat; lra).
    assert (0 < (h1 + 2 * h0) * m0) by (apply Qmult_lt_0_compat; lra). lra. }
  rewrite whmean_eq by (try assumption; lra).
  apply hm_bounds; assumption.
Qed.

(** ... and between two non-positive slopes in [[3 max(m0, m1), 0]]. *)
Lemma interior_deriv_dec (h0 h1 m0 m1 : Q) :
  0 < h0 -> 0 < h1 -> m0 <= 0 -> m1 <= 0 ->
  Pchip.interior_deriv h0 h1 m0 m1 <= 0
  /\ 3 * m0 <= Pchip.interior_deriv h0 h1 m0 m1
  /\ 3 * m1 <= Pchip.interior_deriv h0 h1 m0 m1.
Proof.
  intros H0 H1 Hm0 Hm1. unfold Pchip.interior_deriv.
  destruct (Qeq_dec m0 0) as [E0|E0].
  { replace (Qeq_bool m0 0) with true by (symmetry; apply Qeq_bool_iff; assumption).
    rewrite !orb_true_r. lra. }
  destruct (Qeq_dec m1 0) as [E1|E1].
  { replace (Qeq_bool m1 0) with true by (symmetry; apply Qeq_bool_iff; assumption).
    rewrite orb_true_r. simpl. lra. }
  assert (P0 : m0 < 0) by (apply Qle_lteq in Hm0; destruct Hm0; [assumption|]; exfalso; apply E0; assumption).
  assert (P1 : m1 < 0) by (apply Qle_lteq in Hm1; destruct Hm1; [assumption|]; exfalso; apply E1; assumption).
  rewrite (sign_neg m0 P0), (sign_neg m1 P1).
  replace (Qeq_bool m0 0) with false by (symmetry; apply not_true_iff_false; intro E; apply Qeq_bool_iff in E; tauto).
  replace (Qeq_bool m1 0) with false by (symmetry; apply not_true_iff_false; intro E; apply Qeq_bool_iff in E; tauto).
  simpl.
  assert (HD : (2 * h1 + h0) * m1 + (h1 + 2 * h0) * m0 < 0).
  { assert (0 < (2 * h1 + h0) * (- m1)) by (apply Qmult_lt_0_compat; lra).
    assert (0 < (h1 + 2 * h0) * (- m0)) by (apply Qmult_lt_0_compat; lra). lra. }
  rewrite whmean_eq by (try assumption; lra).
  setoid_replace (((2 * h1 + h0) + (h1 + 2 * h0)) * m0 * m1
                  / ((2 * h1 + h0) * m1 + (h1 + 2 * h0) * m0))
    with (- (((2 * h1 + h0) + (h1 + 2 * h0)) * (- m0) * (- m1)
             / ((2 * h1 + h0) * (- m1) + (h1 + 2 * h0) * (- m0))))
    by (field; lra).
  destruct (hm_bounds h0 h1 (- m0) (- m1)) as (B1 & B2 & B3); try lra.
Qed.

(** ** Lists indexed by position *)

Lemma last_nth (l : list Q) (a : Q) :
  l <> [] -> last l a = nth (List.length l - 1) l 0.
Proof.
  induction l as [|b l IH]; intros Hne; [congruence|].
  destruct l as [|c l].
  - reflexivity.
  - change (last (b :: c :: l) a) with (last (c :: l) a). rewrite IH by discriminate.
    simpl List.length. replace (S (S (List.length l)) - 1)%nat with (S (List.length l)) by lia.
    replace (S (List.length l) - 1)%nat with (List.length l) by lia. reflexivity.
Qed.

(** Adjacent pairs of a list satisfying a boolean test. *)
Section Chain.
Variable R : Q -> Q -> Prop.
Variable Rb : Q -> Q -> bool.
Hypothesis Rb_R : forall a b, Rb a b = true -> R a b.
Hypothesis R_trans : forall a b c, R a b -> R b c -> R a c.

Fixpoint chain (l : list Q) : bool :=
  match l with
  | a :: ((b :: _) as rest) => Rb a b && chain rest
  | _ => true
  end.

Lemma chain_adjacent (l : list Q) :
  chain l = true -> forall i, (S i < List.length l)%nat -> R (nth i l 0) (nth (S i) l 0).
Proof.
  induction l as [|a l IH]; intros H i Hi; simpl in Hi; [lia|].
  destruct l as [|b l]; simpl in Hi; [lia|].
  simpl in H. apply andb_true_iff in H as [Hab Hrest].
  destruct i as [|i].
  - apply Rb_R. assumption.
  - apply (IH Hrest i). simpl. lia.
Qed.

Lemma chain_nth (l : list Q) :
  chain l = true -> forall i j, (i < j < List.length l)%nat -> R (nth i l 0) (nth j l 0).
Proof.
  intros H i j [Hij Hj]. induction j as [|j IH]; [lia|].
  destruct (Nat.eq_dec i j) as [->|Hne].
  - apply chain_adjacent; assumption.
  - apply R_trans with (nth j l 0).
    + apply IH; lia.
    + apply chain_adjacent; [assumption|lia].
Qed.

End Chain.

Lemma strictly_increasing_chain (l : list Q) :
  Pchip.strictly_increasing l = chain Qlt_bool l.
Proof. induction l as [|a [|b l] IH]; simpl; try reflexivity; try (rewrite <- IH; reflexivity). Qed.

Lemma nondecreasing_chain (l : list Q) : nondecreasing l = chain Qle_bool l.
Proof. induction l as [|a [|b l] IH]; simpl; try reflexivity; try (rewrite <- IH; reflexivity). Qed.

Lemma nonincreasing_chain (l : list Q) :
  nonincreasing l = chain (fun a b => Qle_bool b a) l.
Proof. induction l as [|a [|b l] IH]; simpl; try reflexivity; try (rewrite <- IH; reflexivity). Qed.

Lemma strictly_decreasing_chain (l : list Q) :
  strictly_decreasing l = chain (fun a b => Qlt_bool b a) l.
Proof. induction l as [|a [|b l] IH]; simpl; try reflexivity; try (rewrite <- IH; reflexivity). Qed.

Lemma sinc_nth (l : list Q) : Pchip.strictly_increasing l = true ->
  forall i j, (i < j < List.length l)%nat -> nth i l 0 < nth j l 0.
Proof.
  rewrite strictly_increasing_chain. intros H.
  apply (chain_nth Qlt Qlt_bool (fun a b => proj1 (Qlt_bool_iff a b)) Qlt_trans l H).
Qed.

Lemma sinc_adj (l : list Q) : Pchip.strictly_increasing l = true ->
  forall i, (S i < List.length l)%nat -> nth i l 0 < nth (S i) l 0.
Proof. intros H i Hi. apply sinc_nth; [assumption|lia]. Qed.

Lemma sinc_le_nth (l : list Q) : Pchip.strictly_increasing l = true ->
  forall i j, (i <= j < List.length l)%nat -> nth i l 0 <= nth j l 0.
Proof.
  intros H i j Hij. destruct (Nat.eq_dec i j) as [->|Hne]; [apply Qle_refl|].
  apply Qlt_le_weak, sinc_nth; [assumption|lia].
Qed.

(** Strictly increasing positions recover their index order. *)
Lemma sinc_index_le (l : list Q) : Pchip.strictly_increasing l = true ->
  forall i j, (i < List.length l)%nat -> (j < List.length l)%nat ->
  nth i l 0 <= nth j l 0 -> (i <= j)%nat.
Proof.
  intros H i j Hi Hj Hle. destruct (Nat.le_gt_cases i j) as [|Hlt]; [assumption|].
  exfalso. pose proof (sinc_nth l H j i ltac:(lia)). lra.
Qed.

Lemma sinc_index_lt (l : list Q) : Pchip.strictly_increasing l = true ->
  forall i j, (i < List.length l)%nat -> (j < List.length l)%nat ->
  nth i l 0 < nth j l 0 -> (i < j)%nat.
Proof.
  intros H i j Hi Hj Hlt. destruct (Nat.lt_ge_cases i j) as [|Hle]; [assumption|].
  exfalso. pose proof (sinc_le_nth l H j i ltac:(lia)). lra.
Qed.

Lemma nondec_le_nth (l : list Q) : nondecreasing l = true ->
  forall i j, (i <= j < List.length l)%nat -> nth i l 0 <= nth j l 0.
Proof.
  intros H i j Hij. destruct (Nat.eq_dec i j) as [->|Hne]; [apply Qle_refl|].
  rewrite nondecreasing_chain in H.
  apply (chain_nth Qle Qle_bool (fun a b => proj1 (Qle_bool_iff a b)) Qle_trans l H); lia.
Qed.

Lemma noninc_le_nth (l : list Q) : nonincreasing l = true ->
  forall i j, (i <= j < List.length l)%nat -> nth j l 0 <= nth i l 0.
Proof.
  intros H i j Hij. destruct (Nat.eq_dec i j) as [->|Hne]; [apply Qle_refl|].
  rewrite nonincreasing_chain in H.
  apply (chain_nth (fun a b => b <= a) (fun a b => Qle_bool b a)
           (fun a b => proj1 (Qle_bool_iff b a))
           (fun a b c H1 H2 => Qle_trans c b a H2 H1) l H); lia.
Qed.

Lemma sdec_nth (l : list Q) : strictly_decreasing l = true ->
  forall i j, (i < j < List.length l)%nat -> nth j l 0 < nth i l 0.
Proof.
  intros H i j Hij. rewrite strictly_decreasing_chain in H.
  apply (chain_nth (fun a b => b < a) (fun a b => Qlt_bool b a)
           (fun a b => proj1 (Qlt_bool_iff b a))
           (fun a b c H1 H2 => Qlt_trans c b a H2 H1) l H); lia.
Qed.

Lemma sinc_nondec (l : list Q) : Pchip.strictly_increasing l = true -> nondecreasing l = true.
Proof.
  induction l as [|a [|b l] IH]; simpl; try reflexivity.
  intros H. apply andb_true_iff in H as [H1 H2]. apply andb_true_iff. split.
  - apply Qle_bool_iff. apply Qlt_le_weak. apply Qlt_bool_iff. assumption.
  - apply IH. assumption.
Qed.

Lemma sdec_noninc (l : list Q) : strictly_decreasing l = true -> nonincreasing l = true.
Proof.
  induction l as [|a [|b l] IH]; simpl; try reflexivity.
  intros H. apply andb_true_iff in H as [H1 H2]. apply andb_true_iff. split.
  - apply Qle_bool_iff. apply Qlt_le_weak. apply Qlt_bool_iff. assumption.
  - apply IH. assumption.
Qed.

(** ** Structure of the PCHIP construction *)

Lemma length_diff (l : list Q) : List.length (Pchip.diff l) = (List.length l - 1)%nat.
Proof.
  induction l as [|a [|b l] IH]; simpl; try reflexivity.
  simpl in IH. rewrite IH. lia.
Qed.

Lemma nth_diff (l : list Q) (i : nat) : (S i < List.length l)%nat ->
  nth i (Pchip.diff l) 0 = nth (S i) l 0 - nth i l 0.
Proof.
  revert i. induction l as [|a [|b l] IH]; intros i Hi; simpl in Hi; try lia.
  destruct i as [|i]; [reflexivity|].
  change (nth (S i) (Pchip.diff (a :: b :: l)) 0) with (nth i (Pchip.diff (b :: l)) 0).
  rewrite IH by (simpl; lia). reflexivity.
Qed.

Lemma nth_map_in {A B : Type} (F : A -> B) (l : list A) (d : B) (d0 : A) (i : nat) :
  (i < List.length l)%nat -> nth i (map F l) d = F (nth i l d0).
Proof.
  revert i. induction l as [|a l IH]; intros i Hi; simpl in Hi; [lia|].
  destruct i; simpl; [reflexivity|]. apply IH. lia.
Qed.

Lemma length_slopes (x y : list Q) : List.length y = List.length x ->
  List.length (slopes x y) = (List.length x - 1)%nat.
Proof.
  intros H. unfold slopes. rewrite length_map, length_combine, !length_diff, H. lia.
Qed.

Lemma nth_slopes (x y : list Q) (i : nat) :
  List.length y = List.length x -> (S i < List.length x)%nat ->
  nth i (slopes x y) 0
  = (nth (S i) y 0 - nth i y 0) / (nth (S i) x 0 - nth i x 0).
Proof.
  intros H Hi. unfold slopes.
  rewrite (nth_map_in _ _ _ (0, 0))
    by (rewrite length_combine, !length_diff; lia).
  rewrite combine_nth by (rewrite !length_diff; lia).
  rewrite !nth_diff by lia. reflexivity.
Qed.

Lemma length_interior_derivs (hk mk : list Q) : List.length mk = List.length hk ->
  List.length (Pchip.interior_derivs hk mk) = (List.length hk - 1)%nat.
Proof.
  revert mk. induction hk as [|h0 [|h1 hk] IH]; intros mk Hl;
    destruct mk as [|m0 [|m1 mk]]; simpl in *; try lia; try reflexivity.
  rewrite (IH (m1 :: mk)) by (simpl; lia). simpl. lia.
Qed.

Lemma nth_interior_derivs (hk mk : list Q) (i : nat) :
  List.length mk = List.length hk -> (S i < List.length hk)%nat ->
  nth i (Pchip.interior_derivs hk mk) 0
  = Pchip.interior_deriv (nth i hk 0) (nth (S i) hk 0) (nth i mk 0) (nth (S i) mk 0).
Proof.
  revert mk i. induction hk as [|h0 [|h1 hk] IH]; intros mk i Hl Hi;
    destruct mk as [|m0 [|m1 mk]]; simpl in *; try lia.
  destruct i as [|i]; [reflexivity|].
  rewrite (IH (m1 :: mk) i) by (simpl; lia). reflexivity.
Qed.

Section Derivatives.
Variables x y : list Q.
Hypothesis Hlen : List.length y = List.length x.
Hypothesis H2 : (2 <= List.length x)%nat.
Hypothesis Hinc : Pchip.strictly_increasing x = true.

Local Abbreviation n := (List.length x).
Local Abbreviation ds := (Pchip.find_derivatives x y).
Local Abbreviation h i := (nth i (Pchip.diff x) 0).
Local Abbreviation m i := (nth i (slopes x y) 0).

Lemma h_pos (i : nat) : (S i < n)%nat -> 0 < h i.
Proof. intros Hi. rewrite nth_diff by lia. pose proof (sinc_adj x Hinc i Hi). lra. Qed.

Lemma find_derivatives_two : n = 2%nat -> ds = [m 0; m 0].
Proof.
  intros Hn. unfold Pchip.find_derivatives. fold (slopes x y).
  destruct x as [|a [|b [|c l]]]; simpl in Hn; try lia.
  destruct y as [|a' [|b' [|c' l']]]; simpl in Hlen; try lia.
  reflexivity.
Qed.

Lemma find_derivatives_many : (3 <= n)%nat ->
  ds = Pchip.edge_case (h 0) (h 1) (m 0) (m 1)
       :: Pchip.interior_derivs (Pchip.diff x) (slopes x y)
       ++ [Pchip.edge_case (h (n - 2)) (h (n - 3)) (m (n - 2)) (m (n - 3))].
Proof.
  intros Hn. unfold Pchip.find_derivatives. fold (slopes x y).
  assert (Lh : List.length (Pchip.diff x) = (n - 1)%nat) by apply length_diff.
  assert (Lm : List.length (slopes x y) = (n - 1)%nat) by (apply length_slopes; assumption).
  destruct (Pchip.diff x) as [|h0 [|h1 hk]] eqn:Eh; simpl in Lh; try lia.
  destruct (slopes x y) as [|m0 [|m1 mk]] eqn:Em; simpl in Lm; try lia.
  f_equal. f_equal.
  rewrite <- Eh, <- Em.
  assert (R1 : forall l : list Q, List.length l = (n - 1)%nat ->
             exists a b r, rev l = a :: b :: r
                      /\ a = nth (n - 2) l 0 /\ b = nth (n - 3) l 0).
  { intros l Hl. destruct (rev l) as [|a [|b r]] eqn:Er;
      assert (Lr : List.length (rev l) = (n - 1)%nat) by (rewrite length_rev; assumption);
      rewrite Er in Lr; simpl in Lr; try lia.
    exists a, b, r. split; [reflexivity|].
    split.
    - change a with (nth 0 (a :: b :: r) 0). rewrite <- Er, rev_nth by lia.
      f_equal. lia.
    - change b with (nth 1 (a :: b :: r) 0). rewrite <- Er, rev_nth by lia.
      f_equal. lia. }
  destruct (R1 (Pchip.diff x)) as (a & b & r & Er & -> & ->); [rewrite Eh; simpl; lia|].
  destruct (R1 (slopes x y)) as (a' & b' & r' & Er' & -> & ->); [rewrite Em; simpl; lia|].
  rewrite Er, Er'. reflexivity.
Qed.

Lemma length_find_derivatives : List.length ds = n.
Proof.
  destruct (Nat.eq_dec n 2) as [E|E].
  - rewrite find_derivatives_two by assumption. simpl. lia.
  - rewrite find_derivatives_many by lia. simpl. rewrite length_app.
    rewrite length_interior_derivs.
    + rewrite length_diff. simpl. lia.
    + rewrite length_slopes, length_diff by assumption. reflexivity.
Qed.

Lemma nth_find_derivatives (k : nat) : (3 <= n)%nat -> (k < n)%nat ->
  nth k ds 0 =
  (if Nat.eq_dec k 0 then Pchip.edge_case (h 0) (h 1) (m 0) (m 1)
   else if Nat.eq_dec k (n - 1) then
     Pchip.edge_case (h (n - 2)) (h (n - 3)) (m (n - 2)) (m (n - 3))
   else Pchip.interior_deriv (h (k - 1)) (h k) (m (k - 1)) (m k)).
Proof.
  intros Hn Hk. rewrite find_derivatives_many by assumption.
  assert (LI : List.length (Pchip.interior_derivs (Pchip.diff x) (slopes x y)) = (n - 2)%nat).
  { rewrite length_interior_derivs; rewrite ?length_slopes, ?length_diff by assumption; lia. }
  destruct k as [|k]; [reflexivity|].
  simpl nth. destruct (Nat.eq_dec (S k) 0) as [|_]; [lia|].
  destruct (Nat.eq_dec (S k) (n - 1)) as [E|E].
  - rewrite app_nth2 by lia. rewrite LI. replace (k - (n - 2))%nat with 0%nat by lia.
    reflexivity.
  - rewrite app_nth1 by lia. rewrite nth_interior_derivs.
    + simpl. rewrite Nat.sub_0_r. reflexivity.
    + rewrite length_slopes, length_diff by assumption. reflexivity.
    + rewrite length_diff. lia.
Qed.

Section Bounds.
Variable Sg : Q -> Prop.
Variable P : Q -> Q -> Prop.
Hypothesis Hedge : forall h0 h1 m0 m1, 0 < h0 -> 0 < h1 -> Sg m0 -> Sg m1 ->
  P (Pchip.edge_case h0 h1 m0 m1) m0.
Hypothesis Hint : forall h0 h1 m0 m1, 0 < h0 -> 0 < h1 -> Sg m0 -> Sg m1 ->
  P (Pchip.interior_deriv h0 h1 m0 m1) m0 /\ P (Pchip.interior_deriv h0 h1 m0 m1) m1.
Hypothesis Hself : forall q, Sg q -> P q q.
Hypothesis Hslopes : forall i, (S i < n)%nat -> Sg (m i).

(** On every interval both end derivatives are bounded by that interval's
    secant slope. *)
Lemma deriv_bounds (i : nat) : (S i < n)%nat ->
  P (nth i ds 0) (m i) /\ P (nth (S i) ds 0) (m i).
Proof.
  intros Hi. destruct (Nat.eq_dec n 2) as [E|E].
  - rewrite find_derivatives_two by assumption.
    assert (i = 0%nat) by lia. subst i. simpl.
    split; apply Hself, Hslopes; lia.
  - rewrite !nth_find_derivatives by lia.
    split.
    + destruct (Nat.eq_dec i 0) as [->|Ei].
      * apply Hedge; try apply h_pos; try apply Hslopes; lia.
      * destruct (Nat.eq_dec i (n - 1)) as [|_]; [lia|].
        apply Hint; try apply h_pos; try apply Hslopes; lia.
    + destruct (Nat.eq_dec (S i) 0) as [|_]; [lia|].
      destruct (Nat.eq_dec (S i) (n - 1)) as [Ei|Ei].
      * replace (n - 2)%nat with i by lia.
        apply Hedge; try apply h_pos; try apply Hslopes; lia.
      * replace (S i - 1)%nat with i by lia.
        apply Hint; try apply h_pos; try apply Hslopes; lia.
Qed.

End Bounds.

End Derivatives.

Lemma nth_hermite_coeffs (x y d : list Q) (i : nat) :
  (S i < List.length x)%nat -> List.length y = List.length x -> List.length d = List.length x ->
  nth i (Pchip.hermite_coeffs x y d) (0, 0, 0, 0)
  = Pchip.hermite_piece (nth i x 0) (nth (S i) x 0) (nth i y 0) (nth (S i) y 0)
                        (nth i d 0) (nth (S i) d 0).
Proof.
  revert y d i. induction x as [|x0 x IH]; intros y d i Hi Hy Hd; simpl in Hi; [lia|].
  destruct x as [|x1 x]; simpl in Hi; [lia|].
  destruct y as [|y0 [|y1 y]]; simpl in Hy; try lia.
  destruct d as [|d0 [|d1 d]]; simpl in Hd; try lia.
  destruct i as [|i]; [reflexivity|].
  simpl Pchip.hermite_coeffs. simpl nth.
  apply (IH (y1 :: y) (d1 :: d) i); simpl; lia.
Qed.

Lemma sinc_cons (a : Q) (l : list Q) :
  Pchip.strictly_increasing (a :: l) = true -> Pchip.strictly_increasing l = true.
Proof. destruct l as [|b l]; simpl; [reflexivity|]. intros H. apply andb_true_iff in H. tauto. Qed.

Lemma scan_spec (l : list Q) (v : Q) (i0 : nat) :
  Pchip.strictly_increasing l = true -> (2 <= List.length l)%nat -> nth 0 l 0 <= v ->
  exists j, Pchip.scan v l i0 = (i0 + j)%nat /\ (S j < List.length l)%nat
            /\ nth j l 0 <= v
            /\ (v < nth (S j) l 0 \/ S (S j) = List.length l).
Proof.
  revert i0. induction l as [|a l IH]; intros i0 Hs Hl Hv; simpl in Hl; [lia|].
  destruct l as [|b [|c r]]; simpl in Hl; try lia.
  - exists 0%nat. simpl. repeat split; try lia; try assumption.
  - assert (Es : Pchip.scan v (a :: b :: c :: r) i0
                 = if Qlt_bool v b then i0 else Pchip.scan v (b :: c :: r) (S i0))
      by reflexivity.
    rewrite Es. destruct (Qlt_bool v b) eqn:Eb.
    + exists 0%nat. apply Qlt_bool_iff in Eb. repeat split; try lia; try assumption.
      left. assumption.
    + assert (Hb : b <= v).
      { apply Qnot_lt_le. intros Hlt. apply Qlt_bool_iff in Hlt. congruence. }
      destruct (IH (S i0) (sinc_cons a _ Hs) ltac:(simpl; lia) Hb)
        as (j & E & Hj & Hxj & Hnext).
      exists (S j). rewrite E. split; [lia|]. split; [simpl in *; lia|].
      split; [exact Hxj|].
      destruct Hnext as [Hn|Hn]; [left; exact Hn|right; simpl in Hn |- *; lia].
Qed.

Section Interval.
Variable xs : list Q.
Hypothesis Hinc : Pchip.strictly_increasing xs = true.
Hypothesis H2 : (2 <= List.length xs)%nat.

Local Abbreviation n := (List.length xs).
Local Abbreviation xi i := (nth i xs 0).

Lemma find_interval_None (v : Q) :
  Pchip.find_interval xs v = None <-> v < xi 0 \/ xi (n - 1) < v.
Proof.
  unfold Pchip.find_interval. destruct xs as [|a l] eqn:Ex; [simpl in H2; lia|].
  rewrite last_nth by discriminate.
  set (b := nth (List.length (a :: l) - 1) (a :: l) 0).
  change (nth 0 (a :: l) 0) with a.
  destruct (Qle_bool a v) eqn:Ea; destruct (Qle_bool v b) eqn:Eb; simpl negb; cbv iota.
  - apply Qle_bool_iff in Ea, Eb.
    split; [destruct (Qeq_bool v b); discriminate|]. intros [H|H]; lra.
  - split; intros _; [right|reflexivity].
    apply Qnot_le_lt. intros Hle. apply Qle_bool_iff in Hle. congruence.
  - split; intros _; [left|reflexivity].
    apply Qnot_le_lt. intros Hle. apply Qle_bool_iff in Hle. congruence.
  - split; intros _; [left|reflexivity].
    apply Qnot_le_lt. intros Hle. apply Qle_bool_iff in Hle. congruence.
Qed.

Lemma find_interval_Some (v : Q) (i : nat) :
  Pchip.find_interval xs v = Some i ->
  (S i < n)%nat /\ xi i <= v /\ v <= xi (S i) /\ (v < xi (S i) \/ S (S i) = n).
Proof.
  pose proof Hinc as Hs. pose proof H2 as Hl.
  unfold Pchip.find_interval. destruct xs as [|a l] eqn:Ex; [simpl in H2; lia|].
  rewrite last_nth by discriminate.
  set (b := nth (List.length (a :: l) - 1) (a :: l) 0).
  destruct (Qle_bool a v) eqn:Ea; [|discriminate].
  destruct (Qle_bool v b) eqn:Eb; [|discriminate].
  apply Qle_bool_iff in Ea, Eb.
  destruct (scan_spec (a :: l) v 0 Hs ltac:(simpl in *; lia) Ea)
    as (j & E & Hj & Hxj & Hnext).
  rewrite E. simpl negb. cbv iota.
  destruct (Qeq_bool v b) eqn:Eq; intros H; injection H as <-.
  - apply Qeq_bool_iff in Eq.
    assert (Hk : S (List.length l - 1) = (List.length (a :: l) - 1)%nat)
      by (simpl in Hl |- *; lia).
    rewrite Hk. fold b.
    assert (Hp : nth (List.length l - 1) (a :: l) 0 <= b)
      by (apply sinc_le_nth; [assumption|simpl in Hl |- *; lia]).
    split; [simpl in Hl |- *; lia|]. split; [lra|]. split; [lra|].
    right. simpl in Hl |- *; lia.
  - simpl (0 + j)%nat.
    repeat split; try assumption.
    destruct Hnext as [Hn|Hn]; [lra|].
    replace (S j) with (List.length (a :: l) - 1)%nat by lia. assumption.
Qed.

Lemma find_interval_in (v : Q) :
  xi 0 <= v -> v <= xi (n - 1) -> exists i, Pchip.find_interval xs v = Some i.
Proof.
  intros Ha Hb. destruct (Pchip.find_interval xs v) as [i|] eqn:E; [exists i; reflexivity|].
  apply find_interval_None in E. lra.
Qed.

(** The interval index never decreases as the abscissa increases. *)
Lemma find_interval_mono (v w : Q) (i j : nat) :
  Pchip.find_interval xs v = Some i -> Pchip.find_interval xs w = Some j -> v <= w ->
  (i <= j)%nat.
Proof.
  intros Ei Ej Hvw.
  destruct (find_interval_Some v i Ei) as (Hi & Hvi & _).
  destruct (find_interval_Some w j Ej) as (Hj & _ & Hwj & Hlast).
  destruct (Nat.le_gt_cases i j) as [|Hlt]; [assumption|exfalso].
  assert (Hle : xi (S j) <= xi i) by (apply sinc_le_nth; [assumption|lia]).
  destruct Hlast as [Hlt'|Hl]; [lra|lia].
Qed.

End Interval.

(** Gluing monotone pieces that agree at the knots into a monotone
    function of the abscissa. *)
Section Glue.
Variable xs : list Q.
Hypothesis Hinc : Pchip.strictly_increasing xs = true.
Hypothesis H2 : (2 <= List.length xs)%nat.
Variable W : nat -> Q -> Q.
Variable z : nat -> Q.

Local Abbreviation n := (List.length xs).
Local Abbreviation xi i := (nth i xs 0).

Hypothesis Hw_mono : forall i s t, (S i < n)%nat -> xi i <= s -> s <= t -> t <= xi (S i) ->
  W i s <= W i t.
Hypothesis Hw_l : forall i, (S i < n)%nat -> W i (xi i) == z i.
Hypothesis Hw_r : forall i, (S i < n)%nat -> W i (xi (S i)) == z (S i).

Lemma glue_mono (v w : Q) (i j : nat) :
  (forall a b, (a <= b < n)%nat -> z a <= z b) ->
  Pchip.find_interval xs v = Some i -> Pchip.find_interval xs w = Some j -> v <= w ->
  W i v <= W j w.
Proof.
  intros Hz Ei Ej Hvw.
  pose proof (find_interval_mono xs Hinc H2 v w i j Ei Ej Hvw) as Hij.
  destruct (find_interval_Some xs Hinc H2 v i Ei) as (Hi & Hvi & Hvi1 & _).
  destruct (find_interval_Some xs Hinc H2 w j Ej) as (Hj & Hwj & Hwj1 & _).
  destruct (Nat.eq_dec i j) as [<-|Hne].
  - apply Hw_mono; assumption.
  - assert (A1 : W i v <= W i (xi (S i))) by (apply Hw_mono; [assumption|assumption|assumption|apply Qle_refl]).
    assert (A2 : W j (xi j) <= W j w) by (apply Hw_mono; [assumption|apply Qle_refl|assumption|assumption]).
    assert (A3 : z (S i) <= z j) by (apply Hz; lia).
    pose proof (Hw_l j Hj). pose proof (Hw_r i Hi). lra.
Qed.

Hypothesis Hw_strict : forall i s t, (S i < n)%nat -> xi i <= s -> s < t -> t <= xi (S i) ->
  W i s < W i t.

Lemma glue_strict (v w : Q) (i j : nat) :
  (forall a b, (a < b < n)%nat -> z a < z b) ->
  Pchip.find_interval xs v = Some i -> Pchip.find_interval xs w = Some j -> v < w ->
  W i v < W j w.
Proof.
  intros Hz Ei Ej Hvw.
  pose proof (find_interval_mono xs Hinc H2 v w i j Ei Ej (Qlt_le_weak _ _ Hvw)) as Hij.
  destruct (find_interval_Some xs Hinc H2 v i Ei) as (Hi & Hvi & Hvi1 & _).
  destruct (find_interval_Some xs Hinc H2 w j Ej) as (Hj & Hwj & Hwj1 & _).
  destruct (Nat.eq_dec i j) as [<-|Hne].
  - apply Hw_strict; assumption.
  - pose proof (Hw_l j Hj). pose proof (Hw_r i Hi).
    assert (Hz' : forall a b, (a <= b < n)%nat -> z a <= z b).
    { intros a b Hab. destruct (Nat.eq_dec a b) as [->|]; [apply Qle_refl|].
      apply Qlt_le_weak, Hz. lia. }
    assert (A3 : z (S i) <= z j) by (apply Hz'; lia).
    assert (A1 : W i v <= W i (xi (S i))) by (apply Hw_mono; [assumption|assumption|assumption|apply Qle_refl]).
    assert (A2 : W j (xi j) <= W j w) by (apply Hw_mono; [assumption|apply Qle_refl|assumption|assumption]).
    destruct (Qlt_le_dec v (xi (S i))) as [Hv|Hv].
    + assert (W i v < W i (xi (S i))) by (apply Hw_strict; [assumption|assumption|assumption|apply Qle_refl]).
      lra.
    + destruct (Qlt_le_dec (xi j) w) as [Hw|Hw].
      * assert (W j (xi j) < W j w) by (apply Hw_strict; [assumption|apply Qle_refl|assumption|assumption]).
        lra.
      * assert (Hsij : xi (S i) < xi j) by lra.
        assert (S i < j)%nat by (apply (sinc_index_lt xs Hinc); lia || assumption).
        assert (z (S i) < z j) by (apply Hz; lia).
        lra.
Qed.

End Glue.

Lemma pchip_ok (x y : list Q) (p : Pchip.ppoly) :
  Pchip.PchipInterpolator x y = Ok p ->
  (2 <= List.length x)%nat /\ List.length y = List.length x
  /\ Pchip.strictly_increasing x = true
  /\ Pchip.pp_x p = x
  /\ Pchip.pp_c p = Pchip.hermite_coeffs x y (Pchip.find_derivatives x y).
Proof.
  unfold Pchip.PchipInterpolator.
  destruct (Nat.ltb (List.length x) 2) eqn:E1; [discriminate|].
  destruct (Nat.eqb (List.length x) (List.length y)) eqn:E2; [|discriminate].
  destruct (Pchip.strictly_increasing x) eqn:E3; [|discriminate].
  simpl. intros H. injection H as <-.
  apply Nat.ltb_ge in E1. apply Nat.eqb_eq in E2.
  repeat split; auto.
Qed.

Lemma piece_left (x0 x1 y0 y1 d0 d1 : Q) : x0 < x1 ->
  Pchip.evaluate_poly1 (x0 - x0) (Pchip.hermite_piece x0 x1 y0 y1 d0 d1) == y0.
Proof. intros Hx. unfold Pchip.evaluate_poly1, Pchip.hermite_piece. field. lra. Qed.

Lemma piece_right (x0 x1 y0 y1 d0 d1 : Q) : x0 < x1 ->
  Pchip.evaluate_poly1 (x1 - x0) (Pchip.hermite_piece x0 x1 y0 y1 d0 d1) == y1.
Proof. intros Hx. unfold Pchip.evaluate_poly1, Pchip.hermite_piece. field. lra. Qed.

Section Interpolant.
Variables xs ys : list Q.
Variable p : Pchip.ppoly.
Hypothesis Hp : Pchip.PchipInterpolator xs ys = Ok p.

Local Abbreviation n := (List.length xs).
Local Abbreviation xi i := (nth i xs 0).
Local Abbreviation yi i := (nth i ys 0).
Local Abbreviation di i := (nth i (Pchip.find_derivatives xs ys) 0).
Local Abbreviation V i s :=
  (Pchip.evaluate_poly1 (s - xi i)
     (Pchip.hermite_piece (xi i) (xi (S i)) (yi i) (yi (S i)) (di i) (di (S i)))).

Let H2 : (2 <= n)%nat := proj1 (pchip_ok xs ys p Hp).
Let Hlen : List.length ys = n := proj1 (proj2 (pchip_ok xs ys p Hp)).
Let Hinc : Pchip.strictly_increasing xs = true := proj1 (proj2 (proj2 (pchip_ok xs ys p Hp))).
Let Hx : Pchip.pp_x p = xs := proj1 (proj2 (proj2 (proj2 (pchip_ok xs ys p Hp)))).
Let Hc : Pchip.pp_c p = Pchip.hermite_coeffs xs ys (Pchip.find_derivatives xs ys)
  := proj2 (proj2 (proj2 (proj2 (pchip_ok xs ys p Hp)))).

Lemma call_Some (v : Q) (i : nat) :
  Pchip.find_interval xs v = Some i -> Pchip.call p v = Num (V i v).
Proof.
  intros E.
  destruct (find_interval_Some xs Hinc H2 v i E) as (Hi & _).
  unfold Pchip.call. rewrite Hx, E, Hc.
  rewrite nth_hermite_coeffs; try reflexivity; try lia.
  apply length_find_derivatives; assumption.
Qed.

Lemma call_NaN (v : Q) : Pchip.call p v = NaN <-> v < xi 0 \/ xi (n - 1) < v.
Proof.
  rewrite <- find_interval_None by assumption.
  unfold Pchip.call. rewrite Hx.
  destruct (Pchip.find_interval xs v); split; intros H; congruence.
Qed.

Lemma call_Num (v a : Q) : Pchip.call p v = Num a ->
  exists i, Pchip.find_interval xs v = Some i /\ a = V i v.
Proof.
  destruct (Pchip.find_interval xs v) as [i|] eqn:E; intros H.
  - exists i. split; [reflexivity|]. rewrite (call_Some v i E) in H. congruence.
  - assert (Pchip.call p v = NaN) by (apply call_NaN, find_interval_None; assumption).
    congruence.
Qed.

Lemma call_in_domain (v : Q) : xi 0 <= v -> v <= xi (n - 1) ->
  exists a, Pchip.call p v = Num a.
Proof.
  intros Ha Hb. destruct (find_interval_in xs Hinc H2 v Ha Hb) as [i E].
  exists (V i v). apply call_Some. assumption.
Qed.

Lemma V_left (i : nat) : (S i < n)%nat -> V i (xi i) == yi i.
Proof. intros Hi. apply piece_left. apply sinc_adj; assumption. Qed.

Lemma V_right (i : nat) : (S i < n)%nat -> V i (xi (S i)) == yi (S i).
Proof. intros Hi. apply piece_right. apply sinc_adj; assumption. Qed.

(** The interpolant takes the measured value at every knot. *)
Lemma call_knot (k : nat) : (k < n)%nat ->
  exists a, Pchip.call p (xi k) = Num a /\ a == yi k.
Proof.
  intros Hk.
  assert (Hlo : xi 0 <= xi k) by (apply sinc_le_nth; [assumption|lia]).
  assert (Hhi : xi k <= xi (n - 1)) by (apply sinc_le_nth; [assumption|lia]).
  destruct (find_interval_in xs Hinc H2 (xi k) Hlo Hhi) as [i E].
  destruct (find_interval_Some xs Hinc H2 (xi k) i E) as (Hi & Hik & Hki & Hnext).
  exists (V i (xi k)). split; [apply call_Some; assumption|].
  assert (Hle : (i <= k)%nat) by (apply (sinc_index_le xs Hinc); assumption || lia).
  assert (Hkk : k = i \/ k = S i).
  { destruct Hnext as [Hlt|Hlast].
    - assert (k < S i)%nat by (apply (sinc_index_lt xs Hinc); assumption || lia). lia.
    - lia. }
  destruct Hkk as [Ek|Ek]; subst k; [apply V_left|apply V_right]; assumption.
Qed.

Lemma slope_eq (i : nat) : (S i < n)%nat ->
  nth i (slopes xs ys) 0 = (yi (S i) - yi i) / (xi (S i) - xi i).
Proof. intros Hi. apply nth_slopes; assumption. Qed.

Section Increasing.
Hypothesis Hmon : nondecreasing ys = true.

Lemma deriv_bounds_inc (i : nat) : (S i < n)%nat ->
  (0 <= di i /\ di i <= 3 * ((yi (S i) - yi i) / (xi (S i) - xi i)))
  /\ (0 <= di (S i) /\ di (S i) <= 3 * ((yi (S i) - yi i) / (xi (S i) - xi i))).
Proof.
  intros Hi. rewrite <- slope_eq by assumption.
  apply (deriv_bounds xs ys Hlen H2 Hinc (fun q => 0 <= q) (fun d q => 0 <= d /\ d <= 3 * q)).
  - intros. apply edge_case_inc; assumption.
  - intros h0 h1 m0 m1 A B C D. pose proof (interior_deriv_inc h0 h1 m0 m1 A B C D). tauto.
  - intros q Hq. lra.
  - intros j Hj. rewrite slope_eq by assumption.
    pose proof (sinc_adj xs Hinc j Hj).
    pose proof (nondec_le_nth ys Hmon j (S j) ltac:(lia)).
    apply Qle_shift_div_l; lra.
  - assumption.
Qed.

Lemma V_mono_inc (i : nat) (s t : Q) : (S i < n)%nat -> xi i <= s -> s <= t -> t <= xi (S i) ->
  V i s <= V i t.
Proof.
  intros Hi Hs Hst Ht. destruct (deriv_bounds_inc i Hi) as [[A B] [C D]].
  apply piece_mono_inc; try assumption; try lra.
  apply sinc_adj; assumption.
Qed.

Lemma interp_mono_inc (v w a b : Q) :
  Pchip.call p v = Num a -> Pchip.call p w = Num b -> v <= w -> a <= b.
Proof.
  intros Ea Eb Hvw.
  destruct (call_Num v a Ea) as (i & Ei & ->). destruct (call_Num w b Eb) as (j & Ej & ->).
  apply (glue_mono xs Hinc H2 (fun i s => V i s) (fun i => yi i)); try assumption.
  - intros. apply V_mono_inc; assumption.
  - intros. apply V_left. assumption.
  - intros. apply V_right. assumption.
  - intros. apply nondec_le_nth; [assumption|lia].
Qed.

Hypothesis Hsmon : Pchip.strictly_increasing ys = true.

Lemma V_strict_inc (i : nat) (s t : Q) : (S i < n)%nat -> xi i <= s -> s < t -> t <= xi (S i) ->
  V i s < V i t.
Proof.
  intros Hi Hs Hst Ht. destruct (deriv_bounds_inc i Hi) as [[A B] [C D]].
  pose proof (sinc_adj xs Hinc i Hi). pose proof (sinc_adj ys Hsmon i ltac:(lia)).
  apply piece_strict_inc; try assumption; try lra.
  apply Qlt_shift_div_l; lra.
Qed.

Lemma interp_strict_inc (v w a b : Q) :
  Pchip.call p v = Num a -> Pchip.call p w = Num b -> v < w -> a < b.
Proof.
  intros Ea Eb Hvw.
  destruct (call_Num v a Ea) as (i & Ei & ->). destruct (call_Num w b Eb) as (j & Ej & ->).
  apply (glue_strict xs Hinc H2 (fun i s => V i s) (fun i => yi i)); try assumption.
  - intros. apply V_mono_inc; assumption.
  - intros. apply V_left. assumption.
  - intros. apply V_right. assumption.
  - intros. apply V_strict_inc; assumption.
  - intros. apply sinc_nth; [assumption|lia].
Qed.

End Increasing.

Section Decreasing.
Hypothesis Hmon : nonincreasing ys = true.

Lemma deriv_bounds_dec (i : nat) : (S i < n)%nat ->
  (di i <= 0 /\ 3 * ((yi (S i) - yi i) / (xi (S i) - xi i)) <= di i)
  /\ (di (S i) <= 0 /\ 3 * ((yi (S i) - yi i) / (xi (S i) - xi i)) <= di (S i)).
Proof.
  intros Hi. rewrite <- slope_eq by assumption.
  apply (deriv_bounds xs ys Hlen H2 Hinc (fun q => q <= 0) (fun d q => d <= 0 /\ 3 * q <= d)).
  - intros. apply edge_case_dec; assumption.
  - intros h0 h1 m0 m1 A B C D. pose proof (interior_deriv_dec h0 h1 m0 m1 A B C D). tauto.
  - intros q Hq. lra.
  - intros j Hj. rewrite slope_eq by assumption.
    pose proof (sinc_adj xs Hinc j Hj).
    pose proof (noninc_le_nth ys Hmon j (S j) ltac:(lia)).
    apply Qle_shift_div_r; lra.
  - assumption.
Qed.

Lemma V_mono_dec (i : nat) (s t : Q) : (S i < n)%nat -> xi i <= s -> s <= t -> t <= xi (S i) ->
  V i t <= V i s.
Proof.
  intros Hi Hs Hst Ht. destruct (deriv_bounds_dec i Hi) as [[A B] [C D]].
  apply piece_mono_dec; try assumption; try lra.
  apply sinc_adj; assumption.
Qed.

Lemma interp_mono_dec (v w a b : Q) :
  Pchip.call p v = Num a -> Pchip.call p w = Num b -> v <= w -> b <= a.
Proof.
  intros Ea Eb Hvw.
  destruct (call_Num v a Ea) as (i & Ei & ->). destruct (call_Num w b Eb) as (j & Ej & ->).
  assert (- V i v <= - V j w); [|lra].
  apply (glue_mono xs Hinc H2 (fun i s => - V i s) (fun i => - yi i)); try assumption.
  - intros i' s t Hi' A B C. pose proof (V_mono_dec i' s t Hi' A B C). lra.
  - intros i' Hi'. pose proof (V_left i' Hi'). lra.
  - intros i' Hi'. pose proof (V_right i' Hi'). lra.
  - intros a' b' Hab. pose proof (noninc_le_nth ys Hmon a' b' ltac:(lia)). lra.
Qed.

Hypothesis Hsmon : strictly_decreasing ys = true.

Lemma V_strict_dec (i : nat) (s t : Q) : (S i < n)%nat -> xi i <= s -> s < t -> t <= xi (S i) ->
  V i t < V i s.
Proof.
  intros Hi Hs Hst Ht. destruct (deriv_bounds_dec i Hi) as [[A B] [C D]].
  pose proof (sinc_adj xs Hinc i Hi). pose proof (sdec_nth ys Hsmon i (S i) ltac:(lia)).
  apply piece_strict_dec; try assumption; try lra.
  apply Qlt_shift_div_r; lra.
Qed.

Lemma interp_strict_dec (v w a b : Q) :
  Pchip.call p v = Num a -> Pchip.call p w = Num b -> v < w -> b < a.
Proof.
  intros Ea Eb Hvw.
  destruct (call_Num v a Ea) as (i & Ei & ->). destruct (call_Num w b Eb) as (j & Ej & ->).
  assert (- V i v < - V j w); [|lra].
  apply (glue_strict xs Hinc H2 (fun i s => - V i s) (fun i => - yi i)); try assumption.
  - intros i' s t Hi' A B C. pose proof (V_mono_dec i' s t Hi' A B C). lra.
  - intros i' Hi'. pose proof (V_left i' Hi'). lra.
  - intros i' Hi'. pose proof (V_right i' Hi'). lra.
  - intros i' s t Hi' A B C. pose proof (V_strict_dec i' s t Hi' A B C). lra.
  - intros a' b' Hab. pose proof (sdec_nth ys Hsmon a' b' ltac:(lia)). lra.
Qed.

End Decreasing.

End Interpolant.

(* ------------------------------------------------------------------ *)
(** ** Every piece of a PCHIP interpolant is monotone, whatever the data *)

Lemma Qlt_bool_false_le (a b : Q) : Qlt_bool a b = false -> b <= a.
Proof.
  intros H. apply Qnot_lt_le. intros Hlt. apply Qlt_bool_iff in Hlt. congruence.
Qed.

(** [_edge_case] for a non-negative slope [m0] stays in [[0, 3 m0]],
    whatever the neighbouring slope [m1]. *)
Lemma edge_case_pos (h0 h1 m0 m1 : Q) :
  0 < h0 -> 0 < h1 -> 0 <= m0 ->
  0 <= Pchip.edge_case h0 h1 m0 m1 /\ Pchip.edge_case h0 h1 m0 m1 <= 3 * m0.
Proof.
  intros H0 H1 Hm0. unfold Pchip.edge_case.
  set (d := ((2 * h0 + h1) * m0 - h0 * m1) / (h0 + h1)).
  assert (Hd : 0 <= m1 -> d <= 2 * m0).
  { intros Hm1. unfold d. apply Qle_shift_div_r; [lra|].
    assert (0 <= h0 * m1) by (apply Qmult_le_0_compat; lra).
    assert (0 <= h1 * m0) by (apply Qmult_le_0_compat; lra). nra. }
  pose proof (Qle_Qabs d).
  destruct (Qlt_bool (3 * Qabs m0) (Qabs d)) eqn:Eq;
    [|apply Qlt_bool_false_le in Eq; rewrite (Qabs_pos m0) in Eq by lra];
    sign_case d; sign_case m0; sign_case m1; simpl; lra.
Qed.

(** ... and for a non-positive slope in [[3 m0, 0]]. *)
Lemma edge_case_neg (h0 h1 m0 m1 : Q) :
  0 < h0 -> 0 < h1 -> m0 <= 0 ->
  Pchip.edge_case h0 h1 m0 m1 <= 0 /\ 3 * m0 <= Pchip.edge_case h0 h1 m0 m1.
Proof.
  intros H0 H1 Hm0. unfold Pchip.edge_case.
  set (d := ((2 * h0 + h1) * m0 - h0 * m1) / (h0 + h1)).
  assert (Hd : m1 <= 0 -> 2 * m0 <= d).
  { intros Hm1. unfold d. apply Qle_shift_div_l; [lra|].
    assert (0 <= h0 * (- m1)) by (apply Qmult_le_0_compat; lra).
    assert (0 <= h1 * (- m0)) by (apply Qmult_le_0_compat; lra). nra. }
  pose proof (Qle_Qabs (- d)). rewrite Qabs_opp in H.
  destruct (Qlt_bool (3 * Qabs m0) (Qabs d)) eqn:Eq;
    [|apply Qlt_bool_false_le in Eq; rewrite (Qabs_neg m0) in Eq by lra];
    sign_case d; sign_case m0; sign_case m1; simpl; lra.
Qed.

(** The interior derivative at a knot lies in [[0, 3 m]] for a
    non-negative slope [m] on either side of the knot. *)
Lemma interior_deriv_pos (h0 h1 m0 m1 : Q) :
  0 < h0 -> 0 < h1 ->
  (0 <= m0 -> 0 <= Pchip.interior_deriv h0 h1 m0 m1
              /\ Pchip.interior_deriv h0 h1 m0 m1 <= 3 * m0)
  /\ (0 <= m1 -> 0 <= Pchip.interior_deriv h0 h1 m0 m1
              /\ Pchip.interior_deriv h0 h1 m0 m1 <= 3 * m1).
Proof.
  intros H0 H1. split; intros Hm.
  - destruct (Qlt_le_dec m1 0) as [Hn|Hn].
    + unfold Pchip.interior_deriv. rewrite (sign_neg m1 Hn).
      sign_case m0; simpl; lra.
    + pose proof (interior_deriv_inc h0 h1 m0 m1 H0 H1 Hm Hn). tauto.
  - destruct (Qlt_le_dec m0 0) as [Hn|Hn].
    + unfold Pchip.interior_deriv. rewrite (sign_neg m0 Hn).
      sign_case m1; simpl; lra.
    + pose proof (interior_deriv_inc h0 h1 m0 m1 H0 H1 Hn Hm). tauto.
Qed.

Lemma interior_deriv_neg (h0 h1 m0 m1 : Q) :
  0 < h0 -> 0 < h1 ->
  (m0 <= 0 -> Pchip.interior_deriv h0 h1 m0 m1 <= 0
              /\ 3 * m0 <= Pchip.interior_deriv h0 h1 m0 m1)
  /\ (m1 <= 0 -> Pchip.interior_deriv h0 h1 m0 m1 <= 0
              /\ 3 * m1 <= Pchip.interior_deriv h0 h1 m0 m1).
Proof.
  intros H0 H1. split; intros Hm.
  - destruct (Qlt_le_dec 0 m1) as [Hn|Hn].
    + unfold Pchip.interior_deriv. rewrite (sign_pos m1 Hn).
      sign_case m0; simpl; lra.
    + pose proof (interior_deriv_dec h0 h1 m0 m1 H0 H1 Hm Hn). tauto.
  - destruct (Qlt_le_dec 0 m0) as [Hn|Hn].
    + unfold Pchip.interior_deriv. rewrite (sign_pos m0 Hn).
      sign_case m1; simpl; lra.
    + pose proof (interior_deriv_dec h0 h1 m0 m1 H0 H1 Hn Hm). tauto.
Qed.

Section Range.
Variables xs ys : list Q.
Variable p : Pchip.ppoly.
Hypothesis Hp : Pchip.PchipInterpolator xs ys = Ok p.

Local Abbreviation n := (List.length xs).
Local Abbreviation xi i := (nth i xs 0).
Local Abbreviation yi i := (nth i ys 0).
Local Abbreviation di i := (nth i (Pchip.find_derivatives xs ys) 0).
Local Abbreviation hh i := (nth i (Pchip.diff xs) 0).
Local Abbreviation mm i := (nth i (slopes xs ys) 0).
Local Abbreviation V i s :=
  (Pchip.evaluate_poly1 (s - xi i)
     (Pchip.hermite_piece (xi i) (xi (S i)) (yi i) (yi (S i)) (di i) (di (S i)))).

Let H2 : (2 <= n)%nat := proj1 (pchip_ok xs ys p Hp).
Let Hlen : List.length ys = n := proj1 (proj2 (pchip_ok xs ys p Hp)).
Let Hinc : Pchip.strictly_increasing xs = true := proj1 (proj2 (proj2 (pchip_ok xs ys p Hp))).

(** On every interval, both end derivatives have the sign of the
    interval's secant slope and at most three times its size. *)
Lemma deriv_local (i : nat) : (S i < n)%nat ->
  (0 <= mm i -> (0 <= di i /\ di i <= 3 * mm i) /\ (0 <= di (S i) /\ di (S i) <= 3 * mm i))
  /\ (mm i <= 0 -> (di i <= 0 /\ 3 * mm i <= di i) /\ (di (S i) <= 0 /\ 3 * mm i <= di (S i))).
Proof.
  intros Hi.
  assert (Hh : forall j, (S j < n)%nat -> 0 < hh j) by (intros; apply (h_pos xs ys); assumption).
  destruct (Nat.eq_dec n 2) as [E|E].
  { rewrite find_derivatives_two by assumption.
    assert (i = 0%nat) by lia. subst i. simpl. split; intros; lra. }
  rewrite !nth_find_derivatives by (assumption || lia).
  destruct (Nat.eq_dec i 0) as [Ei|Ei];
    [|destruct (Nat.eq_dec i (n - 1)) as [|_]; [lia|]];
    (destruct (Nat.eq_dec (S i) 0) as [|_]; [lia|]);
    (destruct (Nat.eq_dec (S i) (n - 1)) as [Es|Es]);
    try (subst i; simpl);
    try (replace (n - 2)%nat with i by lia);
    try (replace (S i - 1)%nat with i by lia).
  - lia.
  - split; intros Hm.
    + split; [apply edge_case_pos|apply interior_deriv_pos]; try apply Hh; try lia; assumption.
    + split; [apply edge_case_neg|apply interior_deriv_neg]; try apply Hh; try lia; assumption.
  - split; intros Hm.
    + split; [apply interior_deriv_pos|apply edge_case_pos]; try apply Hh; try lia; assumption.
    + split; [apply interior_deriv_neg|apply edge_case_neg]; try apply Hh; try lia; assumption.
  - split; intros Hm.
    + split; apply interior_deriv_pos; try apply Hh; try lia; assumption.
    + split; apply interior_deriv_neg; try apply Hh; try lia; assumption.
Qed.

(** On every interval the piece stays between the two measured values at
    its ends. *)
Lemma V_between (i : nat) (s : Q) : (S i < n)%nat -> xi i <= s -> s <= xi (S i) ->
  (yi i <= V i s /\ V i s <= yi (S i)) \/ (yi (S i) <= V i s /\ V i s <= yi i).
Proof.
  intros Hi Hs Hs'.
  pose proof (sinc_adj xs Hinc i Hi) as Hx.
  pose proof (V_left xs ys p Hp i Hi) as VL. pose proof (V_right xs ys p Hp i Hi) as VR.
  pose proof (slope_eq xs ys p Hp i Hi) as Em.
  destruct (deriv_local i Hi) as [Dp Dn].
  destruct (Qlt_le_dec (mm i) 0) as [Hm|Hm].
  - right. destruct (Dn ltac:(lra)) as [[A B] [C D]]. rewrite Em in B, D.
    pose proof (piece_mono_dec (xi i) (xi (S i)) (yi i) (yi (S i)) (di i) (di (S i))
                  (xi i - xi i) (s - xi i) Hx A B C D ltac:(lra) ltac:(lra) ltac:(lra)).
    pose proof (piece_mono_dec (xi i) (xi (S i)) (yi i) (yi (S i)) (di i) (di (S i))
                  (s - xi i) (xi (S i) - xi i) Hx A B C D ltac:(lra) ltac:(lra) ltac:(lra)).
    lra.
  - left. destruct (Dp Hm) as [[A B] [C D]]. rewrite Em in B, D.
    pose proof (piece_mono_inc (xi i) (xi (S i)) (yi i) (yi (S i)) (di i) (di (S i))
                  (xi i - xi i) (s - xi i) Hx A B C D ltac:(lra) ltac:(lra) ltac:(lra)).
    pose proof (piece_mono_inc (xi i) (xi (S i)) (yi i) (yi (S i)) (di i) (di (S i))
                  (s - xi i) (xi (S i) - xi i) Hx A B C D ltac:(lra) ltac:(lra) ltac:(lra)).
    lra.
Qed.

Lemma interp_between (v a : Q) : Pchip.call p v = Num a ->
  exists i, (S i < n)%nat /\ xi i <= v /\ v <= xi (S i)
    /\ ((yi i <= a /\ a <= yi (S i)) \/ (yi (S i) <= a /\ a <= yi i)).
Proof.
  intros Ea. destruct (call_Num xs ys p Hp v a Ea) as (i & Ei & ->).
  destruct (find_interval_Some xs Hinc H2 v i Ei) as (Hi & Hv & Hv' & _).
  exists i. split; [exact Hi|]. split; [exact Hv|]. split; [exact Hv'|].
  apply V_between; assumption.
Qed.

End Range.

(** ** The bracket invariant of [brentq] *)

Lemma Qeq_bool_true (a b : Q) : Qeq_bool a b = true -> a == b.
Proof. apply Qeq_bool_iff. Qed.

Lemma Qeq_bool_of_not (a b : Q) : ~ a == b -> Qeq_bool a b = false.
Proof. intros H. destruct (Qeq_bool a b) eqn:E; [apply Qeq_bool_iff in E; contradiction|reflexivity]. Qed.

Lemma signbit_iff (q : Q) : Brent.signbit q = true <-> q < 0.
Proof. apply Qlt_bool_iff. Qed.

Lemma signbit_false (q : Q) : Brent.signbit q = false <-> 0 <= q.
Proof.
  unfold Brent.signbit. split; intros H.
  - apply Qnot_lt_le. intros Hlt. apply Qlt_bool_iff in Hlt. congruence.
  - destruct (Qlt_bool q 0) eqn:E; [apply Qlt_bool_iff in E; lra|reflexivity].
Qed.

Lemma eqb_false_neq (a b : bool) : Bool.eqb a b = false -> a <> b.
Proof. destruct a, b; simpl; congruence. Qed.

Lemma neq_eqb_false (a b : bool) : a <> b -> Bool.eqb a b = false.
Proof. destruct a, b; simpl; congruence. Qed.

Section BrentInvariant.
Variable f : Q -> fval.

Lemma tail_post (next : Q -> Q -> Q -> Q -> Q -> Q -> Q -> Q -> Brent.outcome)
    (P C B fp fc fb sp sc x : Q) :
  f C = Num fc -> f B = Num fb -> ~ fb == 0 ->
  (fc == 0 \/ Brent.signbit fc <> Brent.signbit fb) ->
  (forall P' C' fp' fc' sp' sc', f P' = Num fp' -> f C' = Num fc' -> ~ fp' == 0 ->
     Brent.signbit fp' <> Brent.signbit fb ->
     next P' C' B fp' fc' fb sp' sc' = Brent.Converged x -> Brent.accepted f x) ->
  Brent.tail f next P C B fp fc fb sp sc = Brent.Converged x -> Brent.accepted f x.
Proof.
  intros HC HB Hfb Hsg Hnext. unfold Brent.tail.
  destruct (Qeq_bool fc 0 || Qlt_bool (Qabs ((B - C) / 2)) ((Brent.xtol + Brent.rtol * Qabs C) / 2))
    eqn:Hc.
  - intros H. injection H as <-. exists fc. split; [assumption|].
    apply orb_true_iff in Hc. destruct Hc as [Hz|Hw].
    + left. apply Qeq_bool_true. assumption.
    + destruct (Qeq_bool fc 0) eqn:Hz; [left; apply Qeq_bool_true; assumption|].
      right. exists B, fb. repeat split; try assumption.
      * destruct Hsg as [Hsg|Hsg]; [|assumption].
        apply Qeq_bool_iff in Hsg. congruence.
      * apply Qlt_bool_iff. assumption.
  - apply orb_false_iff in Hc. destruct Hc as [Hz _].
    destruct Hsg as [Hsg|Hsg]; [apply Qeq_bool_iff in Hsg; congruence|].
    match goal with |- context [let '(_, _) := ?pr in _] => destruct pr as [sp' sc'] end.
    match goal with |- context [match f ?X with _ => _ end] => destruct (f X) as [fn|] eqn:Ef end;
      [|discriminate].
    apply Hnext; try assumption.
    apply Qeq_bool_false. assumption.
Qed.

Lemma loop_post (fuel : nat) : forall xpre xcur xblk fpre fcur fblk spre scur x,
  f xpre = Num fpre -> f xcur = Num fcur -> ~ fpre == 0 ->
  ((~ fcur == 0 /\ Brent.signbit fpre <> Brent.signbit fcur)
   \/ (f xblk = Num fblk /\ ~ fblk == 0 /\ Brent.signbit fpre <> Brent.signbit fblk)) ->
  Brent.loop f fuel xpre xcur xblk fpre fcur fblk spre scur = Brent.Converged x ->
  Brent.accepted f x.
Proof.
  induction fuel as [|fuel IH]; intros xpre xcur xblk fpre fcur fblk spre scur x Hp Hc Hfp Hinv;
    [discriminate|].
  cbn [Brent.loop].
  assert (Hnext : forall B fb, f B = Num fb -> ~ fb == 0 ->
    forall P' C' fp' fc' sp' sc', f P' = Num fp' -> f C' = Num fc' -> ~ fp' == 0 ->
     Brent.signbit fp' <> Brent.signbit fb ->
     Brent.loop f fuel P' C' B fp' fc' fb sp' sc' = Brent.Converged x -> Brent.accepted f x).
  { intros B fb HB Hfb P' C' fp' fc' sp' sc' HP' HC' Hfp' Hs'.
    apply IH; try assumption. right. repeat split; assumption. }
  destruct (negb (Qeq_bool fpre 0) && negb (Qeq_bool fcur 0)
            && negb (Bool.eqb (Brent.signbit fpre) (Brent.signbit fcur))) eqn:Hbr.
  - apply andb_true_iff in Hbr as [Hbr Hs]. apply andb_true_iff in Hbr as [_ Hz].
    apply negb_true_iff in Hz, Hs. apply eqb_false_neq in Hs.
    pose proof (Qeq_bool_false _ _ Hz) as Hfc.
    destruct (Qlt_bool (Qabs fpre) (Qabs fcur)) eqn:Hsw.
    + apply (tail_post _ xcur xpre xcur fcur fpre fcur); try assumption.
      * right. assumption.
      * apply Hnext; assumption.
    + apply (tail_post _ xpre xcur xpre fpre fcur fpre); try assumption.
      * right. auto.
      * apply Hnext; assumption.
  - destruct Hinv as [[Hfc Hs]|(Hb & Hfb & Hs)].
    { exfalso. rewrite (Qeq_bool_of_not _ _ Hfp), (Qeq_bool_of_not _ _ Hfc),
        (neq_eqb_false _ _ Hs) in Hbr. discriminate. }
    assert (J : fcur == 0 \/ Brent.signbit fcur <> Brent.signbit fblk).
    { destruct (Qeq_bool fcur 0) eqn:Ez; [left; apply Qeq_bool_true; assumption|right].
      rewrite (Qeq_bool_of_not _ _ Hfp) in Hbr; try rewrite Ez in Hbr. simpl in Hbr.
      apply negb_false_iff in Hbr. apply Bool.eqb_prop in Hbr. congruence. }
    destruct (Qlt_bool (Qabs fblk) (Qabs fcur)) eqn:Hsw.
    + apply Qlt_bool_iff in Hsw.
      assert (Hfc : ~ fcur == 0).
      { intros E. rewrite E in Hsw. pose proof (Qabs_nonneg fblk). simpl in Hsw. lra. }
      assert (Hs' : Brent.signbit fcur <> Brent.signbit fblk) by (destruct J; [contradiction|assumption]).
      apply (tail_post _ xcur xblk xcur fcur fblk fcur); try assumption.
      * right. auto.
      * apply Hnext; assumption.
    + apply (tail_post _ xpre xcur xblk fpre fcur fblk); try assumption.
      apply Hnext; assumption.
Qed.

Lemma brentq_c_post (a b x : Q) :
  Brent.brentq_c f a b = Brent.Converged x -> Brent.accepted f x.
Proof.
  unfold Brent.brentq_c.
  destruct (f a) as [fa|] eqn:Ea; [|discriminate].
  destruct (f b) as [fb|] eqn:Eb; [|discriminate].
  destruct (Qeq_bool fa 0) eqn:Za.
  { intros H. injection H as <-. exists fa. split; [assumption|]. left. apply Qeq_bool_true. assumption. }
  destruct (Qeq_bool fb 0) eqn:Zb.
  { intros H. injection H as <-. exists fb. split; [assumption|]. left. apply Qeq_bool_true. assumption. }
  destruct (Bool.eqb (Brent.signbit fa) (Brent.signbit fb)) eqn:Es; [discriminate|].
  apply loop_post; try assumption.
  - apply Qeq_bool_false. assumption.
  - left. split; [apply Qeq_bool_false; assumption|apply eqb_false_neq; assumption].
Qed.

Lemma brentq_post (a b x : Q) : Brent.brentq f a b = Ok x -> Brent.accepted f x.
Proof.
  unfold Brent.brentq. destruct (Brent.brentq_c f a b) eqn:E; intros H; try discriminate.
  injection H as <-. apply (brentq_c_post a b). assumption.
Qed.

Lemma brentq_signerr (a b fa fb : Q) :
  f a = Num fa -> f b = Num fb -> ~ fa == 0 -> ~ fb == 0 ->
  Brent.signbit fa = Brent.signbit fb ->
  Brent.brentq f a b = Err (ValueError "f(a) and f(b) must have different signs").
Proof.
  intros Ea Eb Za Zb Es. unfold Brent.brentq, Brent.brentq_c.
  rewrite Ea, Eb, (Qeq_bool_of_not _ _ Za), (Qeq_bool_of_not _ _ Zb), Es, eqb_reflx.
  reflexivity.
Qed.

End BrentInvariant.

(** ** [arr.min()] and [arr.max()] *)

Lemma Qmin_left (a b : Q) : a <= b -> Qmin a b = a.
Proof.
  intros H. unfold Qmin, GenericMinMax.gmin. apply Qle_alt in H.
  destruct (Qcompare a b) eqn:E; try reflexivity. contradiction.
Qed.

Lemma Qmax_right (a b : Q) : a < b -> Qmax a b = b.
Proof.
  intros H. unfold Qmax, GenericMinMax.gmax.
  assert (E : Qcompare a b = Lt) by (apply Qlt_alt; exact H). rewrite E. reflexivity.
Qed.

Lemma Qmin_cases (a b : Q) : Qmin a b = a \/ Qmin a b = b.
Proof. unfold Qmin, GenericMinMax.gmin. destruct (Qcompare a b); auto. Qed.

Lemma Qmax_cases (a b : Q) : Qmax a b = a \/ Qmax a b = b.
Proof. unfold Qmax, GenericMinMax.gmax. destruct (Qcompare a b); auto. Qed.

Lemma fold_min_bounds (r : list Q) (a : Q) :
  fold_left Qmin r a <= a /\ (forall b, In b r -> fold_left Qmin r a <= b).
Proof.
  revert a. induction r as [|b r IH]; intros a; simpl.
  - split; [apply Qle_refl|tauto].
  - destruct (IH (Qmin a b)) as [H1 H2]. split.
    + eapply Qle_trans; [exact H1|apply Q.le_min_l].
    + intros c [<-|Hc]; [eapply Qle_trans; [exact H1|apply Q.le_min_r]|auto].
Qed.

Lemma fold_max_bounds (r : list Q) (a : Q) :
  a <= fold_left Qmax r a /\ (forall b, In b r -> b <= fold_left Qmax r a).
Proof.
  revert a. induction r as [|b r IH]; intros a; simpl.
  - split; [apply Qle_refl|tauto].
  - destruct (IH (Qmax a b)) as [H1 H2]. split.
    + eapply Qle_trans; [apply Q.le_max_l|exact H1].
    + intros c [<-|Hc]; [eapply Qle_trans; [apply Q.le_max_r|exact H1]|auto].
Qed.

Lemma fold_min_in (r : list Q) (a : Q) : In (fold_left Qmin r a) (a :: r).
Proof.
  revert a. induction r as [|b r IH]; intros a; simpl; [auto|].
  destruct (IH (Qmin a b)) as [E|E].
  - rewrite <- E. destruct (Qmin_cases a b) as [M|M]; rewrite M; simpl; auto.
  - auto.
Qed.

Lemma fold_max_in (r : list Q) (a : Q) : In (fold_left Qmax r a) (a :: r).
Proof.
  revert a. induction r as [|b r IH]; intros a; simpl; [auto|].
  destruct (IH (Qmax a b)) as [E|E].
  - rewrite <- E. destruct (Qmax_cases a b) as [M|M]; rewrite M; simpl; auto.
  - auto.
Qed.

Lemma list_min_le (l : list Q) (e : Q) : In e l -> list_min l <= e.
Proof.
  destruct l as [|a r]; [intros []|]. intros [<-|H].
  - apply (proj1 (fold_min_bounds r a)).
  - apply (proj2 (fold_min_bounds r a)). assumption.
Qed.

Lemma list_max_ge (l : list Q) (e : Q) : In e l -> e <= list_max l.
Proof.
  destruct l as [|a r]; [intros []|]. intros [<-|H].
  - apply (proj1 (fold_max_bounds r a)).
  - apply (proj2 (fold_max_bounds r a)). assumption.
Qed.

Lemma list_min_in (l : list Q) : l <> [] -> In (list_min l) l.
Proof. destruct l as [|a r]; [congruence|]. intros _. apply fold_min_in. Qed.

Lemma list_max_in (l : list Q) : l <> [] -> In (list_max l) l.
Proof. destruct l as [|a r]; [congruence|]. intros _. apply fold_max_in. Qed.

Lemma fold_min_first (r : list Q) (a : Q) : (forall b, In b r -> a <= b) -> fold_left Qmin r a = a.
Proof.
  revert a. induction r as [|b r IH]; intros a H; simpl; [reflexivity|].
  rewrite Qmin_left by (apply H; left; reflexivity). apply IH. intros c Hc. apply H. right. assumption.
Qed.

Lemma list_min_sinc (l : list Q) : Pchip.strictly_increasing l = true -> l <> [] ->
  list_min l = nth 0 l 0.
Proof.
  destruct l as [|a r]; [congruence|]. intros H _. simpl. apply fold_min_first.
  intros b Hb. apply In_nth with (d := 0) in Hb as (k & Hk & <-).
  apply Qlt_le_weak. apply (sinc_nth (a :: r) H 0 (S k)). simpl. lia.
Qed.

Lemma list_max_sinc (l : list Q) : Pchip.strictly_increasing l = true -> l <> [] ->
  list_max l = nth (List.length l - 1) l 0.
Proof.
  intros H Hne. rewrite <- (last_nth l 0 Hne). destruct l as [|a r]; [congruence|].
  simpl list_max. clear Hne. revert a H. induction r as [|b r IH]; intros a H; [reflexivity|].
  simpl fold_left. rewrite Qmax_right.
  - rewrite IH by (apply sinc_cons with a; assumption). destruct r; reflexivity.
  - apply (sinc_adj (a :: b :: r) H 0). simpl. lia.
Qed.

(** ** What a successful [build_family] produces *)

Lemma build_family_ok (g : group) (d : family_model) : build_family g = Ok d ->
  Pchip.PchipInterpolator (fm_t d) (fm_E d) = Ok (fm_interp d)
  /\ fm_t d = map fst (sort_by_t (rows_of g))
  /\ fm_E d = map (fun r => fst (snd r)) (sort_by_t (rows_of g))
  /\ fm_tmin d = list_min (fm_t d) /\ fm_tmax d = list_max (fm_t d)
  /\ fm_Emin d = list_min (fm_E d) /\ fm_Emax d = list_max (fm_E d).
Proof.
  unfold build_family, bind.
  destruct (Pchip.PchipInterpolator _ _) as [p|e] eqn:E; [|discriminate].
  intros H. injection H as <-. simpl. repeat split; assumption || reflexivity.
Qed.

Lemma build_family_shape (g : group) (d : family_model) : build_family g = Ok d ->
  (2 <= List.length (fm_t d))%nat /\ List.length (fm_E d) = List.length (fm_t d)
  /\ Pchip.strictly_increasing (fm_t d) = true
  /\ fm_tmin d = nth 0 (fm_t d) 0
  /\ fm_tmax d = nth (List.length (fm_t d) - 1) (fm_t d) 0.
Proof.
  intros H. destruct (build_family_ok g d H) as (Hp & _ & _ & Hmin & Hmax & _).
  destruct (pchip_ok _ _ _ Hp) as (H2 & Hlen & Hinc & _).
  assert (Hne : fm_t d <> []) by (intros E; rewrite E in H2; simpl in H2; lia).
  repeat split; try assumption.
  - rewrite Hmin. apply list_min_sinc; assumption.
  - rewrite Hmax. apply list_max_sinc; assumption.
Qed.

(** The interpolant of a built model is [NaN] exactly outside
    [[tmin, tmax]]. *)
Lemma model_call_NaN (g : group) (d : family_model) (x : Q) : build_family g = Ok d ->
  (Pchip.call (fm_interp d) x = NaN <-> x < fm_tmin d \/ fm_tmax d < x).
Proof.
  intros H. destruct (build_family_ok g d H) as (Hp & _).
  destruct (build_family_shape g d H) as (_ & _ & _ & -> & ->).
  apply (call_NaN _ _ _ Hp).
Qed.

Lemma model_call_in (g : group) (d : family_model) (x : Q) : build_family g = Ok d ->
  fm_tmin d <= x -> x <= fm_tmax d -> exists e, Pchip.call (fm_interp d) x = Num e.
Proof.
  intros H Hlo Hhi. destruct (Pchip.call (fm_interp d) x) as [e|] eqn:E; [exists e; reflexivity|].
  apply (model_call_NaN g d x H) in E. lra.
Qed.

Lemma model_call_Num_in (g : group) (d : family_model) (x e : Q) : build_family g = Ok d ->
  Pchip.call (fm_interp d) x = Num e -> fm_tmin d <= x /\ x <= fm_tmax d.
Proof.
  intros H E. destruct (Qlt_le_dec x (fm_tmin d)) as [Hlt|Hle].
  - assert (Pchip.call (fm_interp d) x = NaN) by (apply (model_call_NaN g d x H); left; assumption).
    congruence.
  - split; [assumption|]. apply Qnot_lt_le. intros Hlt.
    assert (Pchip.call (fm_interp d) x = NaN) by (apply (model_call_NaN g d x H); right; assumption).
    congruence.
Qed.

Lemma invert_g_Num (f : Pchip.ppoly) (e t v : Q) :
  invert_g f e t = Num v -> exists a, Pchip.call f t = Num a /\ v = a - e.
Proof.
  unfold invert_g. destruct (Pchip.call f t) as [a|]; intros H; [|discriminate].
  exists a. split; [reflexivity|]. injection H as <-. reflexivity.
Qed.

Lemma invert_family_ok (d : family_model) (e t : Q) (Ep : fval) :
  invert_family d e = Ok (t, Ep) ->
  Brent.brentq (invert_g (fm_interp d) e) (fm_tmin d) (fm_tmax d) = Ok t
  /\ Ep = Pchip.call (fm_interp d) t.
Proof.
  unfold invert_family, bind.
  destruct (Brent.brentq _ _ _) as [t'|err]; intros H; [|discriminate].
  injection H as <- <-. split; reflexivity.
Qed.

Lemma xtol_pos : 0 < Brent.xtol.
Proof. unfold Brent.xtol, Qlt. simpl. lia. Qed.

Lemma rtol_nonneg : 0 <= Brent.rtol.
Proof. unfold Brent.rtol, Qle. simpl. lia. Qed.

(** A [CONVERGED] exit of [brentq] on a function whose sign changes only
    at [c] lies within the tolerance of [c]. *)
Lemma accepted_close (G : Q -> fval) (c x : Q) :
  (forall t v, G t = Num v -> v == 0 -> t == c) ->
  (forall t1 v1 t2 v2, G t1 = Num v1 -> G t2 = Num v2 -> ~ v2 == 0 ->
     Brent.signbit v1 <> Brent.signbit v2 ->
     (t1 <= c /\ c < t2) \/ (t2 < c /\ c <= t1)) ->
  Brent.accepted G x -> Qabs (x - c) < Brent.xtol + Brent.rtol * Qabs x.
Proof.
  intros H0 Hsep (v & Ex & Hacc).
  pose proof xtol_pos as Hx. pose proof rtol_nonneg as Hr.
  assert (HR : 0 <= Brent.rtol * Qabs x) by (apply Qmult_le_0_compat; [assumption|apply Qabs_nonneg]).
  set (R := Brent.rtol * Qabs x) in *. set (T := Brent.xtol) in *.
  destruct Hacc as [Hz|(xb & vb & Eb & Hvb & Hs & Hw)].
  - pose proof (H0 x v Ex Hz) as Exc.
    assert (Hd : x - c == 0) by lra. rewrite Hd. simpl. lra.
  - setoid_replace ((xb - x) / 2) with ((xb - x) * (1 # 2)) in Hw by field.
    setoid_replace ((T + R) / 2) with ((T + R) * (1 # 2)) in Hw by field.
    destruct (Hsep x v xb vb Ex Eb Hvb Hs) as [[A B]|[A B]].
    + rewrite (Qabs_neg (x - c)) by lra. rewrite (Qabs_pos ((xb - x) * (1 # 2))) in Hw by lra. lra.
    + rewrite (Qabs_pos (x - c)) by lra. rewrite (Qabs_neg ((xb - x) * (1 # 2))) in Hw by lra. lra.
Qed.

Lemma signbit_cases (v1 v2 : Q) : ~ v2 == 0 -> Brent.signbit v1 <> Brent.signbit v2 ->
  (v1 < 0 /\ 0 < v2) \/ (v2 < 0 /\ 0 <= v1).
Proof.
  intros Hz Hs. destruct (Brent.signbit v1) eqn:E1; destruct (Brent.signbit v2) eqn:E2;
    try congruence.
  - apply signbit_iff in E1. apply signbit_false in E2. left. split; [assumption|].
    destruct (Qlt_le_dec 0 v2); [assumption|]. exfalso. apply Hz. lra.
  - apply signbit_false in E1. apply signbit_iff in E2. right. split; assumption.
Qed.

(* ------------------------------------------------------------------ *)
(** ** The loop of [nearest_bounds] *)

Lemma nearest_bounds_loop_eq (l : list measured) (t : Q) (lo up : option measured) :
  nearest_bounds_loop l t lo up =
  (match last_le t l with Some x => Some x | None => lo end,
   match up with Some u => Some u | None => first_ge t l end).
Proof.
  revert lo up. induction l as [|m r IH]; intros lo up; simpl.
  - destruct up; reflexivity.
  - rewrite IH. f_equal.
    + destruct (last_le t r); [reflexivity|]. destruct (Qle_bool (mE m) t); reflexivity.
    + destruct up; [reflexivity|]. destruct (Qle_bool t (mE m)); reflexivity.
Qed.

Lemma nearest_bounds_eq (l : list measured) (t : Q) :
  nearest_bounds l t = (last_le t l, first_ge t l).
Proof.
  unfold nearest_bounds. rewrite nearest_bounds_loop_eq.
  destruct (last_le t l); reflexivity.
Qed.

Lemma Qle_bool_false (x y : Q) : Qle_bool x y = false -> y < x.
Proof.
  intros H. apply Qnot_le_lt. intros Hle. apply Qle_bool_iff in Hle. congruence.
Qed.

Lemma last_le_None (t : Q) (l : list measured) :
  last_le t l = None <-> forall m, In m l -> t < mE m.
Proof.
  induction l as [|a r IH]; simpl.
  - split; [intros _ m []|reflexivity].
  - destruct (last_le t r) as [x|] eqn:Er.
    + split; [discriminate|]. intros H.
      assert (Some x = None) by (apply IH; intros m Hm; apply H; right; exact Hm).
      discriminate.
    + destruct (Qle_bool (mE a) t) eqn:Ea.
      * split; [discriminate|]. intros H. apply Qle_bool_iff in Ea.
        specialize (H a (or_introl eq_refl)). lra.
      * split; [|reflexivity]. intros _ m [<-|Hm].
        -- apply Qle_bool_false. assumption.
        -- apply (proj1 IH eq_refl). assumption.
Qed.

Lemma last_le_Some (t : Q) (l : list measured) (x : measured) :
  last_le t l = Some x ->
  mE x <= t /\ exists pre post, l = pre ++ x :: post /\ forall m, In m post -> t < mE m.
Proof.
  induction l as [|a r IH]; simpl; [discriminate|].
  destruct (last_le t r) as [y|] eqn:Er.
  - intros [= <-]. destruct (IH eq_refl) as (Hx & pre & post & -> & Hpost).
    split; [exact Hx|]. exists (a :: pre), post. split; [reflexivity|exact Hpost].
  - destruct (Qle_bool (mE a) t) eqn:Ea; [|discriminate]. intros [= <-].
    split; [apply Qle_bool_iff; exact Ea|].
    exists [], r. split; [reflexivity|]. apply (proj1 (last_le_None t r) Er).
Qed.

Lemma first_ge_None (t : Q) (l : list measured) :
  first_ge t l = None <-> forall m, In m l -> mE m < t.
Proof.
  induction l as [|a r IH]; simpl.
  - split; [intros _ m []|reflexivity].
  - destruct (Qle_bool t (mE a)) eqn:Ea.
    + split; [discriminate|]. intros H. apply Qle_bool_iff in Ea.
      specialize (H a (or_introl eq_refl)). lra.
    + rewrite IH. split.
      * intros H m [<-|Hm]; [apply Qle_bool_false; exact Ea|apply H; exact Hm].
      * intros H m Hm. apply H. right. exact Hm.
Qed.

Lemma first_ge_Some (t : Q) (l : list measured) (x : measured) :
  first_ge t l = Some x ->
  t <= mE x /\ exists pre post, l = pre ++ x :: post /\ forall m, In m pre -> mE m < t.
Proof.
  induction l as [|a r IH]; simpl; [discriminate|].
  destruct (Qle_bool t (mE a)) eqn:Ea.
  - intros [= <-]. split; [apply Qle_bool_iff; exact Ea|].
    exists [], r. split; [reflexivity|]. intros m [].
  - intros Hr. destruct (IH Hr) as (Hx & pre & post & -> & Hpre).
    split; [exact Hx|]. exists (a :: pre), post. split; [reflexivity|].
    intros m [<-|Hm]; [apply Qle_bool_false; exact Ea|apply Hpre; exact Hm].
Qed.

Lemma sorted_by_E_tail (a : measured) (l : list measured) :
  sorted_by_E (a :: l) -> sorted_by_E l.
Proof. destruct l; simpl; tauto. Qed.

Lemma sorted_by_E_head (a : measured) (l : list measured) :
  sorted_by_E (a :: l) -> forall m, In m l -> mE a <= mE m.
Proof.
  revert a. induction l as [|b r IH]; intros a Hs m Hm; [destruct Hm|].
  destruct Hs as [Hab Hs]. destruct Hm as [<-|Hm]; [exact Hab|].
  pose proof (IH b Hs m Hm). lra.
Qed.

Lemma sorted_by_E_app (pre post : list measured) (x : measured) :
  sorted_by_E (pre ++ x :: post) ->
  (forall m, In m pre -> mE m <= mE x) /\ (forall m, In m post -> mE x <= mE m).
Proof.
  induction pre as [|p pre IH]; simpl; intros Hs.
  - split; [intros m []|]. apply sorted_by_E_head. exact Hs.
  - destruct (IH (sorted_by_E_tail _ _ Hs)) as [H1 H2]. split; [|exact H2].
    intros m [<-|Hm]; [|apply H1; exact Hm].
    apply (sorted_by_E_head _ _ Hs). apply in_or_app. right. left. reflexivity.
Qed.

(* ------------------------------------------------------------------ *)
(** ** Grouping the phantoms by family *)

Lemma combine_app {A B : Type} (a b : list A) (c d : list B) :
  List.length a = List.length c ->
  combine (a ++ b) (c ++ d) = combine a c ++ combine b d.
Proof.
  revert c. induction a as [|x a IH]; intros c Hl; destruct c as [|y c]; simpl in *;
    try discriminate; [reflexivity|].
  rewrite IH by lia. reflexivity.
Qed.

Lemma add_keys_in (fam : string) (t E : Q) (label : string) (fs : list (string * group)) :
  In fam (map fst fs) -> map fst (add_to_family fam t E label fs) = map fst fs.
Proof.
  induction fs as [|[f d] rest IH]; simpl; [intros []|]. intros Hin.
  destruct (String.eqb f fam) eqn:Ef; simpl; [reflexivity|].
  apply String.eqb_neq in Ef. f_equal. apply IH.
  destruct Hin as [->|Hin]; [congruence|exact Hin].
Qed.

Lemma add_keys_notin (fam : string) (t E : Q) (label : string) (fs : list (string * group)) :
  ~ In fam (map fst fs) -> map fst (add_to_family fam t E label fs) = map fst fs ++ [fam].
Proof.
  induction fs as [|[f d] rest IH]; simpl; [reflexivity|]. intros Hin.
  destruct (String.eqb f fam) eqn:Ef.
  - apply String.eqb_eq in Ef. exfalso. apply Hin. left. exact Ef.
  - simpl. f_equal. apply IH. intros H. apply Hin. right. exact H.
Qed.

Lemma add_member (fam : string) (t E : Q) (label : string) (fs : list (string * group))
    (k : string) (g' : group) :
  NoDup (map fst fs) -> In (k, g') (add_to_family fam t E label fs) ->
  (k <> fam /\ In (k, g') fs)
  \/ (k = fam /\ ((exists g, In (fam, g) fs /\ g' = appended g t E label)
                  \/ (~ In fam (map fst fs) /\ g' = singleton t E label))).
Proof.
  induction fs as [|[f d] rest IH]; simpl; intros Hnd Hin.
  - destruct Hin as [[= <- <-]|[]]. right. split; [reflexivity|]. right. split; [intros []|reflexivity].
  - inversion Hnd as [|? ? Hf Hnd']; subst.
    destruct (String.eqb f fam) eqn:Ef.
    + apply String.eqb_eq in Ef. subst f. destruct Hin as [[= <- <-]|Hin].
      * right. split; [reflexivity|]. left. exists d. split; [left; reflexivity|reflexivity].
      * left. split; [|right; exact Hin]. intros ->. apply Hf.
        apply (in_map fst) in Hin. exact Hin.
    + apply String.eqb_neq in Ef. destruct Hin as [[= <- <-]|Hin].
      * left. split; [exact Ef|left; reflexivity].
      * destruct (IH Hnd' Hin) as [[Hk Hr]|[Hk [(g & Hg & ->)|[Hn ->]]]].
        -- left. split; [exact Hk|right; exact Hr].
        -- right. split; [exact Hk|]. left. exists g. split; [right; exact Hg|reflexivity].
        -- right. split; [exact Hk|]. right. split; [|reflexivity].
           intros [->|H]; [apply Ef; reflexivity|apply Hn; exact H].
Qed.

Lemma group_inv_step (done_ : list phantom) (fs : list (string * group))
    (label fam : string) (t E : Q) :
  group_inv done_ fs ->
  group_inv (done_ ++ [(label, fam, t, E)]) (add_to_family fam t E label fs).
Proof.
  intros (Hnd & Hrows & Hkeys).
  assert (Hk : forall k, In k (map fst fs) -> In k (map fst (add_to_family fam t E label fs))).
  { intros k Hin. destruct (in_dec String.string_dec fam (map fst fs)) as [Hf|Hf].
    - rewrite add_keys_in by exact Hf. exact Hin.
    - rewrite add_keys_notin by exact Hf. apply in_or_app. left. exact Hin. }
  split; [|split].
  - destruct (in_dec String.string_dec fam (map fst fs)) as [Hf|Hf].
    + rewrite add_keys_in by exact Hf. exact Hnd.
    + rewrite add_keys_notin by exact Hf.
      apply (Permutation_NoDup (Permutation_cons_append _ _)). constructor; assumption.
  - intros k g' Hin. destruct (add_member _ _ _ _ _ _ _ Hnd Hin)
      as [[Hkf Hin']|[-> [(g & Hg & ->)|[Hn ->]]]].
    + destruct (Hrows k g' Hin') as (L1 & L2 & Hr). split; [exact L1|]. split; [exact L2|].
      intros t0 e0 l0. rewrite Hr, in_app_iff. simpl. split.
      * intros H. left. exact H.
      * intros [H|[[= _ E2 _ _]|[]]]; [exact H|]. congruence.
    + destruct (Hrows fam g Hg) as (L1 & L2 & Hr). simpl.
      rewrite !length_app. simpl. split; [lia|]. split; [lia|].
      intros t0 e0 l0. unfold rows_of. simpl.
      rewrite combine_app by (rewrite L1, L2; reflexivity).
      rewrite combine_app by (rewrite length_combine; lia).
      rewrite !in_app_iff. fold (rows_of g). rewrite Hr. simpl. split.
      * intros [H|[[= -> -> ->]|[]]]; [left; exact H|right; left; reflexivity].
      * intros [H|[[= -> -> ->]|[]]]; [left; exact H|right; left; reflexivity].
    + simpl. split; [reflexivity|]. split; [reflexivity|].
      intros t0 e0 l0. unfold rows_of. simpl. rewrite in_app_iff. simpl. split.
      * intros [[= -> -> ->]|[]]. right. left. reflexivity.
      * intros [H|[[= -> -> ->]|[]]]; [|left; reflexivity].
        exfalso. apply Hn. apply (Hkeys _ _ _ _ H).
  - intros l k t0 e0 Hin. apply in_app_or in Hin. destruct Hin as [Hin|[[= <- <- <- <-]|[]]].
    + apply Hk. apply (Hkeys _ _ _ _ Hin).
    + destruct (in_dec String.string_dec fam (map fst fs)) as [Hf|Hf].
      * rewrite add_keys_in by exact Hf. exact Hf.
      * rewrite add_keys_notin by exact Hf. apply in_or_app. right. left. reflexivity.
Qed.

Lemma group_inv_fold (ps done_ : list phantom) (fs : list (string * group)) :
  group_inv done_ fs ->
  group_inv (done_ ++ ps)
    (fold_left (fun fs '(label, fam, t, E) => add_to_family fam t E label fs) ps fs).
Proof.
  revert done_ fs. induction ps as [|[[[label fam] t] E] ps IH]; intros done_ fs Hinv;
    cbn [fold_left].
  - rewrite app_nil_r. exact Hinv.
  - specialize (IH _ _ (group_inv_step done_ fs label fam t E Hinv)).
    rewrite <- app_assoc in IH. exact IH.
Qed.

Lemma group_phantoms_inv (ps : list phantom) : group_inv ps (group_phantoms ps).
Proof.
  unfold group_phantoms. apply (group_inv_fold ps []). split; [constructor|].
  split; [intros ? ? []|]. simpl. intros ? ? ? ? [].
Qed.

Lemma insert_by_t_perm (r : Q * (Q * string)) (l : list (Q * (Q * string))) :
  Permutation (insert_by_t r l) (r :: l).
Proof.
  induction l as [|r' l IH]; simpl; [reflexivity|].
  destruct (Qle_bool (fst r) (fst r')); [reflexivity|].
  eapply perm_trans; [apply perm_skip; exact IH|]. apply perm_swap.
Qed.

Lemma sort_by_t_perm (l : list (Q * (Q * string))) : Permutation (sort_by_t l) l.
Proof.
  induction l as [|r l IH]; simpl; [reflexivity|].
  eapply perm_trans; [apply insert_by_t_perm|]. apply perm_skip. exact IH.
Qed.

Lemma build_all_out (fs : list (string * group)) (ms : list (string * family_model)) :
  build_all fs = Ok ms ->
  forall fam d, In (fam, d) ms -> exists g, In (fam, g) fs /\ build_family g = Ok d.
Proof.
  revert ms. induction fs as [|[f g] rest IH]; intros ms H fam d Hin; simpl in H.
  - injection H as <-. destruct Hin.
  - unfold bind in H. destruct (build_family g) as [m|e] eqn:Eg; [|discriminate].
    destruct (build_all rest) as [ms'|e] eqn:Er; [|discriminate]. injection H as <-.
    destruct Hin as [[= <- <-]|Hin].
    + exists g. split; [left; reflexivity|exact Eg].
    + destruct (IH ms' eq_refl fam d Hin) as (g' & Hg' & E'). exists g'.
      split; [right; exact Hg'|exact E'].
Qed.

Lemma build_all_in (fs : list (string * group)) (ms : list (string * family_model)) :
  build_all fs = Ok ms ->
  forall fam g, In (fam, g) fs -> exists d, In (fam, d) ms /\ build_family g = Ok d.
Proof.
  revert ms. induction fs as [|[f g0] rest IH]; intros ms H fam g Hin; simpl in H.
  - destruct Hin.
  - unfold bind in H. destruct (build_family g0) as [m|e] eqn:Eg; [|discriminate].
    destruct (build_all rest) as [ms'|e] eqn:Er; [|discriminate]. injection H as <-.
    destruct Hin as [[= <- <-]|Hin].
    + exists m. split; [left; reflexivity|exact Eg].
    + destruct (IH ms' eq_refl fam g Hin) as (d & Hd & E'). exists d.
      split; [right; exact Hd|exact E'].
Qed.

Lemma build_all_keys (fs : list (string * group)) (ms : list (string * family_model)) :
  build_all fs = Ok ms -> map fst ms = map fst fs.
Proof.
  revert ms. induction fs as [|[f g] rest IH]; intros ms H; simpl in H.
  - injection H as <-. reflexivity.
  - unfold bind in H. destruct (build_family g) as [m|e]; [|discriminate].
    destruct (build_all rest) as [ms'|e] eqn:Er; [|discriminate]. injection H as <-.
    simpl. f_equal. apply IH. reflexivity.
Qed.

(** The measured values of a built model are those of its group. *)
Lemma model_E_in (g : group) (d : family_model) (e : Q) :
  build_family g = Ok d ->
  In e (fm_E d) <-> exists t l, In (t, (e, l)) (rows_of g).
Proof.
  intros H. destruct (build_family_ok g d H) as (_ & _ & HE & _). rewrite HE, in_map_iff.
  split.
  - intros ([t [e' l]] & He & Hin). simpl in He. subst e'. exists t, l.
    apply (Permutation_in _ (sort_by_t_perm _) Hin).
  - intros (t & l & Hin). exists (t, (e, l)). split; [reflexivity|].
    apply (Permutation_in _ (Permutation_sym (sort_by_t_perm _)) Hin).
Qed.

(** The interpolant of a built model passes through every row of its
    group. *)
Lemma model_knot (g : group) (d : family_model) (t e : Q) (l : string) :
  build_family g = Ok d -> In (t, (e, l)) (rows_of g) ->
  exists v, Pchip.call (fm_interp d) t = Num v /\ v == e.
Proof.
  intros H Hin. destruct (build_family_ok g d H) as (Hp & Ht & HE & _).
  apply (Permutation_in _ (Permutation_sym (sort_by_t_perm _))) in Hin.
  destruct (In_nth _ _ (0, (0, EmptyString)) Hin) as (k & Hk & Ek).
  assert (Hkt : (k < List.length (fm_t d))%nat) by (rewrite Ht, length_map; exact Hk).
  destruct (call_knot _ _ _ Hp k Hkt) as (v & Ev & Qv).
  assert (Et : nth k (fm_t d) 0 = t).
  { rewrite Ht, (nth_map_in _ _ _ (0, (0, EmptyString)) _ Hk), Ek. reflexivity. }
  assert (EE : nth k (fm_E d) 0 = e).
  { rewrite HE, (nth_map_in _ _ _ (0, (0, EmptyString)) _ Hk), Ek. reflexivity. }
  exists v. rewrite <- Et. split; [exact Ev|]. rewrite <- EE. exact Qv.
Qed.

(** Every phantom's family is a key of the built models, and its row is
    in the group the model was built from. *)
Lemma models_of_phantom (ps : list phantom) (fams : list (string * family_model))
    (l fam : string) (t e : Q) :
  build_family_models ps = Ok fams -> In (l, fam, t, e) ps ->
  exists g d, In (fam, g) (group_phantoms ps) /\ In (fam, d) fams
    /\ build_family g = Ok d /\ In (t, (e, l)) (rows_of g).
Proof.
  intros H Hin. destruct (group_phantoms_inv ps) as (_ & Hrows & Hkeys).
  pose proof (Hkeys _ _ _ _ Hin) as Hk. apply in_map_iff in Hk.
  destruct Hk as ([f g] & Ef & Hg). simpl in Ef. subst f.
  destruct (build_all_in _ _ H fam g Hg) as (d & Hd & Ed).
  exists g, d. split; [exact Hg|]. split; [exact Hd|]. split; [exact Ed|].
  apply (proj2 (proj2 (Hrows fam g Hg)) t e l). exact Hin.
Qed.

(* ------------------------------------------------------------------ *)
(** ** The groups hold exactly the rows of their family *)

Lemma fam_rows_app (ps qs : list phantom) (fam : string) :
  fam_rows (ps ++ qs) fam = fam_rows ps fam ++ fam_rows qs fam.
Proof. unfold fam_rows. rewrite filter_app, map_app. reflexivity. Qed.

Lemma fam_rows_none (ps : list phantom) (fam : string) :
  (forall p, In p ps -> ph_fam p <> fam) -> fam_rows ps fam = [].
Proof.
  intros H. unfold fam_rows. induction ps as [|p ps IH]; [reflexivity|]. simpl.
  destruct (String.eqb (ph_fam p) fam) eqn:E.
  - apply String.eqb_eq in E. exfalso. apply (H p); [left; reflexivity|exact E].
  - apply IH. intros q Hq. apply H. right. exact Hq.
Qed.

Lemma fam_rows_single_eq (label fam : string) (t E : Q) :
  fam_rows [(label, fam, t, E)] fam = [(t, (E, label))].
Proof. unfold fam_rows. simpl. rewrite String.eqb_refl. reflexivity. Qed.

Lemma fam_rows_single_neq (label fam k : string) (t E : Q) :
  fam <> k -> fam_rows [(label, fam, t, E)] k = [].
Proof.
  intros H. unfold fam_rows. simpl. apply String.eqb_neq in H. rewrite H. reflexivity.
Qed.

Lemma fam_ts_rows (ps : list phantom) (fam : string) :
  fam_ts ps fam = map fst (fam_rows ps fam).
Proof.
  unfold fam_ts, fam_rows. rewrite map_map. apply map_ext.
  intros [[[l f] t] e]. reflexivity.
Qed.

Definition group_exact (done_ : list phantom) (fs : list (string * group)) : Prop :=
  group_inv done_ fs
  /\ forall k g, In (k, g) fs -> rows_of g = fam_rows done_ k /\ In k (map ph_fam done_).

Lemma group_exact_step (done_ : list phantom) (fs : list (string * group))
    (label fam : string) (t E : Q) :
  group_exact done_ fs ->
  group_exact (done_ ++ [(label, fam, t, E)]) (add_to_family fam t E label fs).
Proof.
  intros [Hinv Hex]. split; [apply group_inv_step; exact Hinv|].
  destruct Hinv as (Hnd & Hrows & Hkeys).
  assert (Hfam : In fam (map ph_fam (done_ ++ [(label, fam, t, E)])))
    by (rewrite map_app; apply in_or_app; right; left; reflexivity).
  intros k g' Hin. rewrite fam_rows_app.
  destruct (add_member _ _ _ _ _ _ _ Hnd Hin) as [[Hkf Hin']|[-> [(g & Hg & ->)|[Hn ->]]]].
  - destruct (Hex k g' Hin') as [Er Hk]. split.
    + rewrite Er, fam_rows_single_neq, app_nil_r; [reflexivity|].
      intros E'. apply Hkf. symmetry. exact E'.
    + rewrite map_app. apply in_or_app. left. exact Hk.
  - destruct (Hex fam g Hg) as [Er _]. destruct (Hrows fam g Hg) as (L1 & L2 & _).
    split; [|exact Hfam].
    unfold rows_of. simpl.
    rewrite combine_app by (rewrite L1, L2; reflexivity).
    rewrite combine_app by (rewrite length_combine; lia).
    fold (rows_of g). rewrite Er, fam_rows_single_eq. reflexivity.
  - split; [|exact Hfam].
    rewrite fam_rows_none.
    + rewrite fam_rows_single_eq. reflexivity.
    + intros [[[l k] t0] e0] Hp Ek. simpl in Ek. subst k. apply Hn.
      apply (Hkeys l fam t0 e0 Hp).
Qed.

Lemma group_exact_fold (ps done_ : list phantom) (fs : list (string * group)) :
  group_exact done_ fs ->
  group_exact (done_ ++ ps)
    (fold_left (fun fs '(label, fam, t, E) => add_to_family fam t E label fs) ps fs).
Proof.
  revert done_ fs. induction ps as [|[[[label fam] t] E] ps IH]; intros done_ fs Hinv;
    cbn [fold_left].
  - rewrite app_nil_r. exact Hinv.
  - specialize (IH _ _ (group_exact_step done_ fs label fam t E Hinv)).
    rewrite <- app_assoc in IH. exact IH.
Qed.

Lemma group_phantoms_exact (ps : list phantom) :
  forall k g, In (k, g) (group_phantoms ps) ->
    rows_of g = fam_rows ps k /\ In k (map ph_fam ps).
Proof.
  unfold group_phantoms. apply (group_exact_fold ps []).
  split; [|intros ? ? []]. split; [constructor|].
  split; [intros ? ? []|]. simpl. intros ? ? ? ? [].
Qed.

(** The families of the table are the keys of the grouped dict. *)
Lemma group_phantoms_keys (ps : list phantom) (fam : string) :
  In fam (map fst (group_phantoms ps)) <-> In fam (map ph_fam ps).
Proof.
  split.
  - intros Hk. apply in_map_iff in Hk. destruct Hk as ([k g] & Ek & Hg). simpl in Ek. subst k.
    apply (group_phantoms_exact ps fam g Hg).
  - intros Hk. apply in_map_iff in Hk. destruct Hk as ([[[l f] t] e] & Ef & Hp).
    simpl in Ef. subst f. destruct (group_phantoms_inv ps) as (_ & _ & Hkeys).
    apply (Hkeys l fam t e Hp).
Qed.

(* ------------------------------------------------------------------ *)
(** ** When the construction of the models succeeds *)

Definition row_le (a b : Q * (Q * string)) : Prop := fst a <= fst b.

Lemma insert_by_t_sorted (r : Q * (Q * string)) (l : list (Q * (Q * string))) :
  Sorted row_le l -> Sorted row_le (insert_by_t r l).
Proof.
  induction l as [|r' l IH]; intros Hs; simpl.
  - constructor; constructor.
  - destruct (Qle_bool (fst r) (fst r')) eqn:E.
    + constructor; [exact Hs|]. constructor. apply Qle_bool_iff. exact E.
    + apply Sorted_inv in Hs. destruct Hs as [Hs Hh].
      assert (Hlt : fst r' <= fst r).
      { apply Qlt_le_weak. apply Qnot_le_lt. intros Hle. apply Qle_bool_iff in Hle. congruence. }
      constructor; [apply IH; exact Hs|].
      destruct l as [|r'' l]; simpl.
      * constructor. exact Hlt.
      * destruct (Qle_bool (fst r) (fst r'')); constructor; [exact Hlt|].
        apply HdRel_inv in Hh. exact Hh.
Qed.

Lemma sort_by_t_sorted (l : list (Q * (Q * string))) : Sorted row_le (sort_by_t l).
Proof.
  induction l as [|r l IH]; simpl; [constructor|]. apply insert_by_t_sorted. exact IH.
Qed.

Lemma Qred_eq_Qeq (a b : Q) : Qred a = Qred b -> a == b.
Proof.
  intros H. rewrite <- (Qred_correct a), <- (Qred_correct b), H. reflexivity.
Qed.

Lemma sinc_of_sorted (l : list (Q * (Q * string))) :
  Sorted row_le l -> distinct_Q (map fst l) -> Pchip.strictly_increasing (map fst l) = true.
Proof.
  induction l as [|a l IH]; intros Hs Hd; [reflexivity|].
  apply Sorted_inv in Hs. destruct Hs as [Hs Hh].
  unfold distinct_Q in Hd. simpl in Hd. inversion Hd as [|? ? Hna Hd']; subst.
  destruct l as [|b l]; [reflexivity|].
  change (map fst (a :: b :: l)) with (fst a :: fst b :: map fst l).
  change (Pchip.strictly_increasing (fst a :: fst b :: map fst l))
    with (Qlt_bool (fst a) (fst b) && Pchip.strictly_increasing (fst b :: map fst l)).
  apply andb_true_iff. split.
  - apply HdRel_inv in Hh. unfold row_le in Hh. apply Qlt_bool_iff.
    apply Qle_lteq in Hh. destruct Hh as [Hh|Hh]; [exact Hh|].
    exfalso. apply Hna. left. apply Qred_complete. symmetry. exact Hh.
  - apply IH; [exact Hs|exact Hd'].
Qed.

Lemma sinc_head_lt (a : Q) (l : list Q) :
  Pchip.strictly_increasing (a :: l) = true -> forall b, In b l -> a < b.
Proof.
  revert a. induction l as [|b l IH]; intros a Hs c Hc; [destruct Hc|].
  simpl in Hs. apply andb_true_iff in Hs. destruct Hs as [Hab Hs].
  apply Qlt_bool_iff in Hab. destruct Hc as [<-|Hc]; [exact Hab|].
  pose proof (IH b Hs c Hc). lra.
Qed.

Lemma distinct_of_sinc (l : list Q) : Pchip.strictly_increasing l = true -> distinct_Q l.
Proof.
  unfold distinct_Q. induction l as [|a l IH]; intros Hs; simpl; [constructor|].
  constructor.
  - intros Hin. apply in_map_iff in Hin. destruct Hin as (b & Eb & Hb).
    apply Qred_eq_Qeq in Eb. pose proof (sinc_head_lt a l Hs b Hb). lra.
  - apply IH. apply (sinc_cons a l Hs).
Qed.

Lemma distinct_perm (l l' : list Q) : Permutation l l' -> distinct_Q l -> distinct_Q l'.
Proof.
  unfold distinct_Q. intros Hp. apply Permutation_NoDup. apply Permutation_map. exact Hp.
Qed.

(** A family's model can be built iff it has at least two rows and no two
    of them share a concentration. *)
Lemma build_family_ok_iff (g : group) :
  (exists d, build_family g = Ok d)
  <-> (2 <= List.length (rows_of g))%nat /\ distinct_Q (map fst (rows_of g)).
Proof.
  pose proof (sort_by_t_perm (rows_of g)) as Hp.
  pose proof (Permutation_length Hp) as HL.
  unfold build_family, bind, Pchip.PchipInterpolator. fold (rows_of g).
  rewrite !length_map, Nat.eqb_refl. simpl negb. cbv iota.
  split.
  - intros [d Hd].
    destruct (Nat.ltb (List.length (sort_by_t (rows_of g))) 2) eqn:E1; [discriminate|].
    destruct (Pchip.strictly_increasing (map fst (sort_by_t (rows_of g)))) eqn:E3;
      [|discriminate].
    apply Nat.ltb_ge in E1. split; [lia|].
    apply (distinct_perm _ _ (Permutation_map fst Hp)). apply distinct_of_sinc. exact E3.
  - intros [H2 Hd].
    replace (Nat.ltb (List.length (sort_by_t (rows_of g))) 2) with false
      by (symmetry; apply Nat.ltb_ge; lia).
    rewrite sinc_of_sorted.
    + simpl. eexists. reflexivity.
    + apply sort_by_t_sorted.
    + apply (distinct_perm _ _ (Permutation_map fst (Permutation_sym Hp))). exact Hd.
Qed.

Lemma build_all_ok_iff (fs : list (string * group)) :
  (exists ms, build_all fs = Ok ms)
  <-> forall k g, In (k, g) fs -> exists d, build_family g = Ok d.
Proof.
  induction fs as [|[f g0] rest IH]; simpl.
  - split; [intros _ k g []|intros _; eexists; reflexivity].
  - unfold bind. split.
    + intros [ms H]. destruct (build_family g0) as [m|e] eqn:Eg; [|discriminate].
      destruct (build_all rest) as [ms'|e] eqn:Er; [|discriminate].
      intros k g [[= <- <-]|Hin]; [exists m; exact Eg|].
      exact (proj1 IH (ex_intro _ ms' eq_refl) k g Hin).
    + intros H. destruct (H f g0 (or_introl eq_refl)) as [m Eg]. rewrite Eg.
      destruct (proj2 IH (fun k g Hin => H k g (or_intror Hin))) as [ms' Er].
      rewrite Er. eexists. reflexivity.
Qed.

Lemma combine_maps (l : list (Q * (Q * string))) :
  combine (map fst l) (combine (map (fun r => fst (snd r)) l) (map (fun r => snd (snd r)) l))
  = l.
Proof. induction l as [|[t [e lb]] l IH]; simpl; [reflexivity|]. rewrite IH. reflexivity. Qed.

Lemma model_rows_sorted (g : group) (d : family_model) :
  build_family g = Ok d -> model_rows d = sort_by_t (rows_of g).
Proof.
  unfold build_family, bind. destruct (Pchip.PchipInterpolator _ _); [|discriminate].
  intros H. injection H as <-. unfold model_rows. simpl. apply combine_maps.
Qed.

(* ------------------------------------------------------------------ *)
(** ** Values of a built model *)

Lemma model_value_local (g : group) (d : family_model) (v a : Q) :
  build_family g = Ok d -> Pchip.call (fm_interp d) v = Num a ->
  exists i, (S i < List.length (fm_t d))%nat
    /\ nth i (fm_t d) 0 <= v /\ v <= nth (S i) (fm_t d) 0
    /\ ((nth i (fm_E d) 0 <= a /\ a <= nth (S i) (fm_E d) 0)
        \/ (nth (S i) (fm_E d) 0 <= a /\ a <= nth i (fm_E d) 0)).
Proof.
  intros H Ea. destruct (build_family_ok g d H) as (Hp & _).
  apply (interp_between _ _ _ Hp v a Ea).
Qed.

Lemma model_value_range (g : group) (d : family_model) (v a : Q) :
  build_family g = Ok d -> Pchip.call (fm_interp d) v = Num a ->
  fm_Emin d <= a /\ a <= fm_Emax d.
Proof.
  intros H Ea. destruct (build_family_ok g d H) as (_ & _ & _ & _ & _ & Hmin & Hmax).
  destruct (build_family_shape g d H) as (_ & Hlen & _).
  destruct (model_value_local g d v a H Ea) as (i & Hi & _ & _ & Hb).
  assert (I0 : In (nth i (fm_E d) 0) (fm_E d)) by (apply nth_In; lia).
  assert (I1 : In (nth (S i) (fm_E d) 0) (fm_E d)) by (apply nth_In; lia).
  pose proof (list_min_le _ _ I0). pose proof (list_min_le _ _ I1).
  pose proof (list_max_ge _ _ I0). pose proof (list_max_ge _ _ I1).
  rewrite Hmin, Hmax. destruct Hb; lra.
Qed.

(** The end-point values of [g = f - E_target] on a built model. *)
Lemma model_ends (g : group) (d : family_model) :
  build_family g = Ok d ->
  (exists a0, Pchip.call (fm_interp d) (fm_tmin d) = Num a0 /\ a0 == nth 0 (fm_E d) 0)
  /\ (exists a1, Pchip.call (fm_interp d) (fm_tmax d) = Num a1
        /\ a1 == nth (List.length (fm_E d) - 1) (fm_E d) 0).
Proof.
  intros H. destruct (build_family_ok g d H) as (Hp & _).
  destruct (build_family_shape g d H) as (H2 & Hlen & _ & Htmin & Htmax).
  rewrite Htmin, Htmax, Hlen. split.
  - apply (call_knot _ _ _ Hp 0). lia.
  - apply (call_knot _ _ _ Hp). lia.
Qed.

(* ------------------------------------------------------------------ *)
(** ** Strings *)

Lemma str_app_assoc (a b c : string) : ((a ++ b) ++ c)%string = (a ++ (b ++ c))%string.
Proof. induction a as [|ch a IH]; simpl; [reflexivity|]. rewrite IH. reflexivity. Qed.

Lemma split1_prefix (fam rest : string) :
  ~ In "_"%char (list_ascii_of_string fam) ->
  PyStr.split1 "_" (fam ++ String "_" rest) = [fam; rest].
Proof.
  induction fam as [|c fam IH]; intros Hn; simpl; [reflexivity|].
  simpl in Hn. destruct (Ascii.eqb c "_") eqn:E.
  - apply Ascii.eqb_eq in E. exfalso. apply Hn. left. exact E.
  - rewrite IH by (intros H; apply Hn; right; exact H). reflexivity.
Qed.

Lemma split1_none (s : string) :
  ~ In "_"%char (list_ascii_of_string s) -> PyStr.split1 "_" s = [s].
Proof.
  induction s as [|c s IH]; intros Hn; simpl; [reflexivity|].
  simpl in Hn. destruct (Ascii.eqb c "_") eqn:E.
  - apply Ascii.eqb_eq in E. exfalso. apply Hn. left. exact E.
  - rewrite IH by (intros H; apply Hn; right; exact H). reflexivity.
Qed.

Lemma replace_app (old : ascii) (new a b : string) :
  PyStr.replace old new (a ++ b) = (PyStr.replace old new a ++ PyStr.replace old new b)%string.
Proof.
  induction a as [|c a IH]; simpl; [reflexivity|].
  destruct (Ascii.eqb c old); rewrite IH; [apply eq_sym, str_app_assoc|reflexivity].
Qed.

(* ------------------------------------------------------------------ *)
(** ** The csv loop *)

Lemma load_rows_err (rows : list csv_row) (e : exn) :
  load_rows rows = Err e
  <-> exists pre row post, rows = pre ++ row :: post
        /\ (forall r, In r pre -> exists p, load_row r = Ok p)
        /\ load_row row = Err e.
Proof.
  induction rows as [|r rest IH]; cbn [load_rows].
  - split; [discriminate|]. intros (pre & row & post & Hr & _). destruct pre; discriminate.
  - destruct (load_row r) as [p|e'] eqn:Er; cbn [bind].
    + assert (Hb : forall m : result (list phantom),
                 bind m (fun ps => Ok (p :: ps)) = Err e <-> m = Err e)
        by (intros [|]; simpl; split; congruence).
      rewrite Hb, IH. split.
      * intros (pre & row & post & Hr & Hpre & Hrow). exists (r :: pre), row, post.
        split; [rewrite Hr; reflexivity|]. split; [|exact Hrow].
        intros r' [<-|Hr']; [exists p; exact Er|apply Hpre; exact Hr'].
      * intros (pre & row & post & Hr & Hpre & Hrow).
        destruct pre as [|r0 pre]; simpl in Hr; injection Hr as -> Hr; [congruence|].
        exists pre, row, post. split; [exact Hr|]. split; [|exact Hrow].
        intros r' Hr'. apply Hpre. right. exact Hr'.
    + split.
      * intros [= ->]. exists [], r, rest. split; [reflexivity|]. split; [intros ? []|exact Er].
      * intros (pre & row & post & Hr & Hpre & Hrow).
        destruct pre as [|r0 pre]; simpl in Hr; injection Hr as -> Hr.
        -- congruence.
        -- destruct (Hpre r0 (or_introl eq_refl)) as [p Hp]. congruence.
Qed.

(* ------------------------------------------------------------------ *)
(** ** The stable sort of [all_measured] *)

Lemma insert_by_E_perm (m : measured) (l : list measured) :
  Permutation (insert_by_E m l) (m :: l).
Proof.
  induction l as [|m' l IH]; simpl; [reflexivity|].
  destruct (Qle_bool (mE m) (mE m')); [reflexivity|].
  rewrite IH. apply perm_swap.
Qed.

Lemma all_measured_perm (ps : list phantom) :
  Permutation (all_measured ps) (map measured_of ps).
Proof.
  unfold all_measured. induction (map measured_of ps) as [|m l IH]; simpl; [reflexivity|].
  rewrite insert_by_E_perm, IH. reflexivity.
Qed.

Lemma sorted_by_E_cons (a : measured) (l : list measured) :
  sorted_by_E l -> (forall m, In m l -> mE a <= mE m) -> sorted_by_E (a :: l).
Proof.
  destruct l as [|b l]; simpl; intros Hs H; [exact I|].
  split; [apply H; left; reflexivity|exact Hs].
Qed.

Lemma insert_by_E_sorted (m : measured) (l : list measured) :
  sorted_by_E l -> sorted_by_E (insert_by_E m l).
Proof.
  induction l as [|m' l IH]; simpl; intros Hs; [exact I|].
  destruct (Qle_bool (mE m) (mE m')) eqn:E.
  - apply sorted_by_E_cons; [exact Hs|]. intros x [<-|Hx].
    + apply Qle_bool_iff. exact E.
    + apply Qle_bool_iff in E. pose proof (sorted_by_E_head _ _ Hs x Hx). lra.
  - apply Qle_bool_false in E. apply sorted_by_E_cons.
    + apply IH. apply (sorted_by_E_tail _ _ Hs).
    + intros x Hx. apply (Permutation_in _ (insert_by_E_perm m l)) in Hx.
      destruct Hx as [<-|Hx]; [lra|]. apply (sorted_by_E_head _ _ Hs x Hx).
Qed.

Lemma all_measured_sorted (ps : list phantom) : sorted_by_E (all_measured ps).
Proof.
  unfold all_measured. induction (map measured_of ps) as [|m l IH]; simpl; [exact I|].
  apply insert_by_E_sorted. exact IH.
Qed.

Definition same_E (e : Q) (m : measured) : bool := Qeq_bool (mE m) e.

Lemma insert_by_E_filter (e : Q) (m : measured) (l : list measured) :
  filter (same_E e) (insert_by_E m l)
  = if same_E e m then m :: filter (same_E e) l else filter (same_E e) l.
Proof.
  induction l as [|m' l IH]; simpl; [destruct (same_E e m); reflexivity|].
  destruct (Qle_bool (mE m) (mE m')) eqn:E; [reflexivity|].
  simpl. rewrite IH. apply Qle_bool_false in E.
  destruct (same_E e m) eqn:Em, (same_E e m') eqn:Em'; try reflexivity.
  unfold same_E in Em, Em'. apply Qeq_bool_true in Em. apply Qeq_bool_true in Em'. lra.
Qed.

Lemma all_measured_stable (ps : list phantom) (e : Q) :
  filter (same_E e) (all_measured ps) = filter (same_E e) (map measured_of ps).
Proof.
  unfold all_measured. induction (map measured_of ps) as [|m l IH]; simpl; [reflexivity|].
  rewrite insert_by_E_filter, IH. reflexivity.
Qed.

Lemma filter_none {A : Type} (f : A -> bool) (l : list A) :
  (forall x, In x l -> f x = false) -> filter f l = [].
Proof.
  induction l as [|a l IH]; intros H; simpl; [reflexivity|].
  rewrite (H a (or_introl eq_refl)). apply IH. intros x Hx. apply H. right. exact Hx.
Qed.

Lemma same_E_self (m : measured) : same_E (mE m) m = true.
Proof. unfold same_E. apply Qeq_bool_iff. reflexivity. Qed.

(* ------------------------------------------------------------------ *)
(** ** Dict lookups of the result panel *)

Lemma lookup_In (fam : string) (fams : list (string * family_model)) (d : family_model) :
  lookup fam fams = Some d -> In (fam, d) fams.
Proof.
  induction fams as [|[f d'] rest IH]; simpl; [discriminate|].
  destruct (String.eqb f fam) eqn:E.
  - apply String.eqb_eq in E. subst f. intros [= ->]. left. reflexivity.
  - intros H. right. apply IH. exact H.
Qed.

Lemma lookup_None (fam : string) (fams : list (string * family_model)) :
  lookup fam fams = None <-> ~ In fam (map fst fams).
Proof.
  induction fams as [|[f d'] rest IH]; simpl; [tauto|].
  destruct (String.eqb f fam) eqn:E.
  - apply String.eqb_eq in E. split; [discriminate|]. intros H. exfalso. apply H. left. exact E.
  - apply String.eqb_neq in E. rewrite IH. tauto.
Qed.

Lemma lookup_NoDup (fam : string) (fams : list (string * family_model)) (d : family_model) :
  NoDup (map fst fams) -> In (fam, d) fams -> lookup fam fams = Some d.
Proof.
  induction fams as [|[f d'] rest IH]; simpl; intros Hnd Hin; [destruct Hin|].
  inversion Hnd as [|? ? Hn Hnd']; subst.
  destruct (String.eqb f fam) eqn:E.
  - apply String.eqb_eq in E. subst f. destruct Hin as [[= ->]|Hin]; [reflexivity|].
    exfalso. apply Hn. apply (in_map fst _ _ Hin).
  - apply String.eqb_neq in E. destruct Hin as [[= -> ->]|Hin]; [congruence|].
    apply IH; assumption.
Qed.

Lemma existsb_eqb_In (f : string) (l : list string) : existsb (String.eqb f) l = true <-> In f l.
Proof.
  rewrite existsb_exists. split.
  - intros (x & Hx & E). apply String.eqb_eq in E. subst x. exact Hx.
  - intros H. exists f. split; [exact H|]. apply String.eqb_refl.
Qed.

Lemma feasible_sorted_In (fs : list string) (f : string) :
  In f (feasible_sorted fs) <-> In f FAMILIES_ORDER /\ In f fs.
Proof. unfold feasible_sorted. rewrite filter_In, existsb_eqb_In. reflexivity. Qed.

Lemma feasible_In (fams : list (string * family_model)) (E_target : Q) (f : string) :
  In f (feasible fams E_target)
  <-> exists d, In (f, d) fams /\ fm_Emin d <= E_target /\ E_target <= fm_Emax d.
Proof.
  unfold feasible. rewrite in_map_iff. split.
  - intros ([f' d] & Ef & Hin). simpl in Ef. subst f'. apply filter_In in Hin.
    destruct Hin as [Hin Hb]. apply andb_true_iff in Hb. destruct Hb as [B1 B2].
    exists d. split; [exact Hin|]. split; apply Qle_bool_iff; assumption.
  - intros (d & Hin & B1 & B2). exists (f, d). split; [reflexivity|].
    apply filter_In. split; [exact Hin|]. apply andb_true_iff.
    split; apply Qle_bool_iff; assumption.
Qed.

Lemma invert_all_ok (fams : list (string * family_model)) (fs : list string) (E_target : Q)
    (rs : list (string * (Q * fval))) :
  invert_all fams fs E_target = inr rs ->
  map fst rs = fs
  /\ forall f r, In (f, r) rs ->
       exists d, lookup f fams = Some d /\ invert_family d E_target = Ok r.
Proof.
  revert rs. induction fs as [|f fs IH]; simpl; intros rs H.
  - injection H as <-. split; [reflexivity|]. intros ? ? [].
  - destruct (lookup f fams) as [d|] eqn:El; [|discriminate].
    destruct (invert_family d E_target) as [r|e] eqn:Ei; [|discriminate].
    destruct (invert_all fams fs E_target) as [e|rs'] eqn:Er; [discriminate|].
    injection H as <-. destruct (IH rs' eq_refl) as [Hk Hr]. split; [simpl; rewrite Hk; reflexivity|].
    intros f' r' [[= <- <-]|Hin]; [exists d; split; assumption|]. apply Hr. exact Hin.
Qed.

Lemma invert_all_keyerror (fams : list (string * family_model)) (fs : list string)
    (E_target : Q) (k : string) :
  invert_all fams fs E_target = inl (KeyError k) -> In k fs /\ lookup k fams = None.
Proof.
  induction fs as [|f fs IH]; simpl; [discriminate|].
  destruct (lookup f fams) as [d|] eqn:El.
  - destruct (invert_family d E_target) as [r|e]; [|discriminate].
    destruct (invert_all fams fs E_target) as [e|rs'] eqn:Er; [|discriminate].
    intros H. destruct (IH H) as [Hin Hl]. split; [right; exact Hin|exact Hl].
  - intros [= <-]. split; [left; reflexivity|exact El].
Qed.

(** The keys of the built models are unique. *)
Lemma build_family_models_NoDup (ps : list phantom) (fams : list (string * family_model)) :
  build_family_models ps = Ok fams -> NoDup (map fst fams).
Proof.
  intros H. unfold build_family_models in H. rewrite (build_all_keys _ _ H).
  apply (group_phantoms_inv ps).
Qed.

(* ================================================================== *)
(** * Claims *)

(** ** C1 *)

(** C1 (corrected): evaluating the interpolant of a built family model
    never raises; with [extrapolate=False] it returns NaN for a
    concentration strictly outside [[tmin, tmax]], and it returns NaN for
    no concentration inside. *)
Theorem evaluate_nan_iff_outside_domain (g : group) (d : family_model) (x : Q) :
  build_family g = Ok d ->
  (Pchip.call (fm_interp d) x = NaN <-> x < fm_tmin d \/ fm_tmax d < x).
Proof. intros H. apply (model_call_NaN g d x H). Qed.

Lemma evaluate_nan_iff_outside_domain_witness :
  build_family group_F = Ok model_F
  /\ (Pchip.call (fm_interp model_F) 75 = NaN <-> 75 < fm_tmin model_F \/ fm_tmax model_F < 75).
Proof.
  split; [vm_compute; reflexivity|].
  apply (evaluate_nan_iff_outside_domain group_F model_F 75). vm_compute. reflexivity.
Defined.

(** Counterexample to C1: at 75%, outside the domain [[0, 50]] of family
    F, evaluation returns the value NaN instead of failing. *)
Lemma evaluate_outside_domain_returns_nan :
  build_family group_F = Ok model_F /\ fm_tmax model_F < 75
  /\ Pchip.call (fm_interp model_F) 75 = NaN.
Proof. vm_compute. split; [reflexivity|split; reflexivity]. Qed.

(** ** C5 *)

(** C5: for a built family whose measured values, in order of
    concentration, are non-decreasing, the interpolant is non-decreasing
    on the whole domain and between two adjacent knots stays between
    their measured values; for non-increasing values, the mirror image. *)
Theorem pchip_shape_preserving (g : group) (d : family_model) :
  build_family g = Ok d ->
  (nondecreasing (fm_E d) = true ->
     (forall v w a b, Pchip.call (fm_interp d) v = Num a -> Pchip.call (fm_interp d) w = Num b ->
        v <= w -> a <= b)
     /\ (forall k v a, (S k < List.length (fm_t d))%nat ->
           nth k (fm_t d) 0 <= v -> v <= nth (S k) (fm_t d) 0 ->
           Pchip.call (fm_interp d) v = Num a ->
           nth k (fm_E d) 0 <= a /\ a <= nth (S k) (fm_E d) 0))
  /\ (nonincreasing (fm_E d) = true ->
     (forall v w a b, Pchip.call (fm_interp d) v = Num a -> Pchip.call (fm_interp d) w = Num b ->
        v <= w -> b <= a)
     /\ (forall k v a, (S k < List.length (fm_t d))%nat ->
           nth k (fm_t d) 0 <= v -> v <= nth (S k) (fm_t d) 0 ->
           Pchip.call (fm_interp d) v = Num a ->
           nth (S k) (fm_E d) 0 <= a /\ a <= nth k (fm_E d) 0)).
Proof.
  intros H. destruct (build_family_ok g d H) as (Hp & _).
  split; intros Hmon; split.
  - intros v w a b. apply (interp_mono_inc _ _ _ Hp Hmon).
  - intros k v a Hk Hlo Hhi Ea.
    destruct (call_knot _ _ _ Hp k ltac:(lia)) as (a0 & E0 & Q0).
    destruct (call_knot _ _ _ Hp (S k) Hk) as (a1 & E1 & Q1).
    pose proof (interp_mono_inc _ _ _ Hp Hmon _ _ _ _ E0 Ea Hlo).
    pose proof (interp_mono_inc _ _ _ Hp Hmon _ _ _ _ Ea E1 Hhi).
    split; lra.
  - intros v w a b. apply (interp_mono_dec _ _ _ Hp Hmon).
  - intros k v a Hk Hlo Hhi Ea.
    destruct (call_knot _ _ _ Hp k ltac:(lia)) as (a0 & E0 & Q0).
    destruct (call_knot _ _ _ Hp (S k) Hk) as (a1 & E1 & Q1).
    pose proof (interp_mono_dec _ _ _ Hp Hmon _ _ _ _ E0 Ea Hlo).
    pose proof (interp_mono_dec _ _ _ Hp Hmon _ _ _ _ Ea E1 Hhi).
    split; lra.
Qed.

Lemma pchip_shape_preserving_witness :
  build_family group_F = Ok model_F
  /\ ((nondecreasing (fm_E model_F) = true ->
     (forall v w a b, Pchip.call (fm_interp model_F) v = Num a ->
        Pchip.call (fm_interp model_F) w = Num b -> v <= w -> a <= b)
     /\ (forall k v a, (S k < List.length (fm_t model_F))%nat ->
           nth k (fm_t model_F) 0 <= v -> v <= nth (S k) (fm_t model_F) 0 ->
           Pchip.call (fm_interp model_F) v = Num a ->
           nth k (fm_E model_F) 0 <= a /\ a <= nth (S k) (fm_E model_F) 0))
  /\ (nonincreasing (fm_E model_F) = true ->
     (forall v w a b, Pchip.call (fm_interp model_F) v = Num a ->
        Pchip.call (fm_interp model_F) w = Num b -> v <= w -> b <= a)
     /\ (forall k v a, (S k < List.length (fm_t model_F))%nat ->
           nth k (fm_t model_F) 0 <= v -> v <= nth (S k) (fm_t model_F) 0 ->
           Pchip.call (fm_interp model_F) v = Num a ->
           nth (S k) (fm_E model_F) 0 <= a /\ a <= nth k (fm_E model_F) 0))).
Proof.
  split; [vm_compute; reflexivity|].
  apply (pchip_shape_preserving group_F model_F). vm_compute. reflexivity.
Defined.

(** ** C7 *)




(** ** C8 *)

(** C8 (corrected): [invert_family] does not check feasibility; for a
    target strictly outside [[Emin, Emax]] of a built model, the end-point
    values of [f - target] have the same sign and [brentq] raises
    [ValueError("f(a) and f(b) must have different signs")]. *)
Theorem invert_infeasible_signerr (g : group) (d : family_model) (E_target : Q) :
  build_family g = Ok d ->
  E_target < fm_Emin d \/ fm_Emax d < E_target ->
  invert_family d E_target = Err (ValueError "f(a) and f(b) must have different signs").
Proof.
  intros H Hout.
  destruct (build_family_ok g d H) as (Hp & _ & _ & _ & _ & Hmin & Hmax).
  destruct (build_family_shape g d H) as (H2 & Hlen & _ & Htmin & Htmax).
  destruct (call_knot _ _ _ Hp 0 ltac:(lia)) as (a0 & E0 & Q0).
  destruct (call_knot _ _ _ Hp (List.length (fm_t d) - 1) ltac:(lia)) as (a1 & E1 & Q1).
  assert (In0 : In (nth 0 (fm_E d) 0) (fm_E d)) by (apply nth_In; lia).
  assert (In1 : In (nth (List.length (fm_t d) - 1) (fm_E d) 0) (fm_E d)) by (apply nth_In; lia).
  pose proof (list_min_le _ _ In0). pose proof (list_min_le _ _ In1).
  pose proof (list_max_ge _ _ In0). pose proof (list_max_ge _ _ In1).
  rewrite <- Hmin in *. rewrite <- Hmax in *.
  unfold invert_family.
  rewrite (brentq_signerr (invert_g (fm_interp d) E_target) (fm_tmin d) (fm_tmax d)
             (a0 - E_target) (a1 - E_target)).
  - reflexivity.
  - unfold invert_g. rewrite Htmin, E0. reflexivity.
  - unfold invert_g. rewrite Htmax, E1. reflexivity.
  - destruct Hout; lra.
  - destruct Hout; lra.
  - destruct Hout as [Hlt|Hlt].
    + rewrite (proj2 (signbit_false (a0 - E_target))) by lra.
      rewrite (proj2 (signbit_false (a1 - E_target))) by lra. reflexivity.
    + rewrite (proj2 (signbit_iff (a0 - E_target))) by lra.
      rewrite (proj2 (signbit_iff (a1 - E_target))) by lra. reflexivity.
Qed.

Lemma invert_infeasible_signerr_witness :
  build_family group_F = Ok model_F
  /\ invert_family model_F 200 = Err (ValueError "f(a) and f(b) must have different signs").
Proof.
  split; [vm_compute; reflexivity|].
  apply (invert_infeasible_signerr group_F model_F 200).
  - vm_compute. reflexivity.
  - right. vm_compute. reflexivity.
Defined.

(** Counterexample to C8: for family F (range [[20, 100]]) and target
    200, the inverter raises brentq's sign error, not an infeasibility
    error of its own. *)
Lemma invert_infeasible_is_brentq_error :
  build_family group_F = Ok model_F /\ fm_Emax model_F < 200
  /\ invert_family model_F 200 = Err (ValueError "f(a) and f(b) must have different signs").
Proof. vm_compute. repeat split; reflexivity. Qed.

(** ** C10 *)

(** C10: whenever [invert_family] returns [(t, _)] for a built model,
    [tmin <= t <= tmax]: brentq only returns points where the
    interpolant was evaluated to a number, and it is NaN outside the
    domain. *)
Theorem invert_within_domain (g : group) (d : family_model) (E_target t : Q) (Ep : fval) :
  build_family g = Ok d -> invert_family d E_target = Ok (t, Ep) ->
  fm_tmin d <= t /\ t <= fm_tmax d.
Proof.
  intros H Hinv. destruct (invert_family_ok d E_target t Ep Hinv) as [Hb _].
  destruct (brentq_post _ _ _ _ Hb) as (v & Ev & _).
  destruct (invert_g_Num _ _ _ _ Ev) as (a & Ea & _).
  apply (model_call_Num_in g d t a H Ea).
Qed.

Lemma invert_within_domain_witness :
  build_family group_F = Ok model_F
  /\ fm_tmin model_F
     <= (match invert_family model_F 60 with Ok (t, _) => t | Err _ => 0 end)
  /\ (match invert_family model_F 60 with Ok (t, _) => t | Err _ => 0 end) <= fm_tmax model_F.
Proof.
  split; [vm_compute; reflexivity|].
  apply (invert_within_domain group_F model_F 60
           (match invert_family model_F 60 with Ok (t, _) => t | Err _ => 0 end)
           (match invert_family model_F 60 with Ok (_, e) => e | Err _ => NaN end)).
  - vm_compute. reflexivity.
  - vm_compute. reflexivity.
Defined.

(** ** C2 *)

(** C2 (corrected): for a list sorted ascending by modulus and any target,
    [lower] is [None] iff every value is above the target, and otherwise
    is the LAST entry with value [<= target] (so it has the greatest such
    value); [upper] is [None] iff every value is below the target, and
    otherwise is the FIRST entry with value [>= target] (the least such
    value).  When exactly one measurement has a value equal to the
    target, it is both [lower] and [upper]; when several tie at the
    target, [lower] is the last and [upper] the first of them. *)
Theorem nearest_bounds_sorted_spec (l : list measured) (E_target : Q) :
  sorted_by_E l ->
  (fst (nearest_bounds l E_target) = None <-> forall m, In m l -> E_target < mE m)
  /\ (snd (nearest_bounds l E_target) = None <-> forall m, In m l -> mE m < E_target)
  /\ (forall lo, fst (nearest_bounds l E_target) = Some lo ->
        In lo l /\ mE lo <= E_target
        /\ (forall m, In m l -> mE m <= E_target -> mE m <= mE lo)
        /\ exists pre post, l = pre ++ lo :: post /\ forall m, In m post -> E_target < mE m)
  /\ (forall up, snd (nearest_bounds l E_target) = Some up ->
        In up l /\ E_target <= mE up
        /\ (forall m, In m l -> E_target <= mE m -> mE up <= mE m)
        /\ exists pre post, l = pre ++ up :: post /\ forall m, In m pre -> mE m < E_target)
  /\ (forall m, In m l -> mE m == E_target ->
        (forall m', In m' l -> mE m' == E_target -> m' = m) ->
        nearest_bounds l E_target = (Some m, Some m)).
Proof.
  intros Hs. rewrite nearest_bounds_eq. simpl.
  assert (HL : forall lo, last_le E_target l = Some lo ->
        In lo l /\ mE lo <= E_target
        /\ (forall m, In m l -> mE m <= E_target -> mE m <= mE lo)
        /\ exists pre post, l = pre ++ lo :: post
             /\ forall m, In m post -> E_target < mE m).
  { intros lo Hlo. destruct (last_le_Some _ _ _ Hlo) as (Hx & pre & post & El & Hpost).
    subst l. destruct (sorted_by_E_app _ _ _ Hs) as [Hpre _].
    split; [apply in_or_app; right; left; reflexivity|]. split; [exact Hx|].
    split; [|exists pre, post; split; [reflexivity|exact Hpost]].
    intros m Hm Hmt. apply in_app_or in Hm. destruct Hm as [Hm|[<-|Hm]].
    - apply Hpre. exact Hm.
    - apply Qle_refl.
    - specialize (Hpost m Hm). lra. }
  assert (HU : forall up, first_ge E_target l = Some up ->
        In up l /\ E_target <= mE up
        /\ (forall m, In m l -> E_target <= mE m -> mE up <= mE m)
        /\ exists pre post, l = pre ++ up :: post
             /\ forall m, In m pre -> mE m < E_target).
  { intros up Hup. destruct (first_ge_Some _ _ _ Hup) as (Hx & pre & post & El & Hpre).
    subst l. destruct (sorted_by_E_app _ _ _ Hs) as [_ Hpost].
    split; [apply in_or_app; right; left; reflexivity|]. split; [exact Hx|].
    split; [|exists pre, post; split; [reflexivity|exact Hpre]].
    intros m Hm Hmt. apply in_app_or in Hm. destruct Hm as [Hm|[<-|Hm]].
    - specialize (Hpre m Hm). lra.
    - apply Qle_refl.
    - apply Hpost. exact Hm. }
  split; [apply last_le_None|]. split; [apply first_ge_None|].
  split; [exact HL|]. split; [exact HU|].
  intros m Hm Hmt Huniq.
  destruct (last_le E_target l) as [lo|] eqn:Elo.
  2:{ exfalso. specialize (proj1 (last_le_None _ _) Elo m Hm). lra. }
  destruct (first_ge E_target l) as [up|] eqn:Eup.
  2:{ exfalso. specialize (proj1 (first_ge_None _ _) Eup m Hm). lra. }
  destruct (HL lo eq_refl) as (Hlo_in & Hlo & Hlo_max & _).
  destruct (HU up eq_refl) as (Hup_in & Hup & Hup_min & _).
  pose proof (Hlo_max m Hm ltac:(lra)). pose proof (Hup_min m Hm ltac:(lra)).
  rewrite (Huniq lo Hlo_in ltac:(lra)), (Huniq up Hup_in ltac:(lra)).
  reflexivity.
Qed.

Lemma nearest_bounds_sorted_spec_witness :
  sorted_by_E tie_measured
  /\ (fst (nearest_bounds tie_measured 50) = None <-> forall m, In m tie_measured -> 50 < mE m)
  /\ (snd (nearest_bounds tie_measured 50) = None <-> forall m, In m tie_measured -> mE m < 50)
  /\ (forall lo, fst (nearest_bounds tie_measured 50) = Some lo ->
        In lo tie_measured /\ mE lo <= 50
        /\ (forall m, In m tie_measured -> mE m <= 50 -> mE m <= mE lo)
        /\ exists pre post, tie_measured = pre ++ lo :: post
             /\ forall m, In m post -> 50 < mE m)
  /\ (forall up, snd (nearest_bounds tie_measured 50) = Some up ->
        In up tie_measured /\ 50 <= mE up
        /\ (forall m, In m tie_measured -> 50 <= mE m -> mE up <= mE m)
        /\ exists pre post, tie_measured = pre ++ up :: post
             /\ forall m, In m pre -> mE m < 50)
  /\ (forall m, In m tie_measured -> mE m == 50 ->
        (forall m', In m' tie_measured -> mE m' == 50 -> m' = m) ->
        nearest_bounds tie_measured 50 = (Some m, Some m)).
Proof.
  assert (Hs : sorted_by_E tie_measured).
  { simpl. split; [apply Qle_bool_iff; vm_compute; reflexivity|exact I]. }
  split; [exact Hs|].
  apply (nearest_bounds_sorted_spec tie_measured 50 Hs).
Defined.

(** Counterexample to C2: with two measurements tied at the target 50,
    each of them has a value equal to the target, but [nearest_bounds]
    returns the second as [lower] and the first as [upper]. *)
Lemma nearest_bounds_tie_split :
  sorted_by_E tie_measured
  /\ nearest_bounds tie_measured 50
     = (Some (50, "B_0T"%string, "B"%string, 0), Some (50, "A_0T"%string, "A"%string, 0)).
Proof.
  split.
  - simpl. split; [apply Qle_bool_iff; vm_compute; reflexivity|exact I].
  - vm_compute. reflexivity.
Qed.

(** ** C3 *)

(** C3: for the models built from a table of phantoms, a family is in
    [feasible] for a target iff the target lies in the family's measured
    range, inclusive at both ends: some phantom of the family has a value
    [<= target] and some has a value [>= target].  Moreover [Emin] and
    [Emax] of every model are the least and the greatest value measured
    for its family. *)
Theorem feasible_iff_in_range (ps : list phantom) (fams : list (string * family_model))
    (E_target : Q) :
  build_family_models ps = Ok fams ->
  (forall fam, In fam (feasible fams E_target) <->
     exists l1 t1 e1 l2 t2 e2, In (l1, fam, t1, e1) ps /\ In (l2, fam, t2, e2) ps
       /\ e1 <= E_target /\ E_target <= e2)
  /\ (forall fam d, In (fam, d) fams ->
       (exists l t, In (l, fam, t, fm_Emin d) ps) /\ (exists l t, In (l, fam, t, fm_Emax d) ps)
       /\ forall l t e, In (l, fam, t, e) ps -> fm_Emin d <= e /\ e <= fm_Emax d).
Proof.
  intros H. destruct (group_phantoms_inv ps) as (_ & Hrows & _).
  assert (Hrange : forall fam d, In (fam, d) fams ->
       (exists l t, In (l, fam, t, fm_Emin d) ps) /\ (exists l t, In (l, fam, t, fm_Emax d) ps)
       /\ forall l t e, In (l, fam, t, e) ps -> fm_Emin d <= e /\ e <= fm_Emax d).
  { intros fam d Hd. destruct (build_all_out _ _ H fam d Hd) as (g & Hg & Eg).
    destruct (build_family_ok g d Eg) as (_ & _ & _ & _ & _ & Hmin & Hmax).
    destruct (build_family_shape g d Eg) as (H2 & Hlen & _).
    assert (Hne : fm_E d <> []) by (intros Hn; rewrite Hn in Hlen; simpl in Hlen; lia).
    pose proof (Hrows fam g Hg) as (_ & _ & Hr).
    split; [|split].
    - destruct (proj1 (model_E_in g d _ Eg) (list_min_in _ Hne)) as (t & l & Hin).
      exists l, t. rewrite Hmin. apply Hr. exact Hin.
    - destruct (proj1 (model_E_in g d _ Eg) (list_max_in _ Hne)) as (t & l & Hin).
      exists l, t. rewrite Hmax. apply Hr. exact Hin.
    - intros l t e Hin. apply Hr in Hin.
      assert (He : In e (fm_E d)) by (apply (model_E_in g d e Eg); exists t, l; exact Hin).
      rewrite Hmin, Hmax. split; [apply list_min_le|apply list_max_ge]; exact He. }
  split; [|exact Hrange].
  intros fam. unfold feasible. rewrite in_map_iff. split.
  - intros ([f d] & Ef & Hin). simpl in Ef. subst f.
    apply filter_In in Hin. destruct Hin as [Hd Hb].
    apply andb_true_iff in Hb. destruct Hb as [Hb1 Hb2].
    apply Qle_bool_iff in Hb1. apply Qle_bool_iff in Hb2.
    destruct (Hrange fam d Hd) as ((l1 & t1 & P1) & (l2 & t2 & P2) & _).
    exists l1, t1, (fm_Emin d), l2, t2, (fm_Emax d). repeat split; assumption.
  - intros (l1 & t1 & e1 & l2 & t2 & e2 & P1 & P2 & He1 & He2).
    destruct (models_of_phantom ps fams l1 fam t1 e1 H P1) as (g & d & Hg & Hd & Eg & _).
    destruct (Hrange fam d Hd) as (_ & _ & Hb).
    destruct (Hb _ _ _ P1) as [B1 _]. destruct (Hb _ _ _ P2) as [_ B2].
    exists (fam, d). split; [reflexivity|]. apply filter_In. split; [exact Hd|].
    apply andb_true_iff. split; apply Qle_bool_iff; lra.
Qed.

Lemma feasible_iff_in_range_witness :
  build_family_models phantoms_F = Ok fams_F
  /\ (forall fam, In fam (feasible fams_F 60) <->
       exists l1 t1 e1 l2 t2 e2, In (l1, fam, t1, e1) phantoms_F /\ In (l2, fam, t2, e2) phantoms_F
         /\ e1 <= 60 /\ 60 <= e2)
  /\ (forall fam d, In (fam, d) fams_F ->
       (exists l t, In (l, fam, t, fm_Emin d) phantoms_F)
       /\ (exists l t, In (l, fam, t, fm_Emax d) phantoms_F)
       /\ forall l t e, In (l, fam, t, e) phantoms_F -> fm_Emin d <= e /\ e <= fm_Emax d).
Proof.
  assert (H : build_family_models phantoms_F = Ok fams_F) by (vm_compute; reflexivity).
  split; [exact H|]. apply (feasible_iff_in_range phantoms_F fams_F 60 H).
Defined.

(** ** C6 *)

(** C6: when the models of a table of phantoms are built, each family has
    exactly one model, and for every phantom [(label, fam, t, E)] the
    interpolant of the model of [fam] evaluated at [t] returns [E]. *)
Theorem evaluate_at_knots (ps : list phantom) (fams : list (string * family_model)) :
  build_family_models ps = Ok fams ->
  NoDup (map fst fams)
  /\ forall l fam t e, In (l, fam, t, e) ps ->
       exists d, In (fam, d) fams
         /\ exists v, Pchip.call (fm_interp d) t = Num v /\ v == e.
Proof.
  intros H. split.
  - unfold build_family_models in H. rewrite (build_all_keys _ _ H).
    destruct (group_phantoms_inv ps) as (Hnd & _). exact Hnd.
  - intros l fam t e Hin.
    destruct (models_of_phantom ps fams l fam t e H Hin) as (g & d & _ & Hd & Eg & Hr).
    exists d. split; [exact Hd|]. apply (model_knot g d t e l Eg Hr).
Qed.

Lemma evaluate_at_knots_witness :
  build_family_models phantoms_F = Ok fams_F
  /\ NoDup (map fst fams_F)
  /\ forall l fam t e, In (l, fam, t, e) phantoms_F ->
       exists d, In (fam, d) fams_F
         /\ exists v, Pchip.call (fm_interp d) t = Num v /\ v == e.
Proof.
  assert (H : build_family_models phantoms_F = Ok fams_F) by (vm_compute; reflexivity).
  split; [exact H|]. apply (evaluate_at_knots phantoms_F fams_F H).
Defined.

(** ** C4 *)

(** C4 (code bug in the plotting script): the app decomposes both
    ["A10_12_5T"] and ["A10_12.5T"] into [("A10", 12.5)], but the
    plotting script, whose comment says it handles both spellings, takes
    [label.split("_")[1]] and reads ["A10_12_5T"] as concentration 12. *)
Theorem label_decoding_app_vs_script :
  decompose_label "A10_12_5T" = Ok ("A10"%string, 125 # 10)
  /\ decompose_label "A10_12.5T" = Ok ("A10"%string, 125 # 10)
  /\ script_decompose_label "A10_12.5T" = Ok ("A10"%string, 125 # 10)
  /\ script_decompose_label "A10_12_5T" = Ok ("A10"%string, 12).
Proof. repeat split; reflexivity. Qed.

(** ** C9 *)

(** C9 (code bug): a table where family F is well formed and family G
    has a single phantom makes [build_family_models] raise for the whole
    table, so no model of F is available; on F alone it succeeds. *)
Theorem single_point_family_aborts_all :
  build_family_models phantoms_F = Ok fams_F
  /\ In "F"%string (map fst fams_F)
  /\ build_family_models phantoms_FG
     = Err (ValueError "`x` must contain at least 2 elements.").
Proof.
  split; [vm_compute; reflexivity|].
  split; [vm_compute; left; reflexivity|vm_compute; reflexivity].
Qed.

(* ================================================================== *)
(** * Further properties of the code *)

(** ** Building the models *)

(** X1: [build_family_models] succeeds iff every family of the table has
    at least two phantoms and no two of them share a concentration. *)
Theorem build_family_models_ok_iff (ps : list phantom) :
  (exists fams, build_family_models ps = Ok fams)
  <-> forall fam, In fam (map ph_fam ps) ->
        (2 <= List.length (fam_ts ps fam))%nat /\ distinct_Q (fam_ts ps fam).
Proof.
  unfold build_family_models. rewrite build_all_ok_iff. split.
  - intros H fam Hin. apply group_phantoms_keys in Hin.
    apply in_map_iff in Hin. destruct Hin as ([k g] & Ek & Hg). simpl in Ek. subst k.
    destruct (group_phantoms_exact ps fam g Hg) as [Er _].
    destruct (proj1 (build_family_ok_iff g) (H fam g Hg)) as [H2 Hd].
    rewrite Er in H2, Hd. rewrite fam_ts_rows, length_map. split; assumption.
  - intros H k g Hg. destruct (group_phantoms_exact ps k g Hg) as [Er Hk].
    apply build_family_ok_iff. rewrite Er. destruct (H k Hk) as [H2 Hd].
    rewrite fam_ts_rows, length_map in H2. rewrite fam_ts_rows in Hd. split; assumption.
Qed.

(** X2: the families of the built dict are exactly the families of the
    table, each once. *)
Theorem build_family_models_keys (ps : list phantom) (fams : list (string * family_model)) :
  build_family_models ps = Ok fams ->
  NoDup (map fst fams) /\ forall fam, In fam (map fst fams) <-> In fam (map ph_fam ps).
Proof.
  intros H. unfold build_family_models in H. rewrite (build_all_keys _ _ H).
  split; [apply (group_phantoms_inv ps)|]. intros fam. apply group_phantoms_keys.
Qed.

Lemma build_family_models_keys_witness :
  build_family_models phantoms_F = Ok fams_F
  /\ NoDup (map fst fams_F)
  /\ forall fam, In fam (map fst fams_F) <-> In fam (map ph_fam phantoms_F).
Proof.
  split; [vm_compute; reflexivity|].
  apply build_family_models_keys. vm_compute. reflexivity.
Defined.

(** X3: the points [(t, E, label)] stored in a family's model are the
    family's phantoms, reordered, with strictly increasing [t]. *)
Theorem model_points_are_family_rows (ps : list phantom) (fams : list (string * family_model))
    (fam : string) (d : family_model) :
  build_family_models ps = Ok fams -> In (fam, d) fams ->
  Permutation (model_rows d) (fam_rows ps fam)
  /\ Pchip.strictly_increasing (fm_t d) = true.
Proof.
  intros H Hin. destruct (build_all_out _ _ H fam d Hin) as (g & Hg & Ed).
  destruct (group_phantoms_exact ps fam g Hg) as [Er _].
  split.
  - rewrite (model_rows_sorted g d Ed), <- Er. apply sort_by_t_perm.
  - apply (build_family_shape g d Ed).
Qed.

Lemma model_points_are_family_rows_witness :
  build_family_models phantoms_F = Ok fams_F
  /\ In ("F"%string, model_F) fams_F
  /\ Permutation (model_rows model_F) (fam_rows phantoms_F "F")
  /\ Pchip.strictly_increasing (fm_t model_F) = true.
Proof.
  split; [vm_compute; reflexivity|]. split; [vm_compute; left; reflexivity|].
  apply (model_points_are_family_rows phantoms_F fams_F "F" model_F).
  - vm_compute. reflexivity.
  - vm_compute. left. reflexivity.
Defined.

(** ** Values of the interpolant *)

(** X4: every value the interpolant of a built model returns lies
    between the measured values at the two neighbouring concentrations,
    hence within [[Emin, Emax]]: no overshoot. *)
Theorem model_values_between_neighbours (g : group) (d : family_model) (v a : Q) :
  build_family g = Ok d -> Pchip.call (fm_interp d) v = Num a ->
  (exists i, (S i < List.length (fm_t d))%nat
     /\ nth i (fm_t d) 0 <= v /\ v <= nth (S i) (fm_t d) 0
     /\ ((nth i (fm_E d) 0 <= a /\ a <= nth (S i) (fm_E d) 0)
         \/ (nth (S i) (fm_E d) 0 <= a /\ a <= nth i (fm_E d) 0)))
  /\ fm_Emin d <= a /\ a <= fm_Emax d.
Proof.
  intros H Ea. split; [apply (model_value_local g d v a H Ea)|].
  apply (model_value_range g d v a H Ea).
Qed.

Lemma model_values_between_neighbours_witness :
  exists a, Pchip.call (fm_interp model_hump) 15 = Num a
  /\ (exists i, (S i < List.length (fm_t model_hump))%nat
     /\ nth i (fm_t model_hump) 0 <= 15 /\ 15 <= nth (S i) (fm_t model_hump) 0
     /\ ((nth i (fm_E model_hump) 0 <= a /\ a <= nth (S i) (fm_E model_hump) 0)
         \/ (nth (S i) (fm_E model_hump) 0 <= a /\ a <= nth i (fm_E model_hump) 0)))
  /\ fm_Emin model_hump <= a /\ a <= fm_Emax model_hump.
Proof.
  eexists. split; [vm_compute; reflexivity|].
  apply (model_values_between_neighbours group_hump model_hump 15).
  - vm_compute. reflexivity.
  - vm_compute. reflexivity.
Defined.

(** X5: a family measured at exactly two concentrations is interpolated
    by the straight line through its two points. *)
Theorem two_point_family_linear (g : group) (d : family_model) (v : Q) :
  build_family g = Ok d -> List.length (fm_t d) = 2%nat ->
  fm_tmin d <= v -> v <= fm_tmax d ->
  exists a, Pchip.call (fm_interp d) v = Num a
    /\ a == nth 0 (fm_E d) 0
            + (nth 1 (fm_E d) 0 - nth 0 (fm_E d) 0) / (fm_tmax d - fm_tmin d) * (v - fm_tmin d).
Proof.
  intros H Hn Hlo Hhi. destruct (build_family_ok g d H) as (Hp & _).
  destruct (build_family_shape g d H) as (H2 & Hlen & Hinc & Htmin & Htmax).
  rewrite Hn in Htmax. simpl in Htmax.
  destruct (model_call_in g d v H Hlo Hhi) as [a Ea]. exists a. split; [exact Ea|].
  destruct (call_Num _ _ _ Hp v a Ea) as (i & Ei & ->).
  destruct (find_interval_Some _ Hinc H2 v i Ei) as (Hi & _).
  assert (i = 0%nat) by lia. subst i.
  rewrite (find_derivatives_two _ _ Hlen H2 Hinc Hn). simpl nth.
  rewrite (slope_eq _ _ _ Hp 0) by lia.
  rewrite Htmin, Htmax.
  pose proof (sinc_adj _ Hinc 0 ltac:(lia)) as Hx.
  unfold Pchip.hermite_piece, Pchip.evaluate_poly1. field. lra.
Qed.

Lemma two_point_family_linear_witness :
  exists a, Pchip.call (fm_interp model_F) 20 = Num a
    /\ a == nth 0 (fm_E model_F) 0
            + (nth 1 (fm_E model_F) 0 - nth 0 (fm_E model_F) 0)
              / (fm_tmax model_F - fm_tmin model_F) * (20 - fm_tmin model_F).
Proof.
  apply (two_point_family_linear group_F model_F 20).
  - vm_compute. reflexivity.
  - vm_compute. reflexivity.
  - apply Qle_bool_iff. vm_compute. reflexivity.
  - apply Qle_bool_iff. vm_compute. reflexivity.
Defined.

(** ** Inversion *)

(** X6: whenever [invert_family] returns [(t_star, E_pred)] on a built
    model, [E_pred] is a number within the family's [[Emin, Emax]]. *)
Theorem invert_prediction_in_range (g : group) (d : family_model) (E_target t : Q) (Ep : fval) :
  build_family g = Ok d -> invert_family d E_target = Ok (t, Ep) ->
  exists a, Ep = Num a /\ fm_Emin d <= a /\ a <= fm_Emax d.
Proof.
  intros H Hinv. destruct (invert_family_ok d E_target t Ep Hinv) as [Hb ->].
  destruct (brentq_post _ _ _ _ Hb) as (v & Ev & _).
  destruct (invert_g_Num _ _ _ _ Ev) as (a & Ea & _).
  exists a. split; [exact Ea|]. apply (model_value_range g d t a H Ea).
Qed.

Lemma invert_prediction_in_range_witness :
  exists a, (match invert_family model_F 60 with Ok (_, e) => e | Err _ => NaN end) = Num a
    /\ fm_Emin model_F <= a /\ a <= fm_Emax model_F.
Proof.
  apply (invert_prediction_in_range group_F model_F 60
           (match invert_family model_F 60 with Ok (t, _) => t | Err _ => 0 end)).
  - vm_compute. reflexivity.
  - vm_compute. reflexivity.
Defined.

(** X7: if the target is strictly below, or strictly above, both the
    first and the last measured value of a family (in concentration
    order), [invert_family] raises brentq's sign error, even when the
    target lies in [[Emin, Emax]]. *)
Theorem invert_same_side_signerr (g : group) (d : family_model) (E_target : Q) :
  build_family g = Ok d ->
  (E_target < nth 0 (fm_E d) 0 /\ E_target < nth (List.length (fm_E d) - 1) (fm_E d) 0)
  \/ (nth 0 (fm_E d) 0 < E_target /\ nth (List.length (fm_E d) - 1) (fm_E d) 0 < E_target) ->
  invert_family d E_target = Err (ValueError "f(a) and f(b) must have different signs").
Proof.
  intros H Hside.
  destruct (model_ends g d H) as [(a0 & E0 & Q0) (a1 & E1 & Q1)].
  unfold invert_family.
  rewrite (brentq_signerr (invert_g (fm_interp d) E_target) (fm_tmin d) (fm_tmax d)
             (a0 - E_target) (a1 - E_target)).
  - reflexivity.
  - unfold invert_g. rewrite E0. reflexivity.
  - unfold invert_g. rewrite E1. reflexivity.
  - destruct Hside; lra.
  - destruct Hside; lra.
  - destruct Hside as [Hlt|Hlt].
    + rewrite (proj2 (signbit_false (a0 - E_target))) by lra.
      rewrite (proj2 (signbit_false (a1 - E_target))) by lra. reflexivity.
    + rewrite (proj2 (signbit_iff (a0 - E_target))) by lra.
      rewrite (proj2 (signbit_iff (a1 - E_target))) by lra. reflexivity.
Qed.

Lemma invert_same_side_signerr_witness :
  fm_Emin model_hump <= 75 /\ 75 <= fm_Emax model_hump
  /\ invert_family model_hump 75 = Err (ValueError "f(a) and f(b) must have different signs").
Proof.
  split; [apply Qle_bool_iff; vm_compute; reflexivity|].
  split; [apply Qle_bool_iff; vm_compute; reflexivity|].
  apply (invert_same_side_signerr group_hump model_hump 75).
  - vm_compute. reflexivity.
  - right. split; vm_compute; reflexivity.
Defined.

(** X8: a target equal to the family's first measured value (in
    concentration order) is inverted to exactly [tmin]; otherwise a target
    equal to its last measured value is inverted to exactly [tmax]; in
    both cases the predicted modulus equals the target. *)
Theorem invert_at_end_values (g : group) (d : family_model) (E_target : Q) :
  build_family g = Ok d ->
  (E_target == nth 0 (fm_E d) 0 ->
     exists a, invert_family d E_target = Ok (fm_tmin d, Num a) /\ a == E_target)
  /\ (~ E_target == nth 0 (fm_E d) 0 ->
      E_target == nth (List.length (fm_E d) - 1) (fm_E d) 0 ->
      exists a, invert_family d E_target = Ok (fm_tmax d, Num a) /\ a == E_target).
Proof.
  intros H. destruct (model_ends g d H) as [(a0 & E0 & Q0) (a1 & E1 & Q1)].
  unfold invert_family, bind, Brent.brentq, Brent.brentq_c, invert_g.
  rewrite E0, E1. split.
  - intros Ht. rewrite (proj2 (Qeq_bool_iff (a0 - E_target) 0)) by lra.
    rewrite E0. exists a0. split; [reflexivity|lra].
  - intros Hn Ht. rewrite (Qeq_bool_of_not (a0 - E_target) 0) by lra.
    rewrite (proj2 (Qeq_bool_iff (a1 - E_target) 0)) by lra.
    rewrite E1. exists a1. split; [reflexivity|lra].
Qed.

Lemma invert_at_end_values_witness :
  exists a, invert_family model_F 20 = Ok (fm_tmax model_F, Num a) /\ a == 20.
Proof.
  apply (invert_at_end_values group_F model_F 20).
  - vm_compute. reflexivity.
  - vm_compute. discriminate.
  - vm_compute. reflexivity.
Defined.

(** ** Labels and the csv loop *)

(** X9: [parse_thinner_from_label] reads ["fam_a_b"] and ["fam_a.b"]
    alike, for any family name without ['_'] and any [a], [b]. *)
Theorem parse_underscore_as_dot (fam a b : string) :
  ~ In "_"%char (list_ascii_of_string fam) ->
  parse_thinner_from_label (fam ++ "_" ++ a ++ "_" ++ b)
  = parse_thinner_from_label (fam ++ "_" ++ a ++ "." ++ b).
Proof.
  intros Hn. unfold parse_thinner_from_label.
  change ("_" ++ a ++ "_" ++ b)%string with (String "_" (a ++ String "_" b)).
  change ("_" ++ a ++ "." ++ b)%string with (String "_" (a ++ String "." b)).
  rewrite !split1_prefix by exact Hn. cbn [PyStr.index nth_error bind].
  rewrite !replace_app. reflexivity.
Qed.

Lemma parse_underscore_as_dot_witness :
  parse_thinner_from_label ("EF10" ++ "_" ++ "12" ++ "_" ++ "5T")
  = parse_thinner_from_label ("EF10" ++ "_" ++ "12" ++ "." ++ "5T").
Proof. apply parse_underscore_as_dot. simpl. intuition discriminate. Defined.

(** X10: a csv row whose stripped [sample_label] contains no ['_'] makes
    the row's decoding raise [IndexError] (from [split("_", 1)[1]]). *)
Theorem load_row_no_underscore (row : csv_row) :
  ~ In "_"%char (list_ascii_of_string (PyStr.strip (sample_label row))) ->
  load_row row = Err (IndexError "list index out of range").
Proof.
  intros Hn. unfold load_row, family_of_label, parse_thinner_from_label.
  rewrite (split1_none _ Hn). reflexivity.
Qed.

Lemma load_row_no_underscore_witness :
  load_row {| sample_label := " EF10 "; elastic_modulus_mean_kPa := "80" |}
  = Err (IndexError "list index out of range").
Proof. apply load_row_no_underscore. simpl. intuition discriminate. Defined.


(** ** [all_measured] and the nearest bounds *)

(** X12: [all_measured] is sorted by modulus, holds each phantom once,
    and keeps rows with equal modulus in table order. *)
Theorem all_measured_stable_sort (ps : list phantom) :
  sorted_by_E (all_measured ps)
  /\ Permutation (all_measured ps) (map measured_of ps)
  /\ forall e, filter (same_E e) (all_measured ps) = filter (same_E e) (map measured_of ps).
Proof.
  split; [apply all_measured_sorted|]. split; [apply all_measured_perm|].
  intros e. apply all_measured_stable.
Qed.

(** X13: on the app's [all_measured], [lower] is [None] iff every phantom
    is above the target, and otherwise a phantom with the greatest
    modulus [<= target], the last in table order among those with that
    modulus; [upper] is [None] iff every phantom is below the target,
    and otherwise a phantom with the least modulus [>= target], the first
    in table order among those with that modulus. *)
Theorem app_nearest_bounds (ps : list phantom) (E_target : Q) :
  (fst (nearest_bounds (all_measured ps) E_target) = None
     <-> forall m, In m (map measured_of ps) -> E_target < mE m)
  /\ (forall x, fst (nearest_bounds (all_measured ps) E_target) = Some x ->
        In x (map measured_of ps) /\ mE x <= E_target
        /\ (forall m, In m (map measured_of ps) -> mE m <= E_target -> mE m <= mE x)
        /\ last (filter (same_E (mE x)) (map measured_of ps)) x = x)
  /\ (snd (nearest_bounds (all_measured ps) E_target) = None
     <-> forall m, In m (map measured_of ps) -> mE m < E_target)
  /\ (forall x, snd (nearest_bounds (all_measured ps) E_target) = Some x ->
        In x (map measured_of ps) /\ E_target <= mE x
        /\ (forall m, In m (map measured_of ps) -> E_target <= mE m -> mE x <= mE m)
        /\ hd x (filter (same_E (mE x)) (map measured_of ps)) = x).
Proof.
  pose proof (all_measured_perm ps) as Hp. pose proof (all_measured_sorted ps) as Hs.
  assert (Hin : forall m, In m (all_measured ps) <-> In m (map measured_of ps))
    by (intros m; split; apply Permutation_in; [exact Hp|apply Permutation_sym; exact Hp]).
  rewrite nearest_bounds_eq. simpl fst. simpl snd.
  split; [|split; [|split]].
  - rewrite last_le_None. split; intros H m Hm; apply H, Hin; exact Hm.
  - intros x Hx. destruct (last_le_Some _ _ _ Hx) as (Hle & pre & post & El & Hpost).
    rewrite El in Hs. destruct (sorted_by_E_app _ _ _ Hs) as [Hpre _].
    split; [apply Hin; rewrite El; apply in_or_app; right; left; reflexivity|].
    split; [exact Hle|]. split.
    + intros m Hm Hmt. apply Hin in Hm. rewrite El in Hm. apply in_app_or in Hm.
      destruct Hm as [Hm|[<-|Hm]]; [apply Hpre; exact Hm|lra|].
      specialize (Hpost m Hm). lra.
    + rewrite <- all_measured_stable, El, filter_app. simpl. rewrite same_E_self.
      rewrite (filter_none _ post).
      * apply last_last.
      * intros m Hm. specialize (Hpost m Hm). unfold same_E.
        apply Qeq_bool_of_not. lra.
  - rewrite first_ge_None. split; intros H m Hm; apply H, Hin; exact Hm.
  - intros x Hx. destruct (first_ge_Some _ _ _ Hx) as (Hle & pre & post & El & Hpre).
    rewrite El in Hs. destruct (sorted_by_E_app _ _ _ Hs) as [_ Hpost].
    split; [apply Hin; rewrite El; apply in_or_app; right; left; reflexivity|].
    split; [exact Hle|]. split.
    + intros m Hm Hmt. apply Hin in Hm. rewrite El in Hm. apply in_app_or in Hm.
      destruct Hm as [Hm|[<-|Hm]]; [|lra|apply Hpost; exact Hm].
      specialize (Hpre m Hm). lra.
    + rewrite <- all_measured_stable, El, filter_app. simpl. rewrite same_E_self.
      rewrite (filter_none _ pre); [reflexivity|].
      intros m Hm. specialize (Hpre m Hm). unfold same_E.
      apply Qeq_bool_of_not. lra.
Qed.

(** ** The result panel *)



(** X15: auto mode never raises [KeyError]: it only looks up families it
    found feasible in the same dict. *)
Theorem auto_mode_no_keyerror (fams : list (string * family_model)) (am : list measured)
    (E_target : Q) (k : string) :
  auto_mode fams am E_target <> inl (KeyError k).
Proof.
  unfold auto_mode. destruct (feasible_sorted (feasible fams E_target)) as [|f0 fs] eqn:Efs.
  - destruct (nearest_bounds am E_target). discriminate.
  - destruct (invert_all fams (f0 :: fs) E_target) as [e|rs] eqn:Ei; [|discriminate].
    intros [= ->]. destruct (invert_all_keyerror _ _ _ _ Ei) as [Hk Hl].
    rewrite <- Efs in Hk. apply feasible_sorted_In in Hk. destruct Hk as [_ Hk].
    apply feasible_In in Hk. destruct Hk as (d & Hd & _).
    apply lookup_None in Hl. apply Hl. apply (in_map fst _ _ Hd).
Qed.

(** X16: on the models built from a table, auto mode lists the feasible
    families among EF50, EF30, EF10 in that order, and for each one the
    predicted concentration lies in the family's [[tmin, tmax]] and the
    predicted modulus is a number in its [[Emin, Emax]]. *)
Theorem auto_mode_recipes (ps : list phantom) (fams : list (string * family_model))
    (am : list measured) (E_target : Q) (rs : list (string * (Q * fval))) :
  build_family_models ps = Ok fams ->
  auto_mode fams am E_target = inr (Recipes rs) ->
  map fst rs = feasible_sorted (feasible fams E_target)
  /\ forall f t Ep, In (f, (t, Ep)) rs ->
       exists d, In (f, d) fams /\ fm_Emin d <= E_target /\ E_target <= fm_Emax d
         /\ fm_tmin d <= t /\ t <= fm_tmax d
         /\ exists a, Ep = Num a /\ fm_Emin d <= a /\ a <= fm_Emax d.
Proof.
  intros Hb. unfold auto_mode.
  destruct (feasible_sorted (feasible fams E_target)) as [|f0 fs] eqn:Efs.
  - destruct (nearest_bounds am E_target). discriminate.
  - destruct (invert_all fams (f0 :: fs) E_target) as [e|rs'] eqn:Ei; [discriminate|].
    intros [= <-]. destruct (invert_all_ok _ _ _ _ Ei) as [Hk Hr].
    split; [exact Hk|]. intros f t Ep Hin.
    destruct (Hr f (t, Ep) Hin) as (d & Hl & Hinv).
    assert (Hf : In f (f0 :: fs)) by (rewrite <- Hk; apply (in_map fst _ _ Hin)).
    rewrite <- Efs in Hf. apply feasible_sorted_In in Hf. destruct Hf as [_ Hf].
    apply feasible_In in Hf. destruct Hf as (d' & Hd' & B1 & B2).
    rewrite (lookup_NoDup f fams d' (build_family_models_NoDup ps fams Hb) Hd') in Hl.
    injection Hl as <-. exists d'. split; [exact Hd'|]. split; [exact B1|]. split; [exact B2|].
    destruct (build_all_out _ _ Hb f d' Hd') as (g & _ & Eg).
    destruct (invert_family_ok d' E_target t Ep Hinv) as [Hbr ->].
    destruct (brentq_post _ _ _ _ Hbr) as (v & Ev & _).
    destruct (invert_g_Num _ _ _ _ Ev) as (a & Ea & _).
    destruct (model_call_Num_in g d' t a Eg Ea) as [T1 T2].
    split; [exact T1|]. split; [exact T2|].
    exists a. split; [exact Ea|]. apply (model_value_range g d' t a Eg Ea).
Qed.

Lemma auto_mode_recipes_witness :
  map fst recipes_EF10 = feasible_sorted (feasible fams_EF10 60)
  /\ forall f t Ep, In (f, (t, Ep)) recipes_EF10 ->
       exists d, In (f, d) fams_EF10 /\ fm_Emin d <= 60 /\ 60 <= fm_Emax d
         /\ fm_tmin d <= t /\ t <= fm_tmax d
         /\ exists a, Ep = Num a /\ fm_Emin d <= a /\ a <= fm_Emax d.
Proof.
  apply (auto_mode_recipes phantoms_EF10 fams_EF10 (all_measured phantoms_EF10) 60 recipes_EF10);
    vm_compute; reflexivity.
Defined.


(** ** The plots *)

(** X18: in [make_plot], for a non-empty table every measured modulus
    lies strictly inside the y-limits. *)
Theorem app_ylim_strict (E_meas : list Q) :
  E_meas <> [] ->
  exists lo hi, app_ylim E_meas = Ok (lo, hi) /\ forall e, In e E_meas -> lo < e /\ e < hi.
Proof.
  intros Hne. unfold app_ylim. destruct E_meas as [|e0 r] eqn:Em; [congruence|].
  rewrite <- Em. eexists. eexists. split; [reflexivity|]. intros e He.
  pose proof (list_min_le _ _ He). pose proof (list_max_ge _ _ He).
  destruct (Qlt_bool (list_min E_meas) (list_max E_meas)) eqn:Elt.
  - apply Qlt_bool_iff in Elt. lra.
  - lra.
Qed.

Lemma app_ylim_strict_witness :
  exists lo hi, app_ylim [50; 50] = Ok (lo, hi) /\ forall e, In e [50; 50] -> lo < e /\ e < hi.
Proof. apply app_ylim_strict. discriminate. Defined.

(** X19: in the script the y-limits contain every measured modulus, and
    the two limits are equal exactly when all measured moduli are equal. *)
Theorem script_ylim_degenerate (E_meas : list Q) :
  E_meas <> [] ->
  exists lo hi, script_ylim E_meas = Ok (lo, hi)
    /\ (forall e, In e E_meas -> lo <= e /\ e <= hi)
    /\ (lo == hi <-> forall e1 e2, In e1 E_meas -> In e2 E_meas -> e1 == e2).
Proof.
  intros Hne.
  pose proof (list_min_in _ Hne) as Imin. pose proof (list_max_in _ Hne) as Imax.
  pose proof (list_min_le _ _ Imax) as Hmm.
  unfold script_ylim. destruct E_meas as [|e0 r]; [congruence|].
  eexists. eexists. split; [reflexivity|].
  split.
  - intros e He. pose proof (list_min_le _ _ He). pose proof (list_max_ge _ _ He). lra.
  - split.
    + intros Heq e1 e2 H1 H2.
      pose proof (list_min_le _ _ H1). pose proof (list_max_ge _ _ H1).
      pose proof (list_min_le _ _ H2). pose proof (list_max_ge _ _ H2). lra.
    + intros H. pose proof (H _ _ Imin Imax). lra.
Qed.

Lemma script_ylim_degenerate_witness :
  exists lo hi, script_ylim [50; 50] = Ok (lo, hi)
    /\ (forall e, In e [50; 50] -> lo <= e /\ e <= hi)
    /\ (lo == hi <-> forall e1 e2, In e1 [50; 50] -> In e2 [50; 50] -> e1 == e2).
Proof. apply script_ylim_degenerate. discriminate. Defined.

(** X20: on the models built from a table, [make_plot] draws a curve for
    exactly the families among EF50, EF30, EF10 that occur in the table,
    in that order: its [len(d["t"]) < 2] guard never skips one. *)
Theorem app_plotted_families (ps : list phantom) (fams : list (string * family_model)) :
  build_family_models ps = Ok fams ->
  app_plotted fams = filter (fun f => existsb (String.eqb f) (map ph_fam ps)) FAMILIES_ORDER.
Proof.
  intros Hb. unfold app_plotted. apply filter_ext. intros f.
  destruct (build_family_models_keys ps fams Hb) as [_ Hk].
  destruct (lookup f fams) as [d|] eqn:El.
  - apply lookup_In in El.
    destruct (build_all_out _ _ Hb f d El) as (g & _ & Eg).
    destruct (build_family_shape g d Eg) as (H2 & _).
    replace (Nat.ltb (List.length (fm_t d)) 2) with false by (symmetry; apply Nat.ltb_ge; lia).
    symmetry. apply existsb_eqb_In. apply Hk. apply (in_map fst _ _ El).
  - apply lookup_None in El. symmetry.
    destruct (existsb (String.eqb f) (map ph_fam ps)) eqn:Ee; [|reflexivity].
    exfalso. apply El. apply Hk. apply existsb_eqb_In. exact Ee.
Qed.

Lemma app_plotted_families_witness :
  app_plotted fams_EF10
  = filter (fun f => existsb (String.eqb f) (map ph_fam phantoms_EF10)) FAMILIES_ORDER.
Proof. apply app_plotted_families. vm_compute. reflexivity. Defined.
